(** * The spectral-analysis engine of the frequency plot (SpectrumAnalyst)

    A shallow embedding of [SpectrumAnalyst] from [src/FreqWindow.cpp]:
    [Calculate], [GetProcessedSize], [GetProcessedValue], [FindPeak],
    [CubicInterpolate] and [CubicMaximize]; and, further down, of what
    surrounds it in the same file: the progress gauge [FreqGauge], and the
    computing parts of [GetAudio], [Recalc], [DrawPlot] and [PlotPaint] of
    the dialog.

    The C++ code computes on [float] and [double].  The embedding is written
    once over an interface of arithmetic operations ([FloatArith]); the
    places where C++ rounds a [double] to a [float] are marked by [narrow].
    Two interpretations of the interface are given further down: exact real
    numbers, and real numbers whose division traps on a zero divisor.

    [size_t] values are binary naturals with the 64-bit wrap-around written
    out ([wrap64]); [int] values are integers. *)

From Stdlib Require Import ZArith NArith List Bool Lia.
From Stdlib Require Import Reals Lra Zfloor Sorted FinFun.
Import ListNotations.

Set Implicit Arguments.

(** ** Arithmetic interface *)

Class FloatArith (F : Type) : Type := {
  f_of_Z  : Z -> F;            (* an integer, or an integral literal *)
  f_dec   : Z -> Z -> F;       (* the decimal literal m * 10^e *)
  fadd    : F -> F -> F;
  fsub    : F -> F -> F;
  fmul    : F -> F -> F;
  fdiv    : F -> F -> F;
  fneg    : F -> F;
  flt     : F -> F -> bool;    (* x < y *)
  fle     : F -> F -> bool;    (* x <= y *)
  fsqrt   : F -> F;
  flog    : F -> F;            (* natural logarithm *)
  flog10  : F -> F;
  fpow    : F -> F -> F;
  ffabs   : F -> F;
  ftrunc  : F -> Z;            (* the cast (int)x *)
  narrow  : F -> F             (* rounding of a double to a float *)
}.

(** ** Loops and buffers *)

(** [for_loop n body s] runs [body 0], ..., [body (n-1)] in this order. *)
Fixpoint for_loop {S : Type} (n : nat) (body : nat -> S -> S) (s : S) : S :=
  match n with
  | O => s
  | S n' => body n' (for_loop n' body s)
  end.

(** [for (i = lo; i < hi; i++)]. *)
Definition for_range {S : Type} (lo hi : nat) (body : nat -> S -> S) (s : S) : S :=
  for_loop (hi - lo) (fun k => body (lo + k)%nat) s.

(** [buf[i] = x]; a write past the end leaves the model's buffer unchanged. *)
Fixpoint upd {A : Type} (i : nat) (x : A) (l : list A) : list A :=
  match l, i with
  | [], _ => []
  | _ :: t, O => x :: t
  | h :: t, S i' => h :: upd i' x t
  end.

(** A buffer filled by [for (i = 0; i < n; i++) buf[i] = f i]. *)
Definition tabulate {A : Type} (n : nat) (f : nat -> A) : list A :=
  map f (seq 0 n).

Definition wrap64 (n : N) : N := (n mod 2 ^ 64)%N.

(** ** The engine *)

Module Alg.
(** [enum Algorithm], in the order of the algorithm choices of the dialog
    and of the [switch] in [Calculate]. *)
Definition Spectrum : Z := 0.
Definition Autocorrelation : Z := 1.
Definition CubeRootAutocorrelation : Z := 2.
Definition EnhancedAutocorrelation : Z := 3.
Definition Cepstrum : Z := 4.
Definition NumAlgorithms : Z := 5.
End Alg.

Record SpectrumAnalyst (F : Type) : Type := mkAnalyst {
  mAlg : Z;
  mRate : F;
  mWindowSize : N;
  mProcessed : list F
}.

(** What a call of [Calculate] hands back: [None] is [return false];
    [Some (yMin, yMax)] is [return true] with the values stored through
    [pYMin] and [pYMax]. *)
Definition verdict (F : Type) : Type := option (F * F).

Section Engine.

Context {F : Type} {FA : FloatArith F}.

(** The transform kernels and the window catalogue of [FFT.h] are not part
    of the engine; they are parameters.  Each kernel returns what it writes
    into its output buffer(s). *)
Variable NumWindowFuncs : Z.
Variable WindowFunc : Z -> nat -> list F -> list F.
Variable PowerSpectrum : nat -> list F -> list F.
Variable RealFFT : nat -> list F -> list F * list F.
Variable InverseRealFFT : nat -> list F -> list F.

Definition fzero : F := f_of_Z 0.

(** [buf[i]] for a [size_t] index. *)
Definition get (l : list F) (i : nat) : F := nth i l fzero.

(** [buf[i]] for an [int] index; C++ leaves a read at a negative index
    undefined, the model reads zero there. *)
Definition getz (l : list F) (i : Z) : F :=
  if (i <? 0)%Z then fzero else get l (Z.to_nat i).

(** A [Floats] buffer of [n] elements into which a kernel has written. *)
Definition buffer (n : nat) (written : list F) : list F :=
  tabulate n (get written).

(** Operations at type [float]: the result is rounded to single precision. *)
Definition addf (x y : F) : F := narrow (fadd x y).
Definition subf (x y : F) : F := narrow (fsub x y).
Definition mulf (x y : F) : F := narrow (fmul x y).
Definition divf (x y : F) : F := narrow (fdiv x y).
Definition i2f (z : Z) : F := narrow (f_of_Z z).   (* int or size_t to float *)
Definition i2d (z : Z) : F := f_of_Z z.            (* int or size_t to double, double literal *)

(** *** Cubic interpolation utility *)

(** The coefficients [a], [b], [c], [d] computed the same way at the top of
    [CubicInterpolate] and of [CubicMaximize]. *)
Definition cubic_a (y0 y1 y2 y3 : F) : F :=
  narrow (fadd (fsub (fadd (fdiv y0 (i2d (-6))) (fdiv y1 (i2d 2)))
                     (fdiv y2 (i2d 2)))
               (fdiv y3 (i2d 6))).
Definition cubic_b (y0 y1 y2 y3 : F) : F :=
  narrow (fsub (fadd (fsub y0 (fdiv (fmul (i2d 5) y1) (i2d 2)))
                     (fmul (i2d 2) y2))
               (fdiv y3 (i2d 2))).
Definition cubic_c (y0 y1 y2 y3 : F) : F :=
  narrow (fadd (fsub (fadd (fdiv (fmul (i2d (-11)) y0) (i2d 6))
                           (fmul (i2d 3) y1))
                     (fdiv (fmul (i2d 3) y2) (i2d 2)))
               (fdiv y3 (i2d 3))).
Definition cubic_d (y0 : F) : F := y0.

(** [a*x*x*x + b*x*x + c*x + d] at type [float]. *)
Definition cubic_at (a b c d x : F) : F :=
  addf (addf (addf (mulf (mulf (mulf a x) x) x) (mulf (mulf b x) x))
             (mulf c x))
       d.

Definition CubicInterpolate (y0 y1 y2 y3 x : F) : F :=
  let a := cubic_a y0 y1 y2 y3 in
  let b := cubic_b y0 y1 y2 y3 in
  let c := cubic_c y0 y1 y2 y3 in
  let d := cubic_d y0 in
  let xx := mulf x x in
  let xxx := mulf xx x in
  addf (addf (addf (mulf a xxx) (mulf b xx)) (mulf c x)) d.

(** The derivative's coefficients and its discriminant in [CubicMaximize]. *)
Definition deriv_a (y0 y1 y2 y3 : F) : F := mulf (i2f 3) (cubic_a y0 y1 y2 y3).
Definition deriv_b (y0 y1 y2 y3 : F) : F := mulf (i2f 2) (cubic_b y0 y1 y2 y3).
Definition deriv_c (y0 y1 y2 y3 : F) : F := cubic_c y0 y1 y2 y3.
Definition discriminant (y0 y1 y2 y3 : F) : F :=
  let da := deriv_a y0 y1 y2 y3 in
  let db := deriv_b y0 y1 y2 y3 in
  let dc := deriv_c y0 y1 y2 y3 in
  subf (mulf db db) (mulf (mulf (i2f 4) da) dc).

(** [CubicMaximize y0 y1 y2 y3 max] returns the returned position and the
    final content of [*max], which enters as [max]. *)
Definition CubicMaximize (y0 y1 y2 y3 : F) (max : F) : F * F :=
  let a := cubic_a y0 y1 y2 y3 in
  let b := cubic_b y0 y1 y2 y3 in
  let c := cubic_c y0 y1 y2 y3 in
  let d := cubic_d y0 in
  let da := deriv_a y0 y1 y2 y3 in
  let db := deriv_b y0 y1 y2 y3 in
  let disc := discriminant y0 y1 y2 y3 in
  if flt disc (i2d 0) then (narrow (i2d (-1)), max)
  else
    let x1 := divf (addf (fneg db) (narrow (fsqrt disc))) (mulf (i2f 2) da) in
    let x2 := divf (subf (fneg db) (narrow (fsqrt disc))) (mulf (i2f 2) da) in
    let dda := mulf (i2f 2) da in
    let ddb := db in
    if flt (addf (mulf dda x1) ddb) (i2f 0)
    then (x1, cubic_at a b c d x1)
    else (x2, cubic_at a b c d x2).

(** *** Calculate *)

(** [(out[i] * out[i]) + (out2[i] * out2[i])]. *)
Definition power_at (out out2 : list F) (i : nat) : F :=
  addf (mulf (get out i) (get out i)) (mulf (get out2 i) (get out2 i)).

(** [for (i = 0; i < half; i++) mProcessed[i] += out[i]]. *)
Definition accumulate (half : nat) (out p : list F) : list F :=
  for_loop half (fun i p => upd i (addf (get p i) (get out i)) p) p.

(** The window buffer: all ones, then the selected window function. *)
Definition window_coeffs (windowFunc : Z) (ws : nat) : list F :=
  buffer ws (WindowFunc windowFunc ws (tabulate ws (fun _ => narrow (i2d 1)))).

(** [wss]: the sum of the window, turned into the scale of the spectrum. *)
Definition window_sum (ws : nat) (win : list F) : F :=
  for_loop ws (fun i wss => fadd wss (get win i)) (i2d 0).

Definition normalization (ws : nat) (win : list F) : F :=
  let wss := window_sum ws win in
  if flt (i2d 0) wss then fdiv (i2d 4) (fmul wss wss) else i2d 1.

(** [in[i] = win[i] * data[start + i]]. *)
Definition frame (ws : nat) (win data : list F) (start : N) : list F :=
  tabulate ws (fun i =>
    mulf (get win i) (get data (N.to_nat (wrap64 (start + N.of_nat i))))).

(** The content of [out] after [RealFFT], squaring, root and second
    [RealFFT] of the three autocorrelation variants. *)
Definition autocorr_out (alg : Z) (ws : nat) (inp : list F) : list F :=
  let '(o, o2) := RealFFT ws inp in
  let out := buffer ws o in
  let out2 := buffer ws o2 in
  let in1 := tabulate ws (power_at out out2) in
  let in2 := if (alg =? Alg.Autocorrelation)%Z
             then map (fun x => narrow (fsqrt x)) in1 else in1 in
  let in3 := if ((alg =? Alg.CubeRootAutocorrelation) ||
                 (alg =? Alg.EnhancedAutocorrelation))%Z
             then map (fun x => narrow (fpow x (divf (narrow (i2d 1)) (narrow (i2d 3))))) in2
             else in2 in
  buffer ws (fst (RealFFT ws in3)).

(** [minpower = 1e-20*mWindowSize*mWindowSize]. *)
Definition minpower (ws : nat) : F :=
  narrow (fmul (fmul (f_dec 1 (-20)) (i2d (Z.of_nat ws))) (i2d (Z.of_nat ws))).

Definition log_power (ws : nat) (out out2 : list F) (i : nat) : F :=
  let power := power_at out out2 i in
  if flt power (minpower ws) then narrow (flog (minpower ws))
  else narrow (flog power).

(** The content of [out] after the [Cepstrum] case. *)
Definition cepstrum_out (ws : nat) (inp : list F) : list F :=
  let '(o, o2) := RealFFT ws inp in
  let out := buffer ws o in
  let out2 := buffer ws o2 in
  let in1 := tabulate ws (log_power ws out out2) in
  buffer ws (InverseRealFFT ws in1).

(** The [switch (alg)] inside the window loop: new [mProcessed] and [out]. *)
Definition window_body (alg : Z) (ws : nat) (inp : list F)
    (p out : list F) : list F * list F :=
  let half := (ws / 2)%nat in
  if (alg =? Alg.Spectrum)%Z then
    let out' := buffer ws (PowerSpectrum ws inp) in
    (accumulate half out' p, out')
  else if ((alg =? Alg.Autocorrelation) || (alg =? Alg.CubeRootAutocorrelation)
           || (alg =? Alg.EnhancedAutocorrelation))%Z then
    let out' := autocorr_out alg ws inp in
    (accumulate half out' p, out')
  else if (alg =? Alg.Cepstrum)%Z then
    let out' := cepstrum_out ws inp in
    (accumulate half out' p, out')
  else (p, out).

(** [while (start + mWindowSize <= dataLen) { ...; start += half; windows++; }].
    The counter [windows] is an [int]; its overflow is undefined in C++ and
    the model counts in [Z] (see [windows_at_least_one] for its range). *)
Fixpoint window_loop (fuel : nat) (alg : Z) (mWindowSize : N)
    (win data : list F) (dataLen : N)
    (start : N) (windows : Z) (p out : list F)
  : option (Z * list F * list F) :=
  match fuel with
  | O => None
  | S fuel' =>
      if (wrap64 (start + mWindowSize) <=? dataLen)%N then
        let ws := N.to_nat mWindowSize in
        let inp := frame ws win data start in
        let '(p', out') := window_body alg ws inp p out in
        window_loop fuel' alg mWindowSize win data dataLen
          (wrap64 (start + mWindowSize / 2)) (windows + 1) p' out'
      else Some (windows, p, out)
  end.

(** [if (v > mYMax) mYMax = v; else if (v < mYMin) mYMin = v;] on the pair
    [(mYMin, mYMax)]. *)
Definition minmax_step (v : F) (mm : F * F) : F * F :=
  let '(ymin, ymax) := mm in
  if flt ymax v then (ymin, v)
  else if flt v ymin then (v, ymax)
  else (ymin, ymax).

(** [for (i = lo; i < hi; i++) <minmax_step on mProcessed[i]>]. *)
Definition minmax_scan (lo hi : nat) (p : list F) (mm : F * F) : F * F :=
  for_range lo hi (fun i mm => minmax_step (get p i) mm) mm.

(** [for (i = 0; i < half; i++) mProcessed[i] = mProcessed[i] / windows]. *)
Definition divide_by_windows (half : nat) (windows : Z) (p : list F) : list F :=
  for_loop half (fun i p => upd i (divf (get p i) (i2f windows)) p) p.

(** The [Spectrum] case of the second [switch]. *)
Definition post_spectrum (half : nat) (wss : F) (windows : Z) (p : list F)
  : list F * (F * F) :=
  let scale := fdiv wss (i2d windows) in
  for_loop half
    (fun i '(p, mm) =>
       let p' := upd i (narrow (fmul (i2d 10) (flog10 (fmul (get p i) scale)))) p in
       (p', minmax_step (get p' i) mm))
    (p, (narrow (i2d 1000000), narrow (i2d (-1000000)))).

(** The [Autocorrelation] and [CubeRootAutocorrelation] case. *)
Definition post_autocorr (half : nat) (windows : Z) (p : list F)
  : list F * (F * F) :=
  let p1 := divide_by_windows half windows p in
  (p1, minmax_scan 1 half p1 (get p1 0, get p1 0)).

(** "Clip at zero, copy to temp array". *)
Definition clip_copy (half : nat) (p out : list F) : list F * list F :=
  for_loop half
    (fun i '(p, out) =>
       let p' := if flt (get p i) (i2d 0) then upd i (narrow (i2d 0)) p else p in
       (p', upd i (get p' i) out))
    (p, out).

(** "Subtract a time-doubled signal (linearly interp.) from the original". *)
Definition subtract_doubled (half : nat) (out p : list F) : list F :=
  for_loop half
    (fun i p =>
       if (i mod 2 =? 0)%nat
       then upd i (subf (get p i) (get out (i / 2))) p
       else upd i (subf (get p i)
                     (divf (addf (get out (i / 2)) (get out (i / 2 + 1))) (i2f 2))) p)
    p.

(** "Clip at zero again". *)
Definition clip (half : nat) (p : list F) : list F :=
  for_loop half
    (fun i p => if flt (get p i) (i2d 0) then upd i (narrow (i2d 0)) p else p)
    p.

(** The [EnhancedAutocorrelation] case. *)
Definition post_enhanced (half : nat) (windows : Z) (p out : list F)
  : list F * (F * F) :=
  let p1 := divide_by_windows half windows p in
  let '(p2, out') := clip_copy half p1 out in
  let p3 := subtract_doubled half out' p2 in
  let p4 := clip half p3 in
  (p4, minmax_scan 1 half p4 (get p4 0, get p4 0)).

(** The [Cepstrum] case; [ignore = 4]. *)
Definition post_cepstrum (half : nat) (windows : Z) (p : list F)
  : list F * (F * F) :=
  let p1 := divide_by_windows half windows p in
  let ignore := 4%nat in
  (p1, minmax_scan (ignore + 1) (half - ignore) p1 (get p1 ignore, get p1 ignore)).

(** The second [switch (alg)]. *)
Definition post_process (alg : Z) (half : nat) (wss : F) (windows : Z)
    (p out : list F) : list F * (F * F) :=
  if (alg =? Alg.Spectrum)%Z then post_spectrum half wss windows p
  else if ((alg =? Alg.Autocorrelation) || (alg =? Alg.CubeRootAutocorrelation))%Z
  then post_autocorr half windows p
  else if (alg =? Alg.EnhancedAutocorrelation)%Z
  then post_enhanced half windows p out
  else if (alg =? Alg.Cepstrum)%Z then post_cepstrum half windows p
  else (p, (i2f 1000000, i2f (-1000000))).

(** The validation at the head of [Calculate]. *)
Definition valid_params (alg windowFunc : Z) (windowSize : N) : bool :=
  ((32 <=? windowSize)%N && (windowSize <=? 65536)%N &&
   (Alg.Spectrum <=? alg)%Z && (alg <? Alg.NumAlgorithms)%Z &&
   (0 <=? windowFunc)%Z && (windowFunc <? NumWindowFuncs)%Z)%bool.

(** [Calculate], called without a progress gauge ([progress] is null); the
    call with a gauge is [Dialog.Calculate_progress].  The outer [option]
    is [None] when [fuel] does not cover the window loop. *)
Definition Calculate (fuel : nat) (s : SpectrumAnalyst F)
    (alg windowFunc : Z) (windowSize : N) (rate : F)
    (data : list F) (dataLen : N)
  : option (SpectrumAnalyst F * verdict F) :=
  (* Wipe old data *)
  let wiped := mkAnalyst (mAlg s) (i2d 0) 0%N [] in
  if negb (valid_params alg windowFunc windowSize) then Some (wiped, None)
  else if (dataLen <? windowSize)%N then Some (wiped, None)
  else
    let ws := N.to_nat windowSize in
    let half := (ws / 2)%nat in
    let p0 := tabulate ws (fun _ => narrow (i2d 0)) in
    let win := window_coeffs windowFunc ws in
    let wss := normalization ws win in
    match window_loop fuel alg windowSize win data dataLen 0%N 0%Z p0
            (tabulate ws (fun _ => fzero)) with
    | None => None
    | Some (windows, p, out) =>
        let '(p', (ymin, ymax)) := post_process alg half wss windows p out in
        Some (mkAnalyst alg rate windowSize p', Some (ymin, ymax))
    end.

Definition GetProcessedSize (s : SpectrumAnalyst F) : Z :=
  Z.of_nat (length (mProcessed s)) / 2.

(** The constructor [SpectrumAnalyst::SpectrumAnalyst()]; [mProcessed] is
    default-constructed, that is empty. *)
Definition SpectrumAnalyst_new : SpectrumAnalyst F :=
  mkAnalyst Alg.Spectrum (i2d 0) 0%N [].

(** *** GetProcessedValue *)

(** The pair [(bin0, bin1)] computed at the head of [GetProcessedValue]. *)
Definition to_bins (s : SpectrumAnalyst F) (freq0 freq1 : F) : F * F :=
  if (mAlg s =? Alg.Spectrum)%Z then
    (narrow (fdiv (mulf freq0 (i2f (Z.of_N (mWindowSize s)))) (mRate s)),
     narrow (fdiv (mulf freq1 (i2f (Z.of_N (mWindowSize s)))) (mRate s)))
  else
    (narrow (fmul freq0 (mRate s)), narrow (fmul freq1 (mRate s))).

(** The base index [ibin] of the interpolation branch. *)
Definition interp_base (size : Z) (binmid : F) : Z :=
  let ibin := (ftrunc binmid - 1)%Z in
  let ibin := if (ibin <? 1)%Z then 1%Z else ibin in
  if (ibin >=? size - 3)%Z then Z.max 0 (size - 4) else ibin.

(** [while (bin0 < (int)(bin1)) { value += mProcessed[(int)(bin0)]; bin0 += 1.0; }] *)
Fixpoint sum_full_bins (fuel : nat) (p : list F) (ibin1 : Z) (bin0 value : F)
  : option F :=
  match fuel with
  | O => None
  | S fuel' =>
      if flt bin0 (i2f ibin1)
      then sum_full_bins fuel' p ibin1 (narrow (fadd bin0 (i2d 1)))
             (addf value (getz p (ftrunc bin0)))
      else Some value
  end.

(** The integration branch, from clamped [bin0] and [bin1] on. *)
Definition integrate_bins (fuel : nat) (p : list F) (size : Z)
    (bin0 bin1 binwidth : F) : option F :=
  let value := narrow (i2d 0) in
  let bin0 := if flt bin0 (i2f 0) then i2f 0 else bin0 in
  let bin1 := if fle (i2f size) bin1 then i2f (size - 1) else bin1 in
  let value :=
    if (ftrunc bin1 >? ftrunc bin0)%Z
    then addf value (mulf (getz p (ftrunc bin0)) (subf (i2f (ftrunc bin0 + 1)) bin0))
    else value in
  let bin0 := i2f (1 + ftrunc bin0) in
  match sum_full_bins fuel p (ftrunc bin1) bin0 value with
  | None => None
  | Some value =>
      let value := addf value (mulf (getz p (ftrunc bin1)) (subf bin1 (i2f (ftrunc bin1)))) in
      Some (divf value binwidth)
  end.

(** [None] when [fuel] does not cover the loop over the full bins. *)
Definition GetProcessedValue (fuel : nat) (s : SpectrumAnalyst F)
    (freq0 freq1 : F) : option F :=
  let p := mProcessed s in
  let '(bin0, bin1) := to_bins s freq0 freq1 in
  let binwidth := subf bin1 bin0 in
  if flt binwidth (i2d 1) then
    let binmid := narrow (fdiv (addf bin0 bin1) (i2d 2)) in
    let ibin := interp_base (GetProcessedSize s) binmid in
    Some (CubicInterpolate (getz p ibin) (getz p (ibin + 1)) (getz p (ibin + 2))
            (getz p (ibin + 3)) (subf binmid (i2f ibin)))
  else integrate_bins fuel p (GetProcessedSize s) bin0 bin1 binwidth.

(** *** FindPeak *)

(** The running [bestpeak], [bestdist] and [bestValue]. *)
Record best (F : Type) : Type := mkBest {
  bestpeak : F;
  bestdist : F;
  bestValue : F
}.

(** [thispeak] and [valueAtMax] of the local maximum found at [bin]. *)
Definition candidate (s : SpectrumAnalyst F) (bin : Z) : F * F :=
  let p := mProcessed s in
  let leftbin := (bin - 2)%Z in
  let '(x, valueAtMax) :=
    CubicMaximize (getz p leftbin) (getz p (leftbin + 1)) (getz p (leftbin + 2))
      (getz p (leftbin + 3)) (narrow (i2d 0)) in
  let max := addf (i2f leftbin) x in
  let thispeak :=
    if (mAlg s =? Alg.Spectrum)%Z
    then narrow (fdiv (fmul max (mRate s)) (i2d (Z.of_N (mWindowSize s))))
    else narrow (fdiv max (mRate s)) in
  (thispeak, valueAtMax).

(** [n] iterations of [for (bin = ...; bin < size - 1; bin++)], from [bin]
    on; a [break] returns at once. *)
Fixpoint FindPeak_loop (n : nat) (s : SpectrumAnalyst F) (xPos : F)
    (bin : Z) (up : bool) (b : best F) : best F :=
  match n with
  | O => b
  | S n' =>
      let p := mProcessed s in
      let nowUp := flt (getz p (bin - 1)) (getz p bin) in
      if (negb nowUp && up)%bool then
        let '(thispeak, valueAtMax) := candidate s bin in
        if flt (ffabs (subf thispeak xPos)) (bestdist b) then
          let b' := mkBest thispeak (ffabs (subf thispeak xPos)) valueAtMax in
          if flt xPos thispeak then b'
          else FindPeak_loop n' s xPos (bin + 1) nowUp b'
        else FindPeak_loop n' s xPos (bin + 1) nowUp b
      else FindPeak_loop n' s xPos (bin + 1) nowUp b
  end.

(** Returns the returned position and the value stored through [pY]. *)
Definition FindPeak (s : SpectrumAnalyst F) (xPos : F) : F * F :=
  let p := mProcessed s in
  let b0 := mkBest (narrow (i2d 0)) (i2f 1000000) (narrow (i2d 0)) in
  let b :=
    if (GetProcessedSize s >? 1)%Z then
      let up := flt (getz p 0) (getz p 1) in
      FindPeak_loop (Z.to_nat (GetProcessedSize s - 1 - 3)) s xPos 3 up b0
    else b0 in
  (bestpeak b, bestValue b).

End Engine.

Arguments fzero {F FA}.

(** ** Interpretations of the arithmetic *)

(** *** Exact real numbers

    [float] and [double] are both read as real numbers and no operation
    rounds.  The cast to [int] truncates toward zero.  A quotient by zero,
    an infinity or a NaN in C++, has no meaning here: what is stated of a
    quotient over this interpretation comes with the divisor being other
    than zero. *)
Module Ideal.

Definition Rltb (x y : R) : bool := if Rlt_dec x y then true else false.
Definition Rleb (x y : R) : bool := if Rle_dec x y then true else false.

Definition Rtrunc (x : R) : Z :=
  if Rlt_dec x 0 then Zceil x else Zfloor x.

(** [pow] on a base that is not positive is read as zero. *)
Definition Rpow (x y : R) : R :=
  if Rlt_dec 0 x then Rpower x y else 0%R.

#[global] Instance Rarith : FloatArith R := {|
  f_of_Z := IZR;
  f_dec := fun m e => (IZR m * powerRZ 10 e)%R;
  fadd := Rplus;
  fsub := Rminus;
  fmul := Rmult;
  fdiv := Rdiv;
  fneg := Ropp;
  flt := Rltb;
  fle := Rleb;
  fsqrt := sqrt;
  flog := ln;
  flog10 := fun x => (ln x / ln 10)%R;
  fpow := Rpow;
  ffabs := Rabs;
  ftrunc := Rtrunc;
  narrow := fun x => x
|}.

End Ideal.

(** *** Real numbers with a trapping division

    [None] is the outcome of a division by zero, and of any operation one of
    whose operands is such an outcome.  A comparison with [None] is false. *)
Module Trapping.

Definition lift1 (f : R -> R) (x : option R) : option R :=
  match x with Some a => Some (f a) | None => None end.

Definition lift2 (f : R -> R -> R) (x y : option R) : option R :=
  match x, y with Some a, Some b => Some (f a b) | _, _ => None end.

Definition cmp (f : R -> R -> bool) (x y : option R) : bool :=
  match x, y with Some a, Some b => f a b | _, _ => false end.

Definition div (x y : option R) : option R :=
  match x, y with
  | Some a, Some b => if Req_dec_T b 0 then None else Some (a / b)%R
  | _, _ => None
  end.

#[global] Instance Tarith : FloatArith (option R) := {|
  f_of_Z := fun z => Some (IZR z);
  f_dec := fun m e => Some (IZR m * powerRZ 10 e)%R;
  fadd := lift2 Rplus;
  fsub := lift2 Rminus;
  fmul := lift2 Rmult;
  fdiv := div;
  fneg := lift1 Ropp;
  flt := cmp Ideal.Rltb;
  fle := cmp Ideal.Rleb;
  fsqrt := lift1 sqrt;
  flog := lift1 ln;
  flog10 := lift1 (fun x => (ln x / ln 10)%R);
  fpow := lift2 Ideal.Rpow;
  ffabs := lift1 Rabs;
  ftrunc := fun x => match x with Some a => Ideal.Rtrunc a | None => 0%Z end;
  narrow := fun x => x
|}.

End Trapping.

(** ** Windows, contributions and the accumulated curve *)

Section Windows.

Context {F : Type} {FA : FloatArith F}.
Variable PowerSpectrum : nat -> list F -> list F.
Variable RealFFT : nat -> list F -> list F * list F.
Variable InverseRealFFT : nat -> list F -> list F.

(** The number of window positions [0, half, 2*half, ...] at which a full
    window of [windowSize] samples fits into [dataLen] samples. *)
Definition window_count (windowSize dataLen : N) : Z :=
  (Z.of_N ((dataLen - windowSize) / (windowSize / 2)) + 1)%Z.

(** The windowed samples of window number [k]. *)
Definition nth_frame (ws : nat) (win data : list F) (k : nat) : list F :=
  frame ws win data (N.of_nat k * N.of_nat (ws / 2)).

(** What window number [k] adds to the curve: the content of [out] after
    the transform of the selected algorithm. *)
Definition contribution (alg : Z) (ws : nat) (win data : list F) (k : nat)
  : list F :=
  let inp := nth_frame ws win data k in
  if (alg =? Alg.Spectrum)%Z then buffer ws (PowerSpectrum ws inp)
  else if (alg =? Alg.Cepstrum)%Z
       then cepstrum_out RealFFT InverseRealFFT ws inp
       else autocorr_out RealFFT alg ws inp.

(** Bin [i] of the curve after [k] windows: the contributions added one
    after the other, in [float]. *)
Definition accumulated (alg : Z) (ws : nat) (win data : list F) (k i : nat)
  : F :=
  for_loop k (fun j a => addf a (get (contribution alg ws win data j) i))
    (narrow (i2d 0)).

(** [r] iterations of the window loop from window number [k] on. *)
Fixpoint run_windows (r : nat) (alg : Z) (ws : nat) (win data : list F)
    (k : nat) (p out : list F) : list F * list F :=
  match r with
  | O => (p, out)
  | S r' =>
      let '(p', out') :=
        window_body PowerSpectrum RealFFT InverseRealFFT alg ws
          (nth_frame ws win data k) p out in
      run_windows r' alg ws win data (S k) p' out'
  end.

End Windows.

(** ** Post-processing, stated bin by bin *)

Section Bins.

Context {F : Type} {FA : FloatArith F}.

(** The decibel value of an accumulated power. *)
Definition decibels (scale x : F) : F :=
  narrow (fmul (i2d 10) (flog10 (fmul x scale))).

(** A value clipped at zero. *)
Definition clipped (x : F) : F :=
  if flt x (i2d 0) then narrow (i2d 0) else x.

(** What the time-doubling loop subtracts at index [i]: the clipped curve
    [out] at [i/2], linearly interpolated. *)
Definition doubled_at (out : list F) (i : nat) : F :=
  if (i mod 2 =? 0)%nat then get out (i / 2)
  else divf (addf (get out (i / 2)) (get out (i / 2 + 1))) (i2f 2).

End Bins.

(** ** Order laws

    The laws of [<] that the search for the minimum and the maximum relies
    on: a strict weak order.  Real numbers satisfy them, and so do the
    floating-point numbers apart from NaN. *)
Class OrderedArith (F : Type) {FA : FloatArith F} : Prop := {
  flt_asym : forall x y : F, flt x y = true -> flt y x = false;
  flt_negtrans : forall x y z : F,
      flt x y = false -> flt y z = false -> flt x z = false;
  narrow_zero : flt (narrow (f_of_Z 0)) (f_of_Z 0) = false
}.

Arguments OrderedArith F {FA}.

(** [lo] is not above and [hi] is not below any of the bins [first], ...,
    [last - 1] of [p], and both are among these bins. *)
Definition is_min_max {F : Type} {FA : FloatArith F}
    (p : list F) (first last : nat) (lo hi : F) : Prop :=
  (exists j, (first <= j < last)%nat /\ lo = get p j) /\
  (exists j, (first <= j < last)%nat /\ hi = get p j) /\
  (forall i, (first <= i < last)%nat ->
             flt (get p i) lo = false /\ flt hi (get p i) = false).

(** ** A small configuration for examples

    A catalogue of ten window functions that leave the buffer as it is, and
    kernels that hand their input back: enough to run the engine on concrete
    samples over the real numbers. *)
Module Sample.

Definition NumWindowFuncs : Z := 10.
Definition WindowFunc (id : Z) (n : nat) (buf : list R) : list R := buf.
Definition PowerSpectrum (n : nat) (inp : list R) : list R := inp.
Definition RealFFT (n : nat) (inp : list R) : list R * list R := (inp, inp).
Definition InverseRealFFT (n : nat) (inp : list R) : list R := inp.

Definition Calculate :=
  Calculate (FA := Ideal.Rarith)
    NumWindowFuncs WindowFunc PowerSpectrum RealFFT InverseRealFFT.

(** Thirty-two samples of value one. *)
Definition ones : list R := repeat 1%R 32.

(** Thirty-two values, the first of which is the smallest. *)
Definition low_first : list R := 256%R :: repeat 2560%R 31.

End Sample.

(** ** The cubic through four samples, over the real numbers *)

Module Cubic.

(** The cubic [a x^3 + b x^2 + c x + d] through [(0, y0)], [(1, y1)],
    [(2, y2)], [(3, y3)], its first and its second derivative, with the
    coefficients the code computes. *)
Definition poly (y0 y1 y2 y3 x : R) : R :=
  (cubic_a y0 y1 y2 y3 * x * x * x + cubic_b y0 y1 y2 y3 * x * x
   + cubic_c y0 y1 y2 y3 * x + cubic_d y0)%R.

Definition poly' (y0 y1 y2 y3 x : R) : R :=
  (3 * cubic_a y0 y1 y2 y3 * x * x + 2 * cubic_b y0 y1 y2 y3 * x
   + cubic_c y0 y1 y2 y3)%R.

Definition poly'' (y0 y1 y2 y3 x : R) : R :=
  (6 * cubic_a y0 y1 y2 y3 * x + 2 * cubic_b y0 y1 y2 y3)%R.

(** What the specification says of [Maximize] at the samples [y0..y3]: the
    sentinel [-1] exactly for a negative discriminant; otherwise a root of
    the derivative with a negative second derivative, and the value of the
    cubic there. *)
Definition maximize_as_specified (y0 y1 y2 y3 : R) : Prop :=
  let '(x, v) := CubicMaximize y0 y1 y2 y3 0%R in
  (x = (-1)%R <-> (discriminant y0 y1 y2 y3 < 0)%R) /\
  (~ (discriminant y0 y1 y2 y3 < 0)%R ->
   poly' y0 y1 y2 y3 x = 0%R /\ (poly'' y0 y1 y2 y3 x < 0)%R /\
   v = poly y0 y1 y2 y3 x).

End Cubic.

(** ** The curve query as the specification words it, over the real numbers *)

Module Query.

(** The cubic through [(0, y0)], [(1, y1)], [(2, y2)], [(3, y3)], in
    Lagrange's form, at [x]. *)
Definition interpolating_cubic (y0 y1 y2 y3 x : R) : R :=
  (y0 * ((x - 1) * (x - 2) * (x - 3)) / (-6)
   + y1 * (x * (x - 2) * (x - 3)) / 2
   + y2 * (x * (x - 1) * (x - 3)) / (-2)
   + y3 * (x * (x - 1) * (x - 2)) / 6)%R.

(** Frequency (Spectrum) or lag (the other algorithms) to index space. *)
Definition index_of (s : SpectrumAnalyst R) (x : R) : R :=
  if (mAlg s =? Alg.Spectrum)%Z
  then (x * IZR (Z.of_N (mWindowSize s)) / mRate s)%R
  else (x * mRate s)%R.

Definition clampZ (lo hi x : Z) : Z := Z.max lo (Z.min hi x).
Definition clampR (lo hi x : R) : R := Rmax lo (Rmin hi x).

(** The length of the part of bin [i], which spans [i, i + 1], that lies
    inside [lo, hi]. *)
Definition coverage (lo hi : R) (i : nat) : R :=
  Rmax 0 (Rmin hi (IZR (Z.of_nat i) + 1) - Rmax lo (IZR (Z.of_nat i))).

(** The integral over [lo, hi] of the curve of [n] bins: each bin counts
    with its value times its coverage. *)
Fixpoint integral (p : list R) (n : nat) (lo hi : R) : R :=
  match n with
  | O => 0%R
  | S n' => (integral p n' lo hi + get p n' * coverage lo hi n')%R
  end.

(** [p[a] + ... + p[a + n - 1]]. *)
Fixpoint sum_from (p : list R) (a n : nat) : R :=
  match n with
  | O => 0%R
  | S n' => (get p a + sum_from p (S a) n')%R
  end.

(** The interpolation branch: the cubic through the four bins from the base
    index on, the base index clamped into [1, size - 4], at the midpoint. *)
Definition interpolated (s : SpectrumAnalyst R) (bin0 bin1 : R) : R :=
  let p := mProcessed s in
  let binmid := ((bin0 + bin1) / 2)%R in
  let base := clampZ 1 (GetProcessedSize s - 4) (Ideal.Rtrunc binmid - 1) in
  interpolating_cubic (getz p base) (getz p (base + 1)) (getz p (base + 2))
    (getz p (base + 3)) (binmid - IZR base)%R.

(** The value of [GetProcessedValue] as the specification words it: below
    one bin of width the interpolation, otherwise the integral over the
    index range clamped to [0, size - 1], divided by the width. *)
Definition value_as_specified (s : SpectrumAnalyst R) (freq0 freq1 : R) : R :=
  let size := GetProcessedSize s in
  let bin0 := index_of s freq0 in
  let bin1 := index_of s freq1 in
  let binwidth := (bin1 - bin0)%R in
  if Rlt_dec binwidth 1 then interpolated s bin0 bin1
  else (integral (mProcessed s) (Z.to_nat size)
          (clampR 0 (IZR (size - 1)) bin0) (clampR 0 (IZR (size - 1)) bin1)
        / binwidth)%R.

Definition query_as_specified (s : SpectrumAnalyst R) (freq0 freq1 : R) : Prop :=
  forall fuel, (Z.to_nat (GetProcessedSize s) <= fuel)%nat ->
    GetProcessedValue fuel s freq0 freq1 = Some (value_as_specified s freq0 freq1).

(** The ends of the range as the code moves them: a negative start becomes
    0, an end at or past [size] becomes [size - 1]. *)
Definition moved_start (bin0 : R) : R := if Rlt_dec bin0 0 then 0%R else bin0.
Definition moved_end (size : Z) (bin1 : R) : R :=
  if Rle_dec (IZR size) bin1 then IZR (size - 1) else bin1.

(** A curve of sixteen bins of value one, computed with a lag algorithm at
    rate one, so that lags are indices. *)
Definition flat_curve : SpectrumAnalyst R :=
  mkAnalyst Alg.Autocorrelation 1%R 32%N (repeat 1%R 32).

End Query.

(** ** The peak search as the specification words it, over the real numbers *)

Module Peak.

(** A candidate: its position (frequency or lag) and its value. *)
Definition cand : Type := (R * R)%type.

Definition dist (x : R) (c : cand) : R := Rabs (fst c - x).

(** The values [3], ..., [size - 2] of the loop variable [bin]. *)
Definition bins (s : SpectrumAnalyst R) : list Z :=
  map (fun k => (3 + Z.of_nat k)%Z) (seq 0 (Z.to_nat (GetProcessedSize s - 1 - 3))).

(** Sample [m] lies above its left neighbour. *)
Definition rising (p : list R) (m : Z) : bool :=
  Ideal.Rltb (getz p (m - 1)) (getz p m).

(** At [bin], the sample before it is strictly greater than both its
    neighbours: the curve rose into it and falls after it. *)
Definition strict_maximum_before (p : list R) (bin : Z) : bool :=
  (rising p (bin - 1) && Ideal.Rltb (getz p bin) (getz p (bin - 1)))%bool.

(** At [bin], the curve rose into the sample before it and does not rise
    after it. *)
Definition maximum_before (p : list R) (bin : Z) : bool :=
  (rising p (bin - 1) && negb (rising p bin))%bool.

(** The candidates up to and including the first one beyond [x]. *)
Fixpoint upto_overshoot (x : R) (cs : list cand) : list cand :=
  match cs with
  | [] => []
  | c :: cs' => if Rlt_dec x (fst c) then [c] else c :: upto_overshoot x cs'
  end.

(** The candidate nearest to [x], the earliest one among equally near ones. *)
Fixpoint nearest (x : R) (cs : list cand) : option cand :=
  match cs with
  | [] => None
  | c :: cs' =>
      match nearest x cs' with
      | None => Some c
      | Some c' => if Rlt_dec (dist x c') (dist x c) then Some c' else Some c
      end
  end.

(** The peak as the specification words it: the nearest of the refined
    strict local maxima up to the first one beyond the query position, and
    the pair of zeros when there is none. *)
Definition peak_as_specified (s : SpectrumAnalyst R) (xPos : R) : cand :=
  let cs := map (candidate s)
              (filter (strict_maximum_before (mProcessed s)) (bins s)) in
  match nearest xPos (upto_overshoot xPos cs) with
  | Some c => c
  | None => (0%R, 0%R)
  end.

Definition search_as_specified (s : SpectrumAnalyst R) (xPos : R) : Prop :=
  FindPeak s xPos = peak_as_specified s xPos.

(** The candidates the code refines, and the peak among those within
    1000000 of the query position. *)
Definition candidates (s : SpectrumAnalyst R) : list cand :=
  map (candidate s) (filter (maximum_before (mProcessed s)) (bins s)).

Definition peak_within_reach (s : SpectrumAnalyst R) (xPos : R) : cand :=
  match nearest xPos (upto_overshoot xPos (candidates s)) with
  | Some c => if Rlt_dec (dist xPos c) 1000000 then c else (0%R, 0%R)
  | None => (0%R, 0%R)
  end.

(** The bins at which the loop of [FindPeak] finds a maximum, with the
    flag [up] as the loop carries it. *)
Fixpoint detect (p : list R) (n : nat) (bin : Z) (up : bool) : list Z :=
  match n with
  | O => []
  | S n' =>
      let nowUp := rising p bin in
      if (negb nowUp && up)%bool then bin :: detect p n' (bin + 1) nowUp
      else detect p n' (bin + 1) nowUp
  end.

(** The selection among candidates as the loop performs it. *)
Fixpoint select (x : R) (cs : list cand) (b : best R) : best R :=
  match cs with
  | [] => b
  | c :: cs' =>
      if Rlt_dec (dist x c) (bestdist b) then
        let b' := mkBest (fst c) (dist x c) (snd c) in
        if Rlt_dec x (fst c) then b' else select x cs' b'
      else select x cs' b
  end.

(** The running best after the candidate [oc], if any, has been seen. *)
Definition improve (x : R) (b : best R) (oc : option cand) : best R :=
  match oc with
  | Some c => if Rlt_dec (dist x c) (bestdist b)
              then mkBest (fst c) (dist x c) (snd c) else b
  | None => b
  end.

(** Sixteen bins that rise to a plateau of 4 and then to a plateau of 6:
    no sample is strictly greater than both its neighbours. *)
Definition plateau_curve : SpectrumAnalyst R :=
  mkAnalyst Alg.Autocorrelation 1%R 32%N
    ([0; 0; 0; 0; 0; 4; 4; 6; 6; 6; 6; 6; 6; 6; 6; 6]%R ++ repeat 0%R 16).

(** Sixteen bins with a single maximum at bin 6. *)
Definition hill_curve : SpectrumAnalyst R :=
  mkAnalyst Alg.Autocorrelation 1%R 32%N
    ([0; 0; 0; 0; 0; 4; 6; 4; 0; 0; 0; 0; 0; 0; 0; 0]%R ++ repeat 0%R 16).

(** The frequency (a [Spectrum] curve) or the lag (any other curve) of the
    index [i] of the curve. *)
Definition position_of (s : SpectrumAnalyst R) (i : R) : R :=
  if (mAlg s =? Alg.Spectrum)%Z
  then (i * mRate s / IZR (Z.of_N (mWindowSize s)))%R
  else (i / mRate s)%R.

(** The cubic through the four samples around the maximum found at [bin]
    is of degree three: its leading coefficient, by which the refinement
    divides, is not zero. *)
Definition proper_cubic (p : list R) (bin : Z) : Prop :=
  (- getz p (bin - 2) + 3 * getz p (bin - 1) - 3 * getz p bin
   + getz p (bin + 1) <> 0)%R.

(** The divisions of the conversion to a frequency or a lag are by numbers
    above zero. *)
Definition positive_scale (s : SpectrumAnalyst R) : Prop :=
  (0 < mRate s)%R /\
  ((mAlg s =? Alg.Spectrum)%Z = true -> (0 < mWindowSize s)%N).

(** The peak among all candidates: the nearest one, the earliest among
    equally near ones, if it is less than 1000000 away. *)
Definition nearest_peak (s : SpectrumAnalyst R) (xPos : R) : cand :=
  match nearest xPos (candidates s) with
  | Some c => if Rlt_dec (dist xPos c) 1000000 then c else (0%R, 0%R)
  | None => (0%R, 0%R)
  end.

(** Sixteen bins with a maximum at bin 6 and another one at bin 11. *)
Definition two_hills : SpectrumAnalyst R :=
  mkAnalyst Alg.Autocorrelation 1%R 32%N
    ([0; 0; 0; 0; 0; 4; 6; 4; 0; 0; 4; 6; 4; 0; 0; 0]%R ++ repeat 0%R 16).

End Peak.

(** ** The running best of the peak search *)

(** The running best was taken from the candidate at a bin between [lo] and
    [hi] at which the curve does not rise, and that candidate is less than
    1000000 away from the query position. *)
Definition from_candidate {F : Type} {FA : FloatArith F}
    (s : SpectrumAnalyst F) (xPos : F) (lo hi : Z) (b : best F) : Prop :=
  exists bin,
    (lo <= bin <= hi)%Z /\
    flt (getz (mProcessed s) (bin - 1)) (getz (mProcessed s) bin) = false /\
    (bestpeak b, bestValue b) = candidate s bin /\
    bestdist b = ffabs (subf (fst (candidate s bin)) xPos) /\
    flt (bestdist b) (i2f 1000000) = true.

(** ** The progress gauge (FreqGauge)

    All fields are [int]; the division of [int]s truncates toward zero
    ([Z.quot]) and is undefined on a zero divisor, which the model reports
    as [None].  The rectangle [mRect] is kept as its [x] and its [width]. *)
Module Gauge.

Record FreqGauge : Type := mkGauge {
  mRange : Z;
  mBar : Z;
  mGap : Z;
  mRect_x : Z;
  mRect_width : Z;
  mInterval : Z;
  mMargin : Z;
  mLast : Z;
  mCur : Z
}.

(** [a / b] on [int]. *)
Definition int_div (a b : Z) : option Z :=
  if (b =? 0)%Z then None else Some (Z.quot a b).

(** [SetRange(range, bar, gap)].  The rectangle of the status field after
    [GetFieldRect] and [Inflate(-1)] comes from the window system: its [x]
    and [width] are the parameters [field_x] and [field_width]. *)
Definition SetRange (field_x field_width : Z) (range bar gap : Z)
    (g : FreqGauge) : option FreqGauge :=
  match int_div field_width (bar + gap) with
  | None => None
  | Some bars =>
      match int_div range bars with
      | None => None
      | Some interval =>
          Some (mkGauge range bar gap field_x bar interval field_x (-1) (mCur g))
      end
  end.

(** [n] iterations of [while (mLast < mCur)]: the gauge, and the [x] of the
    rectangles drawn, the earliest first. *)
Fixpoint draw_bars (n : nat) (g : FreqGauge) (drawn : list Z)
    : FreqGauge * list Z :=
  match n with
  | O => (g, drawn)
  | S n' =>
      if (mLast g <? mCur g)%Z then
        let last := (mLast g + 1)%Z in
        let x := (mMargin g + last * (mBar g + mGap g))%Z in
        draw_bars n'
          (mkGauge (mRange g) (mBar g) (mGap g) x (mRect_width g)
             (mInterval g) (mMargin g) last (mCur g))
          (drawn ++ [x])
      else (g, drawn)
  end.

(** [SetValue(value)]: the gauge afterwards and the rectangles drawn.  The
    loop is left after [mCur - mLast] iterations. *)
Definition SetValue (value : Z) (g : FreqGauge) : option (FreqGauge * list Z) :=
  match int_div value (mInterval g) with
  | None => None
  | Some cur =>
      let g1 := mkGauge (mRange g) (mBar g) (mGap g) (mRect_x g) (mRect_width g)
                  (mInterval g) (mMargin g) (mLast g) cur in
      if (cur =? mLast g)%Z then Some (g1, [])
      else Some (draw_bars (Z.to_nat (cur - mLast g)) g1 [])
  end.

Definition Reset (g : FreqGauge) : FreqGauge :=
  mkGauge 0 (mBar g) (mGap g) (mRect_x g) (mRect_width g)
    (mInterval g) (mMargin g) (mLast g) (mCur g).

(** A series of calls of [SetValue], as the window loop of [Calculate]
    makes them; the rectangles drawn by all of them. *)
Fixpoint SetValues (values : list Z) (g : FreqGauge)
    : option (FreqGauge * list Z) :=
  match values with
  | [] => Some (g, [])
  | v :: vs =>
      match SetValue v g with
      | None => None
      | Some (g1, drawn) =>
          match SetValues vs g1 with
          | None => None
          | Some (g2, drawn') => Some (g2, drawn ++ drawn')
          end
      end
  end.

(** The position of bar [k]. *)
Definition bar_x (g : FreqGauge) (k : Z) : Z :=
  (mMargin g + k * (mBar g + mGap g))%Z.

(** The bars [first], ..., [first + n - 1]. *)
Definition bars_from (g : FreqGauge) (first : Z) (n : nat) : list Z :=
  map (fun k => bar_x g (first + Z.of_nat k)) (seq 0 n).

(** The fields that [SetValue] leaves alone. *)
Definition same_layout (g g' : FreqGauge) : Prop :=
  mRange g' = mRange g /\ mBar g' = mBar g /\ mGap g' = mGap g /\
  mInterval g' = mInterval g /\ mMargin g' = mMargin g.

(** The greatest of [m] and the bar indices of [values]. *)
Definition furthest (interval : Z) (values : list Z) (m : Z) : Z :=
  fold_left (fun acc v => Z.max acc (Z.quot v interval)) values m.

End Gauge.

(** ** The dialog around the engine (FrequencyPlotDialog)

    Of the dialog, the parts that compute: the audio that [GetAudio] hands
    to the engine, what [Recalc] does with the engine's result, and the
    coordinates of [DrawPlot] and [PlotPaint].  Tracks, the selection and
    the window system are outside of the sources at hand and are parameters;
    drawing is left out. *)

Module Dialog.

(** How a call that drives the progress gauge ends: it returns, or the
    gauge divides by zero, or, in the model only, the fuel runs out. *)
Inductive outcome (A : Type) : Type :=
| Returns (a : A)
| DividesByZero
| OutOfFuel.

Arguments DividesByZero {A}.
Arguments OutOfFuel {A}.

Section Audio.

Context {F : Type} {FA : FloatArith F}.

(** What [GetAudio] asks of a selected [WaveTrack]: its rate, the ends of
    the selection in samples ([TimeToLongSamples] of [t0] and of [t1]), and
    [Get], which reads [len] samples from [start] on and fills what is
    missing with zeros. *)
Record WaveTrack : Type := mkTrack {
  GetRate : F;
  selection_start : Z;
  selection_end : Z;
  Get : Z -> nat -> list F
}.

(** [mData], [mDataLen] and [mRate]. *)
Record audio : Type := mkAudio {
  mData : option (list F);
  mDataLen : N;
  rate : F
}.

(** [x != y], for numbers other than NaN. *)
Definition fne (x y : F) : bool := (flt x y || flt y x)%bool.

(** [sampleCount::as_size_t] is the conversion to [size_t]; on a negative
    count it would wrap around. *)
Definition as_size_t (count : Z) : N := Z.to_N (count mod 2 ^ 64).

(** [for (i = 0; i < mDataLen; i++) mData[i] += buffer2[i]]. *)
Definition mix (len : nat) (buffer2 data : list F) : list F :=
  for_loop len (fun i d => upd i (addf (get d i) (get buffer2 i)) d) data.

(** The loop over the selected tracks: the audio, [selcount], [warning],
    and whether the function has returned from inside the loop. *)
Fixpoint GetAudio_loop (tracks : list WaveTrack) (selcount : nat)
    (warning : bool) (a : audio) : audio * nat * bool * bool :=
  match tracks with
  | [] => (a, selcount, warning, false)
  | track :: rest =>
      if (selcount =? 0)%nat then
        let start := selection_start track in
        let dataLen := (selection_end track - start)%Z in
        let '(warning', len) :=
          if (dataLen >? 10485760)%Z then (true, 10485760%N)
          else (warning, as_size_t dataLen) in
        let data := buffer (N.to_nat len) (Get track start (N.to_nat len)) in
        GetAudio_loop rest (S selcount) warning'
          (mkAudio (Some data) len (GetRate track))
      else if fne (GetRate track) (rate a) then
        (mkAudio None 0%N (rate a), selcount, warning, true)
      else
        let start := selection_start track in
        let len := N.to_nat (mDataLen a) in
        let buffer2 := buffer len (Get track start len) in
        let data := match mData a with
                    | Some d => Some (mix len buffer2 d)
                    | None => None
                    end in
        GetAudio_loop rest (S selcount) warning
          (mkAudio data (mDataLen a) (rate a))
  end.

(** [GetAudio]: the audio it leaves, and whether it tells the user that too
    much audio was selected.  [mRate] keeps its old value [rate0] when no
    track is selected. *)
Definition GetAudio (tracks : list WaveTrack) (rate0 : F) : audio * bool :=
  let '(a, selcount, warning, returned) :=
    GetAudio_loop tracks 0 false (mkAudio None 0%N rate0) in
  (a, (negb returned && negb (selcount =? 0)%nat && warning)%bool).

(** Sample [i] of the tracks [rest] added, one after the other, to [x]. *)
Definition mixed (rest : list WaveTrack) (len : nat) (i : nat) (x : F) : F :=
  fold_left
    (fun acc track =>
       addf acc (get (Get track (selection_start track) len) i))
    rest x.

End Audio.

Section Recalculation.

Context {F : Type} {FA : FloatArith F}.

Variable NumWindowFuncs : Z.
Variable WindowFunc : Z -> nat -> list F -> list F.
Variable PowerSpectrum : nat -> list F -> list F.
Variable RealFFT : nat -> list F -> list F * list F.
Variable InverseRealFFT : nat -> list F -> list F.

(** The tail of [Recalc]: the range of a [Spectrum] plot is cut at
    [-dBRange] and gets half a decibel of head room. *)
Definition adjust_range (alg : Z) (dBRange yMin yMax : F) : F * F :=
  if (alg =? Alg.Spectrum)%Z then
    let yMin' := if flt yMin (fneg dBRange) then narrow (fneg dBRange)
                 else yMin in
    let yMax' := if fle yMax (fneg dBRange)
                 then narrow (fadd (fneg dBRange) (f_dec 10 0))
                 else narrow (fadd yMax (f_dec 5 (-1))) in
    (yMin', yMax')
  else (yMin, yMax).

(** The conversion of a [size_t] to the [int] parameter of the gauge. *)
Definition to_int (n : N) : Z :=
  let m := (Z.of_N n mod 2 ^ 32)%Z in
  if (m <? 2 ^ 31)%Z then m else (m - 2 ^ 32)%Z.

(** The window loop of [Calculate] with a gauge: as [window_loop], and
    [progress->SetValue(start)] at the end of every iteration.  [drawn]
    collects the rectangles drawn. *)
Fixpoint window_loop_progress (fuel : nat) (alg : Z) (mWindowSize : N)
    (win data : list F) (dataLen : N)
    (start : N) (windows : Z) (p out : list F)
    (progress : Gauge.FreqGauge) (drawn : list Z)
  : outcome (Z * list F * list F * Gauge.FreqGauge * list Z) :=
  match fuel with
  | O => OutOfFuel
  | S fuel' =>
      if (wrap64 (start + mWindowSize) <=? dataLen)%N then
        let ws := N.to_nat mWindowSize in
        let inp := frame ws win data start in
        let '(p', out') :=
          window_body PowerSpectrum RealFFT InverseRealFFT alg ws inp p out in
        match Gauge.SetValue (to_int start) progress with
        | None => DividesByZero
        | Some (progress', bars) =>
            window_loop_progress fuel' alg mWindowSize win data dataLen
              (wrap64 (start + mWindowSize / 2)) (windows + 1) p' out'
              progress' (drawn ++ bars)
        end
      else Returns (windows, p, out, progress, drawn)
  end.

(** [Calculate] with a gauge, as [Recalc] calls it: [SetRange(dataLen)]
    before the window loop, [SetValue(start)] in it, [Reset()] after it.
    The two early [return false] come before the gauge is touched.  [bar]
    and [gap] are the values that the declaration of [SetRange] gives by
    default; [field_x] and [field_width] describe the status field. *)
Definition Calculate_progress (fuel : nat) (s : SpectrumAnalyst F)
    (alg windowFunc : Z) (windowSize : N) (rate : F)
    (data : list F) (dataLen : N)
    (field_x field_width bar gap : Z) (progress : Gauge.FreqGauge)
  : outcome (SpectrumAnalyst F * verdict F * Gauge.FreqGauge * list Z) :=
  let wiped := mkAnalyst (mAlg s) (i2d 0) 0%N [] in
  if negb (valid_params NumWindowFuncs alg windowFunc windowSize)
  then Returns (wiped, None, progress, [])
  else if (dataLen <? windowSize)%N then Returns (wiped, None, progress, [])
  else
    let ws := N.to_nat windowSize in
    let half := (ws / 2)%nat in
    let p0 := tabulate ws (fun _ => narrow (i2d 0)) in
    let win := window_coeffs WindowFunc windowFunc ws in
    let wss := normalization ws win in
    match Gauge.SetRange field_x field_width (to_int dataLen) bar gap
            progress with
    | None => DividesByZero
    | Some progress1 =>
        match window_loop_progress fuel alg windowSize win data dataLen
                0%N 0%Z p0 (tabulate ws (fun _ => fzero)) progress1 [] with
        | OutOfFuel => OutOfFuel
        | DividesByZero => DividesByZero
        | Returns (windows, p, out, progress2, drawn) =>
            let '(p', (ymin, ymax)) :=
              post_process alg half wss windows p out in
            Returns (mkAnalyst alg rate windowSize p', Some (ymin, ymax),
                     Gauge.Reset progress2, drawn)
        end
    end.

(** [Recalc]: what it leaves in [mAnalyst], [mYMin], [mYMax] and in the
    gauge [mProgress], and the rectangles drawn on the gauge.  Without data,
    or with less data than a window, it only redraws.  The result of
    [Calculate] is not looked at: after [return false] the old [mYMin] and
    [mYMax] go on. *)
Definition Recalc (fuel : nat) (analyst : SpectrumAnalyst F)
    (alg windowFunc : Z) (windowSize : N) (a : audio)
    (dBRange yMin yMax : F)
    (field_x field_width bar gap : Z) (mProgress : Gauge.FreqGauge)
  : outcome (SpectrumAnalyst F * (F * F) * Gauge.FreqGauge * list Z) :=
  match mData a with
  | None => Returns (analyst, (yMin, yMax), mProgress, [])
  | Some data =>
      if (mDataLen a <? windowSize)%N
      then Returns (analyst, (yMin, yMax), mProgress, [])
      else
        match Calculate_progress fuel analyst alg windowFunc windowSize
                (rate a) data (mDataLen a) field_x field_width bar gap
                mProgress with
        | OutOfFuel => OutOfFuel
        | DividesByZero => DividesByZero
        | Returns (analyst', Some (lo, hi), progress', drawn) =>
            Returns (analyst', adjust_range alg dBRange lo hi, progress', drawn)
        | Returns (analyst', None, progress', drawn) =>
            Returns (analyst', adjust_range alg dBRange yMin yMax, progress',
                     drawn)
        end
  end.

End Recalculation.

Section Plot.

Context {F : Type} {FA : FloatArith F}.

(** [xMin], [xMax] and [xStep], computed the same way at the head of
    [DrawPlot] and of [PlotPaint]; [size] is [GetProcessedSize()] and
    [width] is [r.width - 2].  [log] and [pow] on [float] arguments are
    read at type [float]. *)
Definition x_axis (alg : Z) (logAxis : bool) (mRate : F) (mWindowSize : N)
    (size width : Z) : F * F * F :=
  if (alg =? Alg.Spectrum)%Z then
    let xMin := narrow (fdiv mRate (i2d (Z.of_N mWindowSize))) in
    let xMax := narrow (fdiv mRate (i2d 2)) in
    let xRatio := divf xMax xMin in
    let xStep :=
      if logAxis
      then narrow (fpow (i2f 2)
                     (divf (divf (narrow (flog xRatio)) (narrow (flog (i2f 2))))
                        (i2f width)))
      else divf (subf xMax xMin) (i2f width) in
    (xMin, xMax, xStep)
  else
    let xMin := i2f 0 in
    let xMax := narrow (fdiv (i2d size) mRate) in
    (xMin, xMax, divf (subf xMax xMin) (i2f width)).

(** The far end of the column that starts at [xPos]; it is the start of the
    next column. *)
Definition column_end (logAxis : bool) (xStep xPos : F) : F :=
  if logAxis then mulf xPos xStep else addf xPos xStep.

(** [xPos] when the loop of [DrawPlot] comes to column [i]. *)
Definition column_start (logAxis : bool) (xMin xStep : F) (i : nat) : F :=
  for_loop i (fun _ xPos => column_end logAxis xStep xPos) xMin.

(** The height of the line of a column of value [y], if one is drawn;
    [height] is [r.height]. *)
Definition line_height (y yMin yTotal : F) (height : Z) : option Z :=
  let ynorm := divf (subf y yMin) yTotal in
  let lineheight := ftrunc (mulf ynorm (i2f (height - 1))) in
  let lineheight := if (lineheight >? height - 2)%Z then (height - 2)%Z
                    else lineheight in
  if flt (i2d 0) ynorm then Some lineheight else None.

(** The loop of [DrawPlot]: for each of the [width] columns the height of
    its line, if one is drawn. *)
Fixpoint DrawPlot_columns (fuel : nat) (s : SpectrumAnalyst F)
    (logAxis : bool) (xStep yMin yTotal : F) (height : Z)
    (width : nat) (xPos : F) : option (list (option Z)) :=
  match width with
  | O => Some []
  | S width' =>
      match GetProcessedValue fuel s xPos (column_end logAxis xStep xPos) with
      | None => None
      | Some y =>
          match DrawPlot_columns fuel s logAxis xStep yMin yTotal height
                  width' (column_end logAxis xStep xPos) with
          | None => None
          | Some rest => Some (line_height y yMin yTotal height :: rest)
          end
      end
  end.

(** [xPos] of [PlotPaint] for the cursor in column [column], which is
    [mMouseX - (r.x + 1)]. *)
Definition cursor_position (logAxis : bool) (xMin xStep : F) (column : Z) : F :=
  if logAxis then narrow (fmul xMin (fpow xStep (i2d column)))
  else addf xMin (mulf xStep (i2f column)).

(** What [PlotPaint] casts to [px]: the peak in units of columns. *)
Definition peak_abscissa (logAxis : bool) (xMin xMax xStep : F) (width : Z)
    (bestpeak : F) : F :=
  if logAxis
  then divf (narrow (flog (divf bestpeak xMin))) (narrow (flog xStep))
  else divf (mulf (subf bestpeak xMin) (i2f width)) (subf xMax xMin).

(** [px] of [PlotPaint]: the column in which the peak is marked. *)
Definition peak_column (logAxis : bool) (xMin xMax xStep : F) (width : Z)
    (bestpeak : F) : Z :=
  ftrunc (peak_abscissa logAxis xMin xMax xStep width bestpeak).

End Plot.

Section ExportTable.

Context {F : Type} {FA : FloatArith F}.

(** The lines that [OnExport] writes after the heading, each as the list of
    the numbers it formats: for the first algorithm choice the frequency
    and the level of bin [i], for the others the lag, the frequency and the
    level, for [i] from 1 to [processedSize - 1]. *)
Definition export_rows (choice : Z) (mRate : F) (mWindowSize : N)
    (analyst : SpectrumAnalyst F) : list (list F) :=
  let processedSize := GetProcessedSize analyst in
  let processed := mProcessed analyst in
  map (fun k =>
         let i := (1 + Z.of_nat k)%Z in
         if (choice =? 0)%Z
         then [fdiv (fmul (i2d i) mRate) (i2d (Z.of_N mWindowSize));
               getz processed i]
         else [fdiv (i2d i) mRate; fdiv mRate (i2d i); getz processed i])
      (seq 0 (Z.to_nat (processedSize - 1))).

End ExportTable.

End Dialog.

(** ** A small session *)

Module Session.

(** A gauge as the constructor leaves it; the fields that the constructor
    does not set are taken as zero. *)
Definition fresh_gauge : Gauge.FreqGauge :=
  Gauge.mkGauge 0 0 0 0 0 0 0 0 0.

(** The gauge after [SetRange(100, 10, 2)] in a field 122 pixels wide that
    starts at 1: ten bars, one for every ten units. *)
Definition gauge : Gauge.FreqGauge :=
  Gauge.mkGauge 100 10 2 1 10 10 1 (-1) 0.

(** A track at 44100 Hz with a selection of 32 samples, all of value one. *)
Definition track : Dialog.WaveTrack (F := R) :=
  Dialog.mkTrack 44100%R 0 32 (fun _ len => repeat 1%R len).

End Session.
(** ** Facts about loops and buffers *)

Section BufferFacts.

Context {F : Type} {FA : FloatArith F}.

Lemma for_loop_S (S : Type) (n : nat) (body : nat -> S -> S) (s : S) :
  for_loop (Datatypes.S n) body s = body n (for_loop n body s).
Proof. reflexivity. Qed.

Lemma length_upd (A : Type) (i : nat) (x : A) (l : list A) :
  length (upd i x l) = length l.
Proof.
  revert i; induction l as [|h t IH]; intros [|i]; simpl; auto.
Qed.

Lemma get_upd (i j : nat) (x : F) (l : list F) :
  get (upd i x l) j = if ((j =? i) && (i <? length l))%nat then x else get l j.
Proof.
  unfold get. revert i j; induction l as [|h t IH]; intros i j.
  - destruct i, j; simpl; try rewrite Bool.andb_false_r; reflexivity.
  - destruct i as [|i], j as [|j]; simpl; try reflexivity.
    rewrite IH. reflexivity.
Qed.

Lemma upd_get_same (i : nat) (l : list F) : upd i (get l i) l = l.
Proof.
  unfold get. revert i; induction l as [|h t IH]; intros [|i]; simpl;
    try reflexivity.
  now rewrite IH.
Qed.

Lemma length_tabulate (A : Type) (n : nat) (f : nat -> A) :
  length (tabulate n f) = n.
Proof. unfold tabulate. now rewrite length_map, length_seq. Qed.

Lemma get_tabulate (n : nat) (f : nat -> F) (i : nat) :
  (i < n)%nat -> get (tabulate n f) i = f i.
Proof.
  intros Hi. unfold get, tabulate.
  rewrite (nth_indep _ fzero (f 0%nat)) by (now rewrite length_map, length_seq).
  rewrite (map_nth f (seq 0 n) 0%nat i).
  now rewrite seq_nth.
Qed.

Lemma length_buffer (n : nat) (w : list F) : length (buffer n w) = n.
Proof. apply length_tabulate. Qed.

Lemma get_buffer (n : nat) (w : list F) (i : nat) :
  (i < n)%nat -> get (buffer n w) i = get w i.
Proof. intros Hi. unfold buffer. now rewrite get_tabulate. Qed.

Lemma get_frame (ws : nat) (win data : list F) (start : N) (i : nat) :
  (i < ws)%nat -> (start + N.of_nat i < 2 ^ 64)%N ->
  get (frame ws win data start) i =
  mulf (get win i) (get data (N.to_nat start + i)).
Proof.
  intros Hi Hs. unfold frame. rewrite get_tabulate by exact Hi.
  unfold wrap64. rewrite N.mod_small by exact Hs.
  rewrite N2Nat.inj_add, Nat2N.id. reflexivity.
Qed.

(** A loop whose iteration [i] rewrites element [i] from its old value. *)
Lemma for_loop_pointwise (g : nat -> F -> F) (body : nat -> list F -> list F)
    (n : nat) (p : list F) :
  (forall i q, body i q = upd i (g i (get q i)) q) ->
  length (for_loop n body p) = length p /\
  forall i, get (for_loop n body p) i =
            if ((i <? n) && (i <? length p))%nat then g i (get p i) else get p i.
Proof.
  intros Hbody. induction n as [|n [IHlen IHget]].
  - simpl. split; [reflexivity|]. intros i. reflexivity.
  - rewrite for_loop_S, Hbody. split.
    + now rewrite length_upd.
    + intros i. rewrite get_upd, IHlen, !IHget.
      destruct (Nat.eqb_spec i n) as [->|Hne].
      * rewrite Nat.ltb_irrefl. simpl.
        replace (n <? S n)%nat with true by (symmetry; apply Nat.ltb_lt; lia).
        simpl. destruct (n <? length p)%nat; reflexivity.
      * simpl.
        replace (i <? S n)%nat with (i <? n)%nat; [reflexivity|].
        destruct (Nat.ltb_spec i n), (Nat.ltb_spec i (S n)); try reflexivity; lia.
Qed.

End BufferFacts.

(** ** The window loop *)

Section LoopFacts.

Context {F : Type} {FA : FloatArith F}.
Variable NumWindowFuncs : Z.
Variable WindowFunc : Z -> nat -> list F -> list F.
Variable PowerSpectrum : nat -> list F -> list F.
Variable RealFFT : nat -> list F -> list F * list F.
Variable InverseRealFFT : nat -> list F -> list F.

Local Abbreviation window_loop' := (window_loop PowerSpectrum RealFFT InverseRealFFT).
Local Abbreviation run_windows' := (run_windows PowerSpectrum RealFFT InverseRealFFT).
Local Abbreviation window_body' := (window_body PowerSpectrum RealFFT InverseRealFFT).
Local Abbreviation contribution' := (contribution PowerSpectrum RealFFT InverseRealFFT).
Local Abbreviation accumulated' := (accumulated PowerSpectrum RealFFT InverseRealFFT).

Lemma wrap64_small (n : N) : (n < 2 ^ 64)%N -> wrap64 n = n.
Proof. intros H. unfold wrap64. now apply N.mod_small. Qed.

Lemma half_to_nat (W : N) : N.of_nat (N.to_nat W / 2) = (W / 2)%N.
Proof.
  rewrite <- (N2Nat.id (W / 2)). f_equal.
  rewrite N2Nat.inj_div. reflexivity.
Qed.

(** Window [k] fits exactly when [k] is below the count. *)
Lemma fits_below_count (W D k : N) :
  (2 <= W)%N -> (W <= D)%N ->
  ((k * (W / 2) + W <= D)%N <-> (k <= (D - W) / (W / 2))%N).
Proof.
  intros HW HD.
  assert (Hh : (W / 2 <> 0)%N).
  { intros E. apply N.div_small_iff in E; lia. }
  pose proof (N.div_mod (D - W) (W / 2) Hh) as Hdm.
  pose proof (N.mod_lt (D - W) (W / 2) Hh) as Hlt.
  generalize dependent ((D - W) mod (W / 2))%N. intros m.
  generalize dependent ((D - W) / (W / 2))%N. intros q.
  generalize dependent (W / 2)%N. intros h Hh Hdm Hlt.
  split; intros H.
  - destruct (N.le_gt_cases k q) as [Hle|Hgt]; [exact Hle|exfalso].
    assert ((q + 1) * h <= k * h)%N by (apply N.mul_le_mono_r; lia).
    nia.
  - assert (k * h <= q * h)%N by (apply N.mul_le_mono_r; lia).
    nia.
Qed.

Lemma window_loop_run (alg : Z) (W : N) (win data : list F) (D : N) :
  (2 <= W)%N -> (W <= D)%N -> (D + W < 2 ^ 64)%N ->
  forall (r k : nat) (windows : Z) (p out : list F) (fuel : nat),
    (r < fuel)%nat ->
    (N.of_nat k + N.of_nat r = (D - W) / (W / 2) + 1)%N ->
    window_loop' fuel alg W win data D (N.of_nat k * (W / 2)) windows p out =
    let '(p', out') := run_windows' r alg (N.to_nat W) win data k p out in
    Some ((windows + Z.of_nat r)%Z, p', out').
Proof.
  intros HW HD Hfit.
  assert (Hh : (W / 2 <= W)%N) by (apply N.Div0.div_le_upper_bound; lia).
  induction r as [|r IH]; intros k windows p out fuel Hfuel Hk;
    (destruct fuel as [|fuel]; [lia|]); simpl window_loop.
  - assert (Hno : ~ (N.of_nat k * (W / 2) + W <= D)%N).
    { rewrite fits_below_count by assumption. lia. }
    assert (Hk' : (N.of_nat k = (D - W) / (W / 2) + 1)%N) by lia.
    assert (Hq : ((D - W) / (W / 2) * (W / 2) <= D - W)%N).
    { rewrite N.mul_comm. apply N.Div0.mul_div_le. }
    rewrite wrap64_small by (rewrite Hk'; lia).
    destruct (N.leb_spec (N.of_nat k * (W / 2) + W) D) as [Hc|Hc]; [contradiction|].
    simpl. now rewrite Z.add_0_r.
  - assert (Hyes : (N.of_nat k * (W / 2) + W <= D)%N).
    { rewrite fits_below_count by assumption. lia. }
    rewrite wrap64_small by lia.
    destruct (N.leb_spec (N.of_nat k * (W / 2) + W) D) as [Hc|Hc]; [|lia].
    simpl run_windows. unfold nth_frame. rewrite half_to_nat.
    destruct (window_body' alg (N.to_nat W) _ p out) as [p' out'].
    rewrite wrap64_small by lia.
    replace (N.of_nat k * (W / 2) + W / 2)%N with (N.of_nat (S k) * (W / 2))%N by lia.
    rewrite (IH (S k)) by lia.
    destruct (run_windows' r alg (N.to_nat W) win data (S k) p' out').
    do 3 f_equal. lia.
Qed.

Lemma for_loop_ext (S : Type) (n : nat) (b1 b2 : nat -> S -> S) (s : S) :
  (forall j x, (j < n)%nat -> b1 j x = b2 j x) ->
  for_loop n b1 s = for_loop n b2 s.
Proof.
  induction n as [|n IH]; intros H; simpl; [reflexivity|].
  rewrite IH by (intros; apply H; lia). apply H. lia.
Qed.

Lemma for_loop_shift (S : Type) (n : nat) (body : nat -> S -> S) (s : S) :
  for_loop (Datatypes.S n) body s =
  for_loop n (fun j => body (Datatypes.S j)) (body 0%nat s).
Proof.
  induction n as [|n IH]; [reflexivity|].
  rewrite for_loop_S, IH. reflexivity.
Qed.

Lemma window_body_valid (alg : Z) (ws : nat) (win data : list F) (k : nat)
    (p out : list F) :
  (0 <= alg < 5)%Z ->
  window_body' alg ws (nth_frame ws win data k) p out =
  (accumulate (ws / 2) (contribution' alg ws win data k) p,
   contribution' alg ws win data k).
Proof.
  intros H.
  assert (E : alg = 0%Z \/ alg = 1%Z \/ alg = 2%Z \/ alg = 3%Z \/ alg = 4%Z) by lia.
  destruct E as [->|[->|[->|[->| ->]]]]; reflexivity.
Qed.

Lemma get_accumulate (half : nat) (out p : list F) (i : nat) :
  get (accumulate half out p) i =
  if ((i <? half) && (i <? length p))%nat
  then addf (get p i) (get out i) else get p i.
Proof.
  unfold accumulate.
  apply (for_loop_pointwise (fun i x => addf x (get out i))). reflexivity.
Qed.

Lemma length_accumulate (half : nat) (out p : list F) :
  length (accumulate half out p) = length p.
Proof.
  unfold accumulate.
  apply (for_loop_pointwise (fun i x => addf x (get out i))). reflexivity.
Qed.

Lemma length_window_body (alg : Z) (ws : nat) (inp p out : list F) :
  length (fst (window_body' alg ws inp p out)) = length p.
Proof.
  unfold window_body.
  repeat match goal with |- context [if ?c then _ else _] => destruct c end;
    simpl; try reflexivity; apply length_accumulate.
Qed.

Lemma length_run_windows (r : nat) (alg : Z) (ws : nat) (win data : list F)
    (k : nat) (p out : list F) :
  length (fst (run_windows' r alg ws win data k p out)) = length p.
Proof.
  revert k p out. induction r as [|r IH]; intros k p out; simpl; [reflexivity|].
  pose proof (length_window_body alg ws (nth_frame ws win data k) p out) as Hl.
  destruct (window_body' alg ws (nth_frame ws win data k) p out) as [p' out'].
  rewrite IH. exact Hl.
Qed.

(** Bin [i] after [r] more windows: the contributions of windows
    [k], ..., [k + r - 1] added to the old content. *)
Lemma get_run_windows (alg : Z) (ws : nat) (win data : list F) (i : nat) :
  (0 <= alg < 5)%Z -> (i < ws / 2)%nat ->
  forall (r k : nat) (p out : list F),
    (i < length p)%nat ->
    get (fst (run_windows' r alg ws win data k p out)) i =
    for_loop r (fun j a => addf a (get (contribution' alg ws win data (k + j)) i))
      (get p i).
Proof.
  intros Halg Hi. induction r as [|r IH]; intros k p out Hp; [reflexivity|].
  rewrite for_loop_shift. simpl run_windows.
  rewrite window_body_valid by assumption.
  rewrite IH by (rewrite length_accumulate; exact Hp).
  rewrite get_accumulate.
  replace (i <? ws / 2)%nat with true by (symmetry; apply Nat.ltb_lt; lia).
  replace (i <? length p)%nat with true by (symmetry; apply Nat.ltb_lt; lia).
  simpl andb. cbv iota. rewrite Nat.add_0_r.
  apply for_loop_ext. intros j x _. now rewrite Nat.add_succ_r.
Qed.

(** The scratch buffer [out] keeps [ws] elements. *)
Lemma length_out_window_body (alg : Z) (ws : nat) (inp p out : list F) :
  length out = ws ->
  length (snd (window_body' alg ws inp p out)) = ws.
Proof.
  intros Hout. unfold window_body, autocorr_out, cepstrum_out.
  destruct (RealFFT ws inp) as [o o2].
  repeat match goal with |- context [if ?c then _ else _] => destruct c end;
    simpl; auto using length_buffer.
Qed.

Lemma length_out_run_windows (r : nat) (alg : Z) (ws : nat) (win data : list F)
    (k : nat) (p out : list F) :
  length out = ws ->
  length (snd (run_windows' r alg ws win data k p out)) = ws.
Proof.
  revert k p out. induction r as [|r IH]; intros k p out Hout; simpl; [exact Hout|].
  pose proof (@length_out_window_body alg ws (nth_frame ws win data k) p out Hout) as Hl.
  destruct (window_body' alg ws (nth_frame ws win data k) p out) as [p' out'].
  apply IH. exact Hl.
Qed.

(** Past the first half the window loop leaves the curve as it was. *)
Lemma get_run_windows_upper (alg : Z) (ws : nat) (win data : list F) (i : nat) :
  (ws / 2 <= i)%nat ->
  forall (r k : nat) (p out : list F),
    get (fst (run_windows' r alg ws win data k p out)) i = get p i.
Proof.
  intros Hi. induction r as [|r IH]; intros k p out; [reflexivity|].
  simpl run_windows.
  assert (Hb : get (fst (window_body' alg ws (nth_frame ws win data k) p out)) i
               = get p i).
  { assert (Hf : (i <? ws / 2)%nat = false) by (apply Nat.ltb_ge; lia).
    unfold window_body. cbv zeta.
    repeat match goal with |- context [if ?c then _ else _] => destruct c end;
      cbn [fst]; try reflexivity; rewrite get_accumulate, Hf; reflexivity. }
  destruct (window_body' alg ws (nth_frame ws win data k) p out) as [p' out'].
  rewrite IH. exact Hb.
Qed.

End LoopFacts.

(** ** Post-processing, bin by bin *)

Section PostFacts.

Context {F : Type} {FA : FloatArith F}.

Lemma for_loop_pair_fst (A B : Type) (n : nat)
    (body : nat -> A * B -> A * B) (bp : nat -> A -> A) (s : A * B) :
  (forall i a b, fst (body i (a, b)) = bp i a) ->
  fst (for_loop n body s) = for_loop n bp (fst s).
Proof.
  intros H. induction n as [|n IH]; [reflexivity|].
  simpl. destruct (for_loop n body s) as [a b]. rewrite H.
  simpl in IH. now rewrite IH.
Qed.

Lemma get_divide_by_windows (half : nat) (windows : Z) (p : list F) (i : nat) :
  get (divide_by_windows half windows p) i =
  if ((i <? half) && (i <? length p))%nat
  then divf (get p i) (i2f windows) else get p i.
Proof.
  unfold divide_by_windows.
  apply (for_loop_pointwise (fun _ x => divf x (i2f windows))). reflexivity.
Qed.

Lemma length_divide_by_windows (half : nat) (windows : Z) (p : list F) :
  length (divide_by_windows half windows p) = length p.
Proof.
  unfold divide_by_windows.
  apply (for_loop_pointwise (fun _ x => divf x (i2f windows))). reflexivity.
Qed.

(** The clip loop rewrites each element from its old value. *)
Lemma clip_body (i : nat) (q : list F) :
  (if flt (get q i) (i2d 0) then upd i (narrow (i2d 0)) q else q) =
  upd i (if flt (get q i) (i2d 0) then narrow (i2d 0) else get q i) q.
Proof. destruct (flt (get q i) (i2d 0)); [reflexivity|]. now rewrite upd_get_same. Qed.

Lemma get_clip (half : nat) (p : list F) (i : nat) :
  get (clip half p) i =
  if ((i <? half) && (i <? length p))%nat
  then (if flt (get p i) (i2d 0) then narrow (i2d 0) else get p i)
  else get p i.
Proof.
  unfold clip.
  apply (for_loop_pointwise
           (fun _ x => if flt x (i2d 0) then narrow (i2d 0) else x)).
  intros. apply clip_body.
Qed.

Lemma length_clip (half : nat) (p : list F) : length (clip half p) = length p.
Proof.
  unfold clip.
  apply (for_loop_pointwise
           (fun _ x => if flt x (i2d 0) then narrow (i2d 0) else x)).
  intros. apply clip_body.
Qed.

Lemma fst_clip_copy (half : nat) (p out : list F) :
  fst (clip_copy half p out) = clip half p.
Proof.
  unfold clip_copy, clip.
  apply (@for_loop_pair_fst _ _ half _
           (fun i p => if flt (get p i) (i2d 0) then upd i (narrow (i2d 0)) p else p)).
  reflexivity.
Qed.

Lemma snd_clip_copy (half : nat) (p out : list F) :
  (half <= length p)%nat -> (half <= length out)%nat ->
  length (snd (clip_copy half p out)) = length out /\
  forall i, (i < half)%nat ->
            get (snd (clip_copy half p out)) i = get (clip half p) i.
Proof.
  induction half as [|n IH]; intros Hp Hout.
  - split; [reflexivity|]. intros i Hi. lia.
  - destruct (IH ltac:(lia) ltac:(lia)) as [IHlen IHget]. clear IH.
    pose proof (fst_clip_copy n p out) as Hfst.
    unfold clip_copy in *. rewrite for_loop_S.
    destruct (for_loop n _ (p, out)) as [q o] eqn:E. simpl in Hfst, IHlen, IHget.
    subst q. simpl snd. split.
    + rewrite length_upd. exact IHlen.
    + intros i Hi. rewrite get_upd, IHlen.
      change (for_loop (S n) ?b p) with (clip (S n) p).
      change (for_loop n ?b p) with (clip n p) in *.
      rewrite clip_body.
      destruct (Nat.eqb_spec i n) as [->|Hne].
      * replace (n <? length out)%nat with true by (symmetry; apply Nat.ltb_lt; lia).
        simpl andb. cbv iota. rewrite get_upd, length_clip, !get_clip.
        rewrite Nat.eqb_refl, Nat.ltb_irrefl.
        replace (n <? length p)%nat with true by (symmetry; apply Nat.ltb_lt; lia).
        replace (n <? S n)%nat with true by (symmetry; apply Nat.ltb_lt; lia).
        reflexivity.
      * simpl andb. cbv iota. rewrite IHget by lia.
        rewrite !get_clip.
        replace (i <? S n)%nat with true by (symmetry; apply Nat.ltb_lt; lia).
        replace (i <? n)%nat with true by (symmetry; apply Nat.ltb_lt; lia).
        reflexivity.
Qed.

Lemma subtract_doubled_body (out : list F) (i : nat) (q : list F) :
  (if (i mod 2 =? 0)%nat
   then upd i (subf (get q i) (get out (i / 2))) q
   else upd i (subf (get q i)
                 (divf (addf (get out (i / 2)) (get out (i / 2 + 1))) (i2f 2))) q) =
  upd i (subf (get q i) (doubled_at out i)) q.
Proof. unfold doubled_at. destruct (i mod 2 =? 0)%nat; reflexivity. Qed.

Lemma get_subtract_doubled (half : nat) (out p : list F) (i : nat) :
  get (subtract_doubled half out p) i =
  if ((i <? half) && (i <? length p))%nat
  then subf (get p i) (doubled_at out i) else get p i.
Proof.
  unfold subtract_doubled.
  apply (for_loop_pointwise (fun i x => subf x (doubled_at out i))).
  intros. apply subtract_doubled_body.
Qed.

Lemma length_subtract_doubled (half : nat) (out p : list F) :
  length (subtract_doubled half out p) = length p.
Proof.
  unfold subtract_doubled.
  apply (for_loop_pointwise (fun i x => subf x (doubled_at out i))).
  intros. apply subtract_doubled_body.
Qed.

(** The decibel loop of the [Spectrum] case, without the search for the
    extremes. *)
Lemma fst_post_spectrum (half : nat) (wss : F) (windows : Z) (p : list F) :
  fst (post_spectrum half wss windows p) =
  for_loop half
    (fun i p => upd i (decibels (fdiv wss (i2d windows)) (get p i)) p) p.
Proof.
  unfold post_spectrum. cbv zeta.
  apply (@for_loop_pair_fst _ _ half _
           (fun i p => upd i (decibels (fdiv wss (i2d windows)) (get p i)) p)).
  reflexivity.
Qed.

Lemma get_post_spectrum (half : nat) (wss : F) (windows : Z) (p : list F) (i : nat) :
  get (fst (post_spectrum half wss windows p)) i =
  if ((i <? half) && (i <? length p))%nat
  then decibels (fdiv wss (i2d windows)) (get p i) else get p i.
Proof.
  rewrite fst_post_spectrum.
  apply (for_loop_pointwise (fun _ x => decibels (fdiv wss (i2d windows)) x)).
  reflexivity.
Qed.

Lemma length_post_spectrum (half : nat) (wss : F) (windows : Z) (p : list F) :
  length (fst (post_spectrum half wss windows p)) = length p.
Proof.
  rewrite fst_post_spectrum.
  apply (for_loop_pointwise (fun _ x => decibels (fdiv wss (i2d windows)) x)).
  reflexivity.
Qed.

(** The extremes of the [Spectrum] case: a scan over the decibel values. *)
Lemma snd_post_spectrum (half : nat) (wss : F) (windows : Z) (p : list F) :
  (half <= length p)%nat ->
  snd (post_spectrum half wss windows p) =
  for_loop half
    (fun i mm => minmax_step (decibels (fdiv wss (i2d windows)) (get p i)) mm)
    (narrow (i2d 1000000), narrow (i2d (-1000000))).
Proof.
  induction half as [|n IH]; intros Hlen; [reflexivity|].
  pose proof (get_post_spectrum n wss windows p n) as Hn.
  rewrite Nat.ltb_irrefl in Hn. simpl in Hn.
  pose proof (length_post_spectrum n wss windows p) as Hl.
  specialize (IH ltac:(lia)).
  unfold post_spectrum in *. cbv zeta in *. rewrite !for_loop_S.
  destruct (for_loop n _ (p, _)) as [q mm]. simpl fst in *. simpl snd in *.
  rewrite get_upd, Nat.eqb_refl, Hl.
  replace (n <? length p)%nat with true by (symmetry; apply Nat.ltb_lt; lia).
  simpl andb. cbv iota. rewrite Hn, IH. reflexivity.
Qed.

(** When the first value lies above the initial maximum, the minimum found
    by the scan is the initial minimum or one of the later values. *)
Lemma scan_misses_first (vs : nat -> F) (lo hi : F) (n : nat) :
  flt hi (vs 0%nat) = true ->
  let mm := for_loop (S n) (fun i mm => minmax_step (vs i) mm) (lo, hi) in
  fst mm = lo \/ exists i, (1 <= i < S n)%nat /\ fst mm = vs i.
Proof.
  intros H0. cbv zeta. induction n as [|n IH].
  - simpl. rewrite H0. now left.
  - rewrite for_loop_S.
    destruct (for_loop (S n) _ (lo, hi)) as [a b]. simpl fst in *.
    unfold minmax_step.
    destruct (flt b (vs (S n))); [|destruct (flt (vs (S n)) a)]; simpl.
    + destruct IH as [IH|[i [Hi IH]]]; [now left|right; exists i; split; [lia|exact IH]].
    + right. exists (S n). split; [lia|reflexivity].
    + destruct IH as [IH|[i [Hi IH]]]; [now left|right; exists i; split; [lia|exact IH]].
Qed.

Lemma fst_post_enhanced (half : nat) (windows : Z) (p out : list F) :
  fst (post_enhanced half windows p out) =
  clip half
    (subtract_doubled half
       (snd (clip_copy half (divide_by_windows half windows p) out))
       (clip half (divide_by_windows half windows p))).
Proof.
  unfold post_enhanced. cbv zeta.
  pose proof (fst_clip_copy half (divide_by_windows half windows p) out) as H.
  destruct (clip_copy half (divide_by_windows half windows p) out) as [p2 out'].
  simpl in *. now subst p2.
Qed.

Lemma length_post_process (alg : Z) (half : nat) (wss : F) (windows : Z)
    (p out : list F) :
  length (fst (post_process alg half wss windows p out)) = length p.
Proof.
  unfold post_process.
  repeat match goal with |- context [if ?c then _ else _] => destruct c end.
  - apply length_post_spectrum.
  - apply length_divide_by_windows.
  - rewrite fst_post_enhanced.
    now rewrite length_clip, length_subtract_doubled, length_clip,
      length_divide_by_windows.
  - apply length_divide_by_windows.
  - reflexivity.
Qed.

(** Past the first half the post-processing leaves the curve as it was. *)
Lemma get_post_process_upper (alg : Z) (half : nat) (wss : F) (windows : Z)
    (p out : list F) (i : nat) :
  (half <= i)%nat ->
  get (fst (post_process alg half wss windows p out)) i = get p i.
Proof.
  intros Hi.
  assert (Hf : (i <? half)%nat = false) by (apply Nat.ltb_ge; lia).
  unfold post_process.
  repeat match goal with |- context [if ?c then _ else _] => destruct c end.
  - rewrite get_post_spectrum, Hf. reflexivity.
  - unfold post_autocorr. cbn [fst]. rewrite get_divide_by_windows, Hf. reflexivity.
  - rewrite fst_post_enhanced, get_clip, Hf. simpl andb. cbv iota.
    rewrite get_subtract_doubled, Hf. simpl andb. cbv iota.
    rewrite get_clip, Hf. simpl andb. cbv iota.
    rewrite get_divide_by_windows, Hf. reflexivity.
  - unfold post_cepstrum. cbn [fst]. rewrite get_divide_by_windows, Hf. reflexivity.
  - reflexivity.
Qed.

End PostFacts.

(** ** The search for the minimum and the maximum *)

Section MinMaxFacts.

Context {F : Type} {FA : FloatArith F} {OA : OrderedArith F}.

Lemma flt_irrefl (x : F) : flt x x = false.
Proof.
  destruct (flt x x) eqn:E; [|reflexivity].
  pose proof (flt_asym _ _ E) as E'. congruence.
Qed.

(** The scan from [(x, x)]: the invariant after [n] elements. *)
Lemma minmax_invariant (p : list F) (lo : nat) (x : F) (n : nat) :
  let mm := for_loop n (fun k mm => minmax_step (get p (lo + k)) mm) (x, x) in
  let seen v := v = x \/ exists k, (k < n)%nat /\ v = get p (lo + k) in
  flt (snd mm) (fst mm) = false /\ seen (fst mm) /\ seen (snd mm) /\
  forall v, seen v -> flt v (fst mm) = false /\ flt (snd mm) v = false.
Proof.
  induction n as [|n IH]; cbv zeta in *.
  - simpl. rewrite flt_irrefl. repeat split; auto.
    + destruct H as [->|[k [Hk _]]]; [apply flt_irrefl|lia].
    + destruct H as [->|[k [Hk _]]]; [apply flt_irrefl|lia].
  - rewrite for_loop_S.
    destruct (for_loop n _ (x, x)) as [a b]. simpl fst in *. simpl snd in *.
    destruct IH as [Hba [Ha [Hb Hall]]].
    set (v' := get p (lo + n)).
    assert (Hseen : forall v, (v = x \/ exists k, (k < S n)%nat /\ v = get p (lo + k)) ->
                              (v = x \/ exists k, (k < n)%nat /\ v = get p (lo + k)) \/ v = v').
    { intros v [->|[k [Hk ->]]]; [left; now left|].
      destruct (Nat.eq_dec k n) as [->|Hne]; [now right|].
      left; right; exists k; split; [lia|reflexivity]. }
    assert (Hup : forall v, (v = x \/ exists k, (k < n)%nat /\ v = get p (lo + k)) ->
                            (v = x \/ exists k, (k < S n)%nat /\ v = get p (lo + k))).
    { intros v [->|[k [Hk ->]]]; [now left|right; exists k; split; [lia|reflexivity]]. }
    assert (Hnew : v' = x \/ exists k, (k < S n)%nat /\ v' = get p (lo + k)).
    { right; exists n; split; [lia|reflexivity]. }
    unfold minmax_step.
    destruct (flt b v') eqn:Ebv; [|destruct (flt v' a) eqn:Eva]; simpl.
    + assert (Hva : flt v' a = false).
      { apply (flt_negtrans v' b a); [now apply flt_asym|exact Hba]. }
      repeat split; auto.
      * destruct (Hseen v H) as [Hs| ->]; [apply Hall, Hs|exact Hva].
      * destruct (Hseen v H) as [Hs| ->]; [|apply flt_irrefl].
        apply (flt_negtrans v' b v); [now apply flt_asym|apply Hall, Hs].
    + repeat split; auto.
      * destruct (Hseen v H) as [Hs| ->]; [|apply flt_irrefl].
        apply (flt_negtrans v a v'); [apply Hall, Hs|now apply flt_asym].
      * destruct (Hseen v H) as [Hs| ->]; [apply Hall, Hs|exact Ebv].
    + repeat split; auto.
      * destruct (Hseen v H) as [Hs| ->]; [apply Hall, Hs|exact Eva].
      * destruct (Hseen v H) as [Hs| ->]; [apply Hall, Hs|exact Ebv].
Qed.

(** Started from the bin before [from], the scan of [from], ..., [to - 1]
    ends with the minimum and the maximum of the bins [from - 1], ...,
    [to - 1]. *)
Lemma minmax_scan_correct (p : list F) (first last : nat) :
  (first < last)%nat ->
  let mm := minmax_scan (S first) last p (get p first, get p first) in
  is_min_max p first last (fst mm) (snd mm).
Proof.
  intros Hlt. cbv zeta. unfold minmax_scan, for_range.
  pose proof (minmax_invariant p (S first) (get p first) (last - S first)) as H.
  cbv zeta in H. destruct H as [_ [Ha [Hb Hall]]].
  assert (Hidx : forall v,
             (v = get p first \/ exists k, (k < last - S first)%nat /\ v = get p (S first + k)) ->
             exists j, (first <= j < last)%nat /\ v = get p j).
  { intros v [->|[k [Hk ->]]]; [exists first|exists (S first + k)%nat]; split; auto; lia. }
  split; [apply Hidx, Ha|]. split; [apply Hidx, Hb|].
  intros i Hi. apply Hall.
  destruct (Nat.eq_dec i first) as [->|Hne]; [now left|].
  right. exists (i - S first)%nat. split; [lia|]. f_equal. lia.
Qed.

(** The running maximum of a scan from any pair [(lo, hi)]: it is not below
    [hi] nor below any value seen, and it is [hi] or a value seen. *)
Lemma scan_maximum (vs : nat -> F) (lo hi : F) (n : nat) :
  let mm := for_loop n (fun i mm => minmax_step (vs i) mm) (lo, hi) in
  flt (snd mm) hi = false /\
  (forall i, (i < n)%nat -> flt (snd mm) (vs i) = false) /\
  (snd mm = hi \/ exists i, (i < n)%nat /\ snd mm = vs i).
Proof.
  cbv zeta. induction n as [|n IH].
  - simpl. split; [apply flt_irrefl|]. split; [intros i Hi; lia|now left].
  - rewrite for_loop_S.
    destruct (for_loop n _ (lo, hi)) as [a b]. simpl snd in IH.
    destruct IH as [Hhi [Hall Hin]].
    unfold minmax_step.
    destruct (flt b (vs n)) eqn:Eb; [|destruct (flt (vs n) a)]; simpl snd.
    + pose proof (flt_asym _ _ Eb) as Hvb.
      split; [apply (flt_negtrans (vs n) b hi); assumption|]. split.
      * intros i Hi. destruct (Nat.eq_dec i n) as [->|Hne]; [apply flt_irrefl|].
        apply (flt_negtrans (vs n) b (vs i)); [assumption|apply Hall; lia].
      * right. exists n. split; [lia|reflexivity].
    + split; [exact Hhi|]. split.
      * intros i Hi. destruct (Nat.eq_dec i n) as [->|Hne]; [exact Eb|apply Hall; lia].
      * destruct Hin as [->|[i [Hi ->]]]; [now left|right; exists i; split; [lia|reflexivity]].
    + split; [exact Hhi|]. split.
      * intros i Hi. destruct (Nat.eq_dec i n) as [->|Hne]; [exact Eb|apply Hall; lia].
      * destruct Hin as [->|[i [Hi ->]]]; [now left|right; exists i; split; [lia|reflexivity]].
Qed.

End MinMaxFacts.

(** ** Calculate *)

Section CalculateFacts.

Context {F : Type} {FA : FloatArith F}.
Variable NumWindowFuncs : Z.
Variable WindowFunc : Z -> nat -> list F -> list F.
Variable PowerSpectrum : nat -> list F -> list F.
Variable RealFFT : nat -> list F -> list F * list F.
Variable InverseRealFFT : nat -> list F -> list F.

Local Abbreviation Calculate' :=
  (Calculate NumWindowFuncs WindowFunc PowerSpectrum RealFFT InverseRealFFT).
Local Abbreviation window_loop' := (window_loop PowerSpectrum RealFFT InverseRealFFT).
Local Abbreviation run_windows' := (run_windows PowerSpectrum RealFFT InverseRealFFT).
Local Abbreviation accumulated' := (accumulated PowerSpectrum RealFFT InverseRealFFT).
Local Abbreviation valid_params' := (valid_params NumWindowFuncs).

Lemma valid_params_spec (alg windowFunc : Z) (W : N) :
  valid_params' alg windowFunc W = true <->
  (32 <= W <= 65536)%N /\ (0 <= alg < 5)%Z /\ (0 <= windowFunc < NumWindowFuncs)%Z.
Proof.
  unfold valid_params, Alg.Spectrum, Alg.NumAlgorithms.
  rewrite !Bool.andb_true_iff, !N.leb_le, !Z.leb_le, !Z.ltb_lt. lia.
Qed.

Lemma window_count_bounds (W D : N) :
  (32 <= W)%N -> (W <= D)%N ->
  (1 <= window_count W D <= Z.of_N D / 16)%Z.
Proof.
  intros HW HD. unfold window_count.
  assert (H16 : (16 <= W / 2)%N) by (apply N.div_le_lower_bound; lia).
  assert (Hq : ((D - W) / (W / 2) <= (D - W) / 16)%N).
  { apply N.div_le_compat_l. lia. }
  assert (Hq' : ((D - W) / 16 + 2 <= D / 16)%N).
  { rewrite <- (N.div_add (D - W) 2 16) by lia.
    apply N.Div0.div_le_mono. lia. }
  change 16%Z with (Z.of_N 16). rewrite <- (N2Z.inj_div D 16).
  generalize dependent ((D - W) / (W / 2))%N. intros q Hq.
  generalize dependent ((D - W) / 16)%N. generalize (D / 16)%N. lia.
Qed.

(** The loop of an accepted call, closed form. *)
Lemma window_loop_count (alg : Z) (W : N) (win data : list F) (D : N)
    (fuel : nat) (p out : list F) :
  (32 <= W)%N -> (W <= D)%N -> (D + W < 2 ^ 64)%N -> (N.to_nat D < fuel)%nat ->
  window_loop' fuel alg W win data D 0%N 0%Z p out =
  let '(p', out') :=
    run_windows' (Z.to_nat (window_count W D)) alg (N.to_nat W) win data 0 p out in
  Some (window_count W D, p', out').
Proof.
  intros HW HD Hfit Hfuel.
  pose proof (window_count_bounds HW HD) as Hb.
  assert (HDz : (Z.of_N D / 16 <= Z.of_N D)%Z).
  { apply Z.div_le_upper_bound; lia. }
  pose proof (@window_loop_run F FA PowerSpectrum RealFFT InverseRealFFT
                alg W win data D ltac:(lia) HD Hfit
                (Z.to_nat (window_count W D)) 0%nat 0%Z p out fuel) as H.
  simpl N.of_nat in H. rewrite N.mul_0_l in H.
  rewrite H; [| lia | unfold window_count in *; lia].
  destruct (run_windows' _ alg (N.to_nat W) win data 0 p out).
  do 3 f_equal. lia.
Qed.

Lemma Calculate_accepted (fuel : nat) (s : SpectrumAnalyst F)
    (alg windowFunc : Z) (W : N) (rate : F) (data : list F) (D : N) :
  valid_params' alg windowFunc W = true -> (W <= D)%N ->
  (D + 65536 < 2 ^ 64)%N -> (N.to_nat D < fuel)%nat ->
  Calculate' fuel s alg windowFunc W rate data D =
  let ws := N.to_nat W in
  let win := window_coeffs WindowFunc windowFunc ws in
  let '(p, out) :=
    run_windows' (Z.to_nat (window_count W D)) alg ws win data 0
      (tabulate ws (fun _ => narrow (i2d 0))) (tabulate ws (fun _ => fzero)) in
  let '(p', (ymin, ymax)) :=
    post_process alg (ws / 2) (normalization ws win) (window_count W D) p out in
  Some (mkAnalyst alg rate W p', Some (ymin, ymax)).
Proof.
  intros Hv HD Hfit Hfuel.
  pose proof (proj1 (valid_params_spec _ _ _) Hv) as [HW _].
  unfold Calculate. rewrite Hv. simpl negb. cbv iota.
  destruct (N.ltb_spec D W) as [Hlt|_]; [lia|].
  cbv zeta. rewrite window_loop_count by lia.
  destruct (run_windows' _ alg (N.to_nat W) _ data 0 _ _) as [p out].
  reflexivity.
Qed.

Lemma Calculate_rejected (fuel : nat) (s : SpectrumAnalyst F)
    (alg windowFunc : Z) (W : N) (rate : F) (data : list F) (D : N) :
  valid_params' alg windowFunc W = false \/ (D < W)%N ->
  Calculate' fuel s alg windowFunc W rate data D =
  Some (mkAnalyst (mAlg s) (i2d 0) 0%N [], None).
Proof.
  intros H. unfold Calculate.
  destruct (valid_params' alg windowFunc W); simpl; [|reflexivity].
  destruct H as [H|H]; [discriminate|].
  destruct (N.ltb_spec D W); [reflexivity|lia].
Qed.

(** C1.  [Calculate] returns [false] exactly when the validation fails:
    the window size is below 32 or above 65536, the algorithm is none of the
    five variants, the window function is no index of the catalogue, or
    there are fewer samples than one window.  After every failing call the
    curve is empty ([GetProcessedSize] is 0) and the cached rate and window
    size are cleared. *)
Theorem Calculate_fails_iff_invalid (fuel : nat) (s : SpectrumAnalyst F)
    (alg windowFunc : Z) (W : N) (rate : F) (data : list F) (D : N) :
  (D + 65536 < 2 ^ 64)%N -> (N.to_nat D < fuel)%nat ->
  exists s' v,
    Calculate' fuel s alg windowFunc W rate data D = Some (s', v) /\
    (v = None <->
     (W < 32)%N \/ (65536 < W)%N \/
     ~ In alg [Alg.Spectrum; Alg.Autocorrelation; Alg.CubeRootAutocorrelation;
               Alg.EnhancedAutocorrelation; Alg.Cepstrum] \/
     ~ (0 <= windowFunc < NumWindowFuncs)%Z \/
     (D < W)%N) /\
    (v = None ->
     GetProcessedSize s' = 0%Z /\ mProcessed s' = [] /\
     mRate s' = i2d 0 /\ mWindowSize s' = 0%N).
Proof.
  intros Hfit Hfuel.
  assert (Halg : In alg [Alg.Spectrum; Alg.Autocorrelation; Alg.CubeRootAutocorrelation;
                         Alg.EnhancedAutocorrelation; Alg.Cepstrum] <-> (0 <= alg < 5)%Z).
  { unfold Alg.Spectrum, Alg.Autocorrelation, Alg.CubeRootAutocorrelation,
      Alg.EnhancedAutocorrelation, Alg.Cepstrum. simpl. lia. }
  destruct (valid_params' alg windowFunc W) eqn:Hv.
  - pose proof (proj1 (valid_params_spec _ _ _) Hv) as [HW [Ha Hw]].
    destruct (N.lt_ge_cases D W) as [HD|HD].
    + rewrite Calculate_rejected by (right; exact HD).
      do 2 eexists. split; [reflexivity|]. split.
      * split; [intros _; do 4 right; exact HD|reflexivity].
      * intros _. repeat split.
    + rewrite Calculate_accepted by assumption. cbv zeta.
      destruct (run_windows' _ _ _ _ _ _ _ _) as [p out].
      destruct (post_process _ _ _ _ _ _) as [p' [ymin ymax]].
      do 2 eexists. split; [reflexivity|]. split.
      * split; [discriminate|]. rewrite Halg. lia.
      * discriminate.
  - rewrite Calculate_rejected by (left; exact Hv).
    do 2 eexists. split; [reflexivity|]. split.
    + split; [intros _|reflexivity].
      rewrite Halg.
      destruct (N.lt_ge_cases W 32); [tauto|].
      destruct (N.lt_ge_cases 65536 W); [tauto|].
      destruct (Z_lt_le_dec alg 0); [right; right; left; lia|].
      destruct (Z_lt_le_dec alg 5); [|right; right; left; lia].
      destruct (Z_lt_le_dec windowFunc 0); [right; right; right; left; lia|].
      destruct (Z_lt_le_dec windowFunc NumWindowFuncs); [|right; right; right; left; lia].
      exfalso. assert (valid_params' alg windowFunc W = true)
        by (apply valid_params_spec; lia). congruence.
    + intros _. repeat split.
Qed.

(** C8.  For every input that passes the validation the window loop, with
    its hop of half a window, runs at least once: it ends with
    [windows >= 1], so that no accepted call has zero windows and the
    divisor [windows] of the post-processing is not zero.  The count stays
    below a sixteenth of the number of samples. *)
Theorem windows_at_least_one (fuel : nat) (alg windowFunc : Z) (W : N)
    (win data : list F) (D : N) (p out : list F) :
  valid_params' alg windowFunc W = true -> (W <= D)%N ->
  (D + 65536 < 2 ^ 64)%N -> (N.to_nat D < fuel)%nat ->
  exists windows p' out',
    window_loop' fuel alg W win data D 0%N 0%Z p out = Some (windows, p', out') /\
    windows = window_count W D /\
    (1 <= windows <= Z.of_N D / 16)%Z /\ windows <> 0%Z.
Proof.
  intros Hv HD Hfit Hfuel.
  pose proof (proj1 (valid_params_spec _ _ _) Hv) as [HW _].
  rewrite window_loop_count by lia.
  destruct (run_windows' _ _ _ _ _ _ _ _) as [p' out'].
  pose proof (@window_count_bounds W D ltac:(lia) HD).
  do 3 eexists. split; [reflexivity|]. repeat split; lia.
Qed.

(** C5.  [GetProcessedSize] is 0 on a fresh analyst and after a failed
    [Calculate], and is half the window size after a successful one. *)
Theorem GetProcessedSize_half_window (fuel : nat) (s : SpectrumAnalyst F)
    (alg windowFunc : Z) (W : N) (rate : F) (data : list F) (D : N) :
  (D + 65536 < 2 ^ 64)%N -> (N.to_nat D < fuel)%nat ->
  GetProcessedSize (SpectrumAnalyst_new (F := F)) = 0%Z /\
  exists s' v,
    Calculate' fuel s alg windowFunc W rate data D = Some (s', v) /\
    (v <> None -> GetProcessedSize s' = Z.of_N (W / 2)) /\
    (v = None -> GetProcessedSize s' = 0%Z).
Proof.
  intros Hfit Hfuel. split; [reflexivity|].
  destruct (valid_params' alg windowFunc W) eqn:Hv.
  - destruct (N.lt_ge_cases D W) as [HD|HD].
    + rewrite Calculate_rejected by (right; exact HD).
      do 2 eexists. split; [reflexivity|]. split; [congruence|reflexivity].
    + rewrite Calculate_accepted by assumption. cbv zeta.
      pose proof (length_run_windows PowerSpectrum RealFFT InverseRealFFT
                    (Z.to_nat (window_count W D)) alg (N.to_nat W)
                    (window_coeffs WindowFunc windowFunc (N.to_nat W)) data 0
                    (tabulate (N.to_nat W) (fun _ => narrow (i2d 0)))
                    (tabulate (N.to_nat W) (fun _ => fzero))) as Hlen.
      destruct (run_windows' _ _ _ _ _ _ _ _) as [p out]. simpl fst in Hlen.
      pose proof (length_post_process alg (N.to_nat W / 2)
                    (normalization (N.to_nat W)
                       (window_coeffs WindowFunc windowFunc (N.to_nat W)))
                    (window_count W D) p out) as Hlen'.
      destruct (post_process _ _ _ _ _ _) as [p' [ymin ymax]]. simpl fst in Hlen'.
      do 2 eexists. split; [reflexivity|]. split; [|discriminate].
      intros _. unfold GetProcessedSize. simpl mProcessed.
      rewrite Hlen', Hlen, length_tabulate.
      rewrite N2Z.inj_div. rewrite N_nat_Z. reflexivity.
  - rewrite Calculate_rejected by (left; exact Hv).
    do 2 eexists. split; [reflexivity|]. split; [congruence|reflexivity].
Qed.

End CalculateFacts.

(** ** Accepted calls *)

Section Accepted.

Context {F : Type} {FA : FloatArith F}.
Variable NumWindowFuncs : Z.
Variable WindowFunc : Z -> nat -> list F -> list F.
Variable PowerSpectrum : nat -> list F -> list F.
Variable RealFFT : nat -> list F -> list F * list F.
Variable InverseRealFFT : nat -> list F -> list F.

Local Abbreviation Calculate' :=
  (Calculate NumWindowFuncs WindowFunc PowerSpectrum RealFFT InverseRealFFT).
Local Abbreviation run_windows' := (run_windows PowerSpectrum RealFFT InverseRealFFT).
Local Abbreviation accumulated' := (accumulated PowerSpectrum RealFFT InverseRealFFT).
Local Abbreviation contribution' := (contribution PowerSpectrum RealFFT InverseRealFFT).

Variable fuel : nat.
Variable s : SpectrumAnalyst F.
Variables alg windowFunc : Z.
Variable W : N.
Variable rate : F.
Variable data : list F.
Variable D : N.

Hypothesis Hvalid : valid_params NumWindowFuncs alg windowFunc W = true.
Hypothesis Hdata : (W <= D)%N.
Hypothesis Hfit : (D + 65536 < 2 ^ 64)%N.
Hypothesis Hfuel : (N.to_nat D < fuel)%nat.

Let ws : nat := N.to_nat W.
Let half : nat := (ws / 2)%nat.
Let win : list F := window_coeffs WindowFunc windowFunc ws.
Let windows : Z := window_count W D.
Let acc (i : nat) : F := accumulated' alg ws win data (Z.to_nat windows) i.

Lemma half_bounds : (16 <= half)%nat /\ (2 * half <= ws)%nat.
Proof.
  pose proof (proj1 (valid_params_spec _ _ _ _) Hvalid) as [HW _].
  unfold half, ws. split.
  - apply Nat.div_le_lower_bound; lia.
  - apply Nat.Div0.mul_div_le.
Qed.

(** The state of the engine when the window loop of an accepted call is
    left: the curve holds [ws] elements, the first [half] of which are the
    accumulated contributions. *)
Lemma Calculate_after_loop :
  exists p out,
    length p = ws /\ length out = ws /\
    (forall i, (i < half)%nat -> get p i = acc i) /\
    Calculate' fuel s alg windowFunc W rate data D =
    let '(p', (ymin, ymax)) :=
      post_process alg half (normalization ws win) windows p out in
    Some (mkAnalyst alg rate W p', Some (ymin, ymax)).
Proof.
  pose proof (proj1 (valid_params_spec _ _ _ _) Hvalid) as [HW [Halg _]].
  pose proof half_bounds as [Hh1 Hh2].
  rewrite Calculate_accepted by assumption. cbv zeta.
  fold ws. fold win. fold windows. fold half.
  set (p0 := tabulate ws (fun _ => narrow (i2d 0))).
  set (o0 := tabulate ws (fun _ : nat => fzero)).
  pose proof (length_run_windows PowerSpectrum RealFFT InverseRealFFT
                (Z.to_nat windows) alg ws win data 0 p0 o0) as Hlp.
  pose proof (@length_out_run_windows F FA PowerSpectrum RealFFT InverseRealFFT
                (Z.to_nat windows) alg ws win data 0 p0 o0
                (length_tabulate _ _)) as Hlo.
  assert (Hget : forall i, (i < half)%nat ->
             get (fst (run_windows' (Z.to_nat windows) alg ws win data 0 p0 o0)) i
             = acc i).
  { intros i Hi. rewrite get_run_windows; try assumption.
    - unfold acc, accumulated. unfold p0. rewrite get_tabulate by lia.
      reflexivity.
    - unfold p0. rewrite length_tabulate. lia. }
  destruct (run_windows' (Z.to_nat windows) alg ws win data 0 p0 o0) as [p out].
  simpl fst in *. simpl snd in *.
  exists p, out. unfold p0 in Hlp. rewrite length_tabulate in Hlp.
  repeat split; auto.
Qed.

Lemma post_enhanced_eq (h : nat) (w : Z) (p out : list F) :
  post_enhanced h w p out =
  let p4 := fst (post_enhanced h w p out) in
  (p4, minmax_scan 1 h p4 (get p4 0, get p4 0)).
Proof.
  unfold post_enhanced. cbv zeta.
  destruct (clip_copy h (divide_by_windows h w p) out). reflexivity.
Qed.

(** X1.  After a successful [Calculate] with [Spectrum] each of the
    [windowSize / 2] bins is ten times the decimal logarithm of the
    accumulated power times [normalization / windows]. *)
Lemma spectrum_bins :
  alg = Alg.Spectrum ->
  exists s' ymin ymax,
    Calculate' fuel s alg windowFunc W rate data D = Some (s', Some (ymin, ymax)) /\
    forall i, (i < half)%nat ->
      get (mProcessed s') i =
      narrow (fmul (i2d 10)
                (flog10 (fmul (acc i) (fdiv (normalization ws win) (i2d windows))))).
Proof.
  intros Halg.
  destruct Calculate_after_loop as (p & out & Hlp & Hlo & Hget & Hcalc).
  pose proof half_bounds as [Hh1 Hh2].
  rewrite Hcalc. unfold post_process. rewrite Halg. simpl Z.eqb. cbv iota.
  pose proof (get_post_spectrum half (normalization ws win) windows p) as Hbins.
  destruct (post_spectrum half (normalization ws win) windows p) as [p' [ymin ymax]].
  simpl fst in Hbins.
  do 3 eexists. split; [reflexivity|].
  intros i Hi. simpl mProcessed. rewrite Hbins. rewrite Hlp.
  rewrite !(proj2 (Nat.ltb_lt _ _)) by lia. simpl andb. cbv iota.
  unfold decibels. rewrite Hget by lia. reflexivity.
Qed.

(** C2, the reported minimum.  After a successful [Calculate] with
    [Spectrum], whenever bin 0 of the curve lies between the initial values
    -1000000 and 1000000 of the search and strictly below every other bin,
    the reported minimum is strictly above bin 0: the first bin only
    replaces the running maximum and is never compared with the running
    minimum. *)
Theorem spectrum_minimum_missed :
  alg = Alg.Spectrum ->
  let db i := decibels (fdiv (normalization ws win) (i2d windows)) (acc i) in
  flt (narrow (i2d (-1000000))) (db 0%nat) = true ->
  flt (db 0%nat) (narrow (i2d 1000000)) = true ->
  (forall i, (1 <= i < half)%nat -> flt (db 0%nat) (db i) = true) ->
  exists s' ymin ymax,
    Calculate' fuel s alg windowFunc W rate data D = Some (s', Some (ymin, ymax)) /\
    get (mProcessed s') 0 = db 0%nat /\
    (forall i, (i < half)%nat -> get (mProcessed s') i = db i) /\
    flt (get (mProcessed s') 0) ymin = true.
Proof.
  intros Halg db Hlo Hhi Hrest.
  destruct Calculate_after_loop as (p & out & Hlp & Hlo' & Hget & Hcalc).
  pose proof half_bounds as [Hh1 Hh2].
  rewrite Hcalc. unfold post_process. rewrite Halg. simpl Z.eqb. cbv iota.
  pose proof (get_post_spectrum half (normalization ws win) windows p) as Hbins.
  pose proof (@snd_post_spectrum F FA half (normalization ws win) windows p
                ltac:(lia)) as Hscan.
  destruct (post_spectrum half (normalization ws win) windows p) as [p' [ymin ymax]].
  simpl fst in Hbins. simpl snd in Hscan.
  assert (Hdb : forall i, (i < half)%nat -> get p' i = db i).
  { intros i Hi. rewrite Hbins, Hlp.
    rewrite !(proj2 (Nat.ltb_lt _ _)) by lia. simpl andb. cbv iota.
    unfold db. rewrite Hget by lia. reflexivity. }
  do 3 eexists. split; [reflexivity|]. simpl mProcessed.
  split; [apply Hdb; lia|]. split; [exact Hdb|].
  rewrite Hdb by lia.
  assert (Hscan' : (ymin, ymax) =
            for_loop half (fun i mm => minmax_step (db i) mm)
              (narrow (i2d 1000000), narrow (i2d (-1000000)))).
  { rewrite Hscan. apply for_loop_ext. intros j x Hj. unfold db.
    rewrite Hget by lia. reflexivity. }
  destruct half as [|h] eqn:Eh; [lia|].
  pose proof (@scan_misses_first F FA db (narrow (i2d 1000000))
                (narrow (i2d (-1000000))) h Hlo) as Hm.
  cbv zeta in Hm. rewrite <- Hscan' in Hm. simpl fst in Hm.
  destruct Hm as [->|[i [Hi ->]]]; [exact Hhi|apply Hrest; lia].
Qed.

Context {OA : OrderedArith F}.

(** C6.  After a successful [Calculate] with [EnhancedAutocorrelation] each
    bin is the accumulated value divided by the window count and clipped at
    zero, minus the time-doubled clipped curve (the clipped value at [i/2]
    for even [i], the mean of the clipped values at [i/2] and [i/2 + 1] for
    odd [i]), clipped at zero again; the reported values are the minimum
    and the maximum of these bins, and the minimum is not negative. *)
Theorem enhanced_autocorrelation_curve :
  alg = Alg.EnhancedAutocorrelation ->
  exists s' ymin ymax,
    Calculate' fuel s alg windowFunc W rate data D = Some (s', Some (ymin, ymax)) /\
    let c := tabulate half (fun j => clipped (divf (acc j) (i2f windows))) in
    (forall i, (i < half)%nat ->
       get (mProcessed s') i = clipped (subf (get c i) (doubled_at c i))) /\
    is_min_max (mProcessed s') 0 half ymin ymax /\
    flt ymin (i2d 0) = false.
Proof.
  intros Halg.
  destruct Calculate_after_loop as (p & out & Hlp & Hlo & Hget & Hcalc).
  pose proof half_bounds as [Hh1 Hh2].
  rewrite Hcalc. unfold post_process. rewrite Halg. simpl Z.eqb. simpl orb. cbv iota.
  rewrite post_enhanced_eq. cbv zeta.
  set (p4 := fst (post_enhanced half windows p out)).
  assert (Hbins : forall i, (i < half)%nat ->
            get p4 i =
            clipped (subf
              (get (tabulate half (fun j => clipped (divf (acc j) (i2f windows)))) i)
              (doubled_at
                 (tabulate half (fun j => clipped (divf (acc j) (i2f windows)))) i))).
  { intros i Hi. unfold p4. rewrite fst_post_enhanced.
    set (p1 := divide_by_windows half windows p).
    assert (Hl1 : length p1 = ws) by (unfold p1; now rewrite length_divide_by_windows).
    destruct (@snd_clip_copy F FA half p1 out ltac:(lia) ltac:(lia)) as [Hlc Hgc].
    assert (Hc : forall j, (j < half)%nat ->
               get (clip half p1) j = clipped (divf (acc j) (i2f windows))).
    { intros j Hj. rewrite get_clip, Hl1.
      rewrite !(proj2 (Nat.ltb_lt _ _)) by lia. simpl andb. cbv iota.
      unfold p1. rewrite get_divide_by_windows, Hlp.
      rewrite !(proj2 (Nat.ltb_lt _ _)) by lia. simpl andb. cbv iota.
      rewrite Hget by lia. reflexivity. }
    rewrite get_clip, length_subtract_doubled, length_clip, Hl1.
    rewrite !(proj2 (Nat.ltb_lt _ _)) by lia. simpl andb. cbv iota.
    rewrite get_subtract_doubled, length_clip, Hl1.
    rewrite !(proj2 (Nat.ltb_lt _ _)) by lia. simpl andb. cbv iota.
    rewrite Hc by lia. rewrite get_tabulate by lia.
    assert (Hi2 : (i / 2 + 1 < half)%nat).
    { assert (i / 2 <= i)%nat by (apply Nat.Div0.div_le_upper_bound; lia).
      assert (2 * (i / 2) <= i)%nat by (apply Nat.Div0.mul_div_le). lia. }
    assert (Hd : doubled_at (snd (clip_copy half p1 out)) i =
                 doubled_at
                   (tabulate half (fun j => clipped (divf (acc j) (i2f windows)))) i).
    { unfold doubled_at.
      rewrite !Hgc by lia. rewrite !Hc by lia. rewrite !get_tabulate by lia.
      reflexivity. }
    rewrite Hd. reflexivity. }
  pose proof (@minmax_scan_correct F FA OA p4 0 half ltac:(lia)) as Hmm.
  cbv zeta in Hmm.
  destruct (minmax_scan 1 half p4 (get p4 0, get p4 0)) as [ymin ymax].
  simpl fst in Hmm. simpl snd in Hmm.
  do 3 eexists. split; [reflexivity|]. simpl mProcessed.
  split; [exact Hbins|]. split; [exact Hmm|].
  destruct Hmm as [[j [Hj ->]] _]. rewrite Hbins by lia.
  unfold clipped at 1.
  match goal with |- context [if flt ?x (i2d 0) then _ else _] =>
    destruct (flt x (i2d 0)) eqn:E end; [apply narrow_zero|exact E].
Qed.

(** C7.  After a successful [Calculate] with [Cepstrum]: what a window
    contributes is the inverse real FFT of the natural logarithm of the
    power [re * re + im * im] of each FFT bin, the power being replaced by
    [1e-20 * windowSize * windowSize] where it is smaller; each of the
    [windowSize / 2] bins of the curve is the accumulated contribution
    divided by the window count; the reported values are the minimum and the
    maximum of the bins 4 to [half - 5]; and all [windowSize / 2] bins stay
    in the curve. *)
Theorem cepstrum_curve :
  alg = Alg.Cepstrum ->
  exists s' ymin ymax,
    Calculate' fuel s alg windowFunc W rate data D = Some (s', Some (ymin, ymax)) /\
    (forall k,
       contribution' alg ws win data k =
       let '(re, im) := RealFFT ws (nth_frame ws win data k) in
       let floor := narrow (fmul (fmul (f_dec 1 (-20)) (i2d (Z.of_nat ws)))
                              (i2d (Z.of_nat ws))) in
       buffer ws
         (InverseRealFFT ws
            (tabulate ws (fun n =>
               let power := addf (mulf (get re n) (get re n))
                              (mulf (get im n) (get im n)) in
               if flt power floor then narrow (flog floor)
               else narrow (flog power))))) /\
    (forall i, (i < half)%nat ->
       get (mProcessed s') i = divf (acc i) (i2f windows)) /\
    is_min_max (mProcessed s') 4 (half - 4) ymin ymax /\
    GetProcessedSize s' = Z.of_nat half.
Proof.
  intros Halg.
  destruct Calculate_after_loop as (p & out & Hlp & Hlo & Hget & Hcalc).
  pose proof half_bounds as [Hh1 Hh2].
  rewrite Hcalc. unfold post_process. rewrite Halg. simpl Z.eqb. simpl orb. cbv iota.
  unfold post_cepstrum. cbv zeta.
  set (p1 := divide_by_windows half windows p).
  assert (Hl1 : length p1 = ws) by (unfold p1; now rewrite length_divide_by_windows).
  pose proof (@minmax_scan_correct F FA OA p1 4 (half - 4) ltac:(lia)) as Hmm.
  cbv zeta in Hmm. change (4 + 1)%nat with 5%nat.
  destruct (minmax_scan 5 (half - 4) p1 (get p1 4, get p1 4)) as [ymin ymax].
  simpl fst in Hmm. simpl snd in Hmm.
  do 3 eexists. split; [reflexivity|]. simpl mProcessed.
  split; [|split; [|split]].
  - intros k. unfold contribution. simpl Z.eqb. cbv iota.
    unfold cepstrum_out, log_power, minpower, power_at.
    destruct (RealFFT ws (nth_frame ws win data k)) as [re im].
    do 2 f_equal. unfold tabulate. apply map_ext_in. intros n Hn.
    apply in_seq in Hn. rewrite !get_buffer by lia. reflexivity.
  - intros i Hi. unfold p1. rewrite get_divide_by_windows, Hlp.
    rewrite !(proj2 (Nat.ltb_lt _ _)) by lia. simpl andb. cbv iota.
    rewrite Hget by lia. reflexivity.
  - exact Hmm.
  - unfold GetProcessedSize. simpl mProcessed. rewrite Hl1.
    unfold half. rewrite Nat2Z.inj_div. reflexivity.
Qed.

(** X2.  After a successful [Calculate] with [Spectrum] the reported
    maximum is not below any bin nor below the initial value -1000000, and
    it is one of the bins as soon as one bin lies above -1000000. *)
Theorem spectrum_maximum :
  alg = Alg.Spectrum ->
  exists s' ymin ymax,
    Calculate' fuel s alg windowFunc W rate data D = Some (s', Some (ymin, ymax)) /\
    (forall i, (i < half)%nat -> flt ymax (get (mProcessed s') i) = false) /\
    flt ymax (narrow (i2d (-1000000))) = false /\
    ((exists i, (i < half)%nat /\
                flt (narrow (i2d (-1000000))) (get (mProcessed s') i) = true) ->
     exists j, (j < half)%nat /\ ymax = get (mProcessed s') j).
Proof.
  intros Halg.
  destruct Calculate_after_loop as (p & out & Hlp & Hlo & Hget & Hcalc).
  pose proof half_bounds as [Hh1 Hh2].
  rewrite Hcalc. unfold post_process. rewrite Halg. simpl Z.eqb. cbv iota.
  pose proof (get_post_spectrum half (normalization ws win) windows p) as Hbins.
  pose proof (@snd_post_spectrum F FA half (normalization ws win) windows p
                ltac:(lia)) as Hscan.
  destruct (post_spectrum half (normalization ws win) windows p) as [p' [ymin ymax]].
  simpl fst in Hbins. simpl snd in Hscan.
  assert (Hvs : forall i, (i < half)%nat ->
            get p' i = decibels (fdiv (normalization ws win) (i2d windows)) (get p i)).
  { intros i Hi. rewrite Hbins, Hlp.
    rewrite !(proj2 (Nat.ltb_lt _ _)) by lia. reflexivity. }
  pose proof (@scan_maximum F FA OA
                (fun i => decibels (fdiv (normalization ws win) (i2d windows)) (get p i))
                (narrow (i2d 1000000)) (narrow (i2d (-1000000))) half) as Hmax.
  cbv zeta beta in Hmax. rewrite <- Hscan in Hmax. cbn [snd] in Hmax.
  destruct Hmax as [Hsent [Hall Hin]].
  do 3 eexists. split; [reflexivity|]. simpl mProcessed. split; [|split].
  - intros i Hi. rewrite Hvs by exact Hi. apply Hall. exact Hi.
  - exact Hsent.
  - intros [i [Hi Habove]]. destruct Hin as [->|[j [Hj ->]]].
    + rewrite Hvs in Habove by exact Hi. rewrite Hall in Habove by exact Hi.
      discriminate.
    + exists j. split; [exact Hj|]. symmetry. apply Hvs. exact Hj.
Qed.

(** X3.  After a successful [Calculate] with [Autocorrelation] or
    [CubeRootAutocorrelation]: a window contributes the real part of the
    FFT of the root of the power [re * re + im * im] of each FFT bin of the
    frame, the square root for the former and the power [1/3] for the
    latter; each bin of the
    curve is the accumulated contribution divided by the window count; and
    the reported values are the minimum and the maximum of all bins. *)
Theorem autocorrelation_curve :
  alg = Alg.Autocorrelation \/ alg = Alg.CubeRootAutocorrelation ->
  exists s' ymin ymax,
    Calculate' fuel s alg windowFunc W rate data D = Some (s', Some (ymin, ymax)) /\
    (forall k,
       contribution' alg ws win data k =
       let '(re, im) := RealFFT ws (nth_frame ws win data k) in
       let root x := if (alg =? Alg.Autocorrelation)%Z then narrow (fsqrt x)
                     else narrow (fpow x (divf (narrow (i2d 1)) (narrow (i2d 3)))) in
       buffer ws
         (fst (RealFFT ws
                 (tabulate ws (fun n =>
                    root (addf (mulf (get re n) (get re n))
                            (mulf (get im n) (get im n)))))))) /\
    (forall i, (i < half)%nat ->
       get (mProcessed s') i = divf (acc i) (i2f windows)) /\
    is_min_max (mProcessed s') 0 half ymin ymax.
Proof.
  intros Halg.
  destruct Calculate_after_loop as (p & out & Hlp & Hlo & Hget & Hcalc).
  pose proof half_bounds as [Hh1 Hh2].
  rewrite Hcalc.
  assert (Hpost : post_process alg half (normalization ws win) windows p out =
                  post_autocorr half windows p).
  { unfold post_process. destruct Halg as [-> | ->]; reflexivity. }
  rewrite Hpost. unfold post_autocorr. cbv zeta.
  set (p1 := divide_by_windows half windows p).
  assert (Hl1 : length p1 = ws) by (unfold p1; now rewrite length_divide_by_windows).
  pose proof (@minmax_scan_correct F FA OA p1 0 half ltac:(lia)) as Hmm.
  cbv zeta in Hmm.
  destruct (minmax_scan 1 half p1 (get p1 0, get p1 0)) as [ymin ymax].
  simpl fst in Hmm. simpl snd in Hmm.
  do 3 eexists. split; [reflexivity|]. simpl mProcessed.
  split; [|split].
  - intros k. unfold contribution, autocorr_out, power_at.
    destruct Halg as [-> | ->]; simpl Z.eqb; simpl orb; cbv iota;
      destruct (RealFFT ws (nth_frame ws win data k)) as [re im];
      do 3 f_equal; unfold tabulate; rewrite map_map; apply map_ext_in;
      intros n Hn; apply in_seq in Hn; rewrite !get_buffer by lia;
      reflexivity.
  - intros i Hi. unfold p1. rewrite get_divide_by_windows, Hlp.
    rewrite !(proj2 (Nat.ltb_lt _ _)) by lia. simpl andb. cbv iota.
    rewrite Hget by lia. reflexivity.
  - exact Hmm.
Qed.

(** X4.  After a successful [Calculate] the stored buffer holds
    [windowSize] elements, and those of its upper half are zero: no
    algorithm writes past the first [windowSize / 2] bins. *)
Theorem upper_half_zero :
  exists s' v,
    Calculate' fuel s alg windowFunc W rate data D = Some (s', Some v) /\
    length (mProcessed s') = ws /\
    forall i, (half <= i < ws)%nat -> get (mProcessed s') i = narrow (i2d 0).
Proof.
  rewrite Calculate_accepted by assumption. cbv zeta.
  fold ws. fold win. fold windows. fold half.
  set (p0 := tabulate ws (fun _ => narrow (i2d 0))).
  set (o0 := tabulate ws (fun _ : nat => fzero)).
  pose proof (length_run_windows PowerSpectrum RealFFT InverseRealFFT
                (Z.to_nat windows) alg ws win data 0 p0 o0) as Hlp.
  assert (Hup : forall i, (half <= i)%nat ->
            get (fst (run_windows' (Z.to_nat windows) alg ws win data 0 p0 o0)) i
            = get p0 i).
  { intros i Hi. apply get_run_windows_upper. exact Hi. }
  destruct (run_windows' (Z.to_nat windows) alg ws win data 0 p0 o0) as [p out].
  cbn [fst] in Hlp, Hup.
  pose proof (length_post_process alg half (normalization ws win) windows p out) as Hl.
  assert (Hpost : forall i, (half <= i)%nat ->
            get (fst (post_process alg half (normalization ws win) windows p out)) i
            = get p i).
  { intros i Hi. apply get_post_process_upper. exact Hi. }
  destruct (post_process alg half (normalization ws win) windows p out)
    as [p' [ymin ymax]].
  cbn [fst] in Hl, Hpost.
  do 2 eexists. split; [reflexivity|]. cbn [mProcessed]. split.
  - rewrite Hl, Hlp. unfold p0. apply length_tabulate.
  - intros i [Hi1 Hi2]. rewrite Hpost, Hup by exact Hi1.
    unfold p0. rewrite get_tabulate by exact Hi2. reflexivity.
Qed.

(** X5.  In an accepted call every window that is processed lies within the
    data: sample [i] of window [k] is [win[i] * data[k * half + i]] with
    [k * half + i] below [dataLen], and the index does not wrap around. *)
Theorem frames_within_data (k i : nat) :
  (Z.of_nat k < windows)%Z -> (i < ws)%nat ->
  (k * half + i < N.to_nat D)%nat /\
  get (nth_frame ws win data k) i = mulf (get win i) (get data (k * half + i)).
Proof.
  clear Hfuel. intros Hk Hi.
  pose proof (proj1 (valid_params_spec _ _ _ _) Hvalid) as [HW _].
  assert (Hfits : (N.of_nat k * (W / 2) + W <= D)%N).
  { apply fits_below_count; [lia|exact Hdata|].
    unfold windows, window_count in Hk. lia. }
  assert (Hh : N.of_nat half = (W / 2)%N) by (unfold half, ws; apply half_to_nat).
  assert (Hws : N.of_nat ws = W) by (unfold ws; apply N2Nat.id).
  assert (Hidx : (N.of_nat k * (W / 2) + N.of_nat i < D)%N) by lia.
  split.
  - rewrite <- Hh in Hidx. nia.
  - unfold nth_frame. fold half. rewrite Hh.
    rewrite get_frame by (try exact Hi; lia).
    do 2 f_equal. rewrite N2Nat.inj_mul, Nat2N.id, <- Hh, Nat2N.id. reflexivity.
Qed.

End Accepted.

(** ** The engine over the real numbers *)

(** Reads the operations of the interface as operations on [R]. *)
Ltac ideal_arith :=
  unfold addf, subf, mulf, divf, i2f, i2d, fzero;
  change (@fadd R Ideal.Rarith) with Rplus;
  change (@fsub R Ideal.Rarith) with Rminus;
  change (@fmul R Ideal.Rarith) with Rmult;
  change (@fdiv R Ideal.Rarith) with Rdiv;
  change (@fneg R Ideal.Rarith) with Ropp;
  change (@flt R Ideal.Rarith) with Ideal.Rltb;
  change (@fle R Ideal.Rarith) with Ideal.Rleb;
  change (@fsqrt R Ideal.Rarith) with sqrt;
  change (@ffabs R Ideal.Rarith) with Rabs;
  change (@ftrunc R Ideal.Rarith) with Ideal.Rtrunc;
  change (@f_of_Z R Ideal.Rarith) with IZR;
  change (@narrow R Ideal.Rarith) with (fun x : R => x);
  cbv beta.

Section IdealFacts.

Import Ideal.
Open Scope R_scope.

Lemma Rltb_true (x y : R) : Rltb x y = true <-> x < y.
Proof. unfold Rltb. destruct (Rlt_dec x y); split; (congruence || tauto). Qed.

Lemma Rltb_false (x y : R) : Rltb x y = false <-> y <= x.
Proof.
  unfold Rltb. destruct (Rlt_dec x y); split; try congruence; try lra.
Qed.

Lemma Rleb_true (x y : R) : Rleb x y = true <-> x <= y.
Proof. unfold Rleb. destruct (Rle_dec x y); split; (congruence || tauto). Qed.

Lemma Rleb_false (x y : R) : Rleb x y = false <-> y < x.
Proof.
  unfold Rleb. destruct (Rle_dec x y); split; try congruence; try lra.
Qed.

#[global] Instance Rordered : OrderedArith R.
Proof.
  split; simpl.
  - intros x y. rewrite Rltb_true, Rltb_false. lra.
  - intros x y z. rewrite !Rltb_false. lra.
  - apply Rltb_false. lra.
Qed.

End IdealFacts.

(** ** The claims at concrete calls *)

(** A window of 32 samples over 32 samples of value one is accepted. *)
Lemma Calculate_fails_iff_invalid_witness :
  exists s' v,
    Sample.Calculate 33 SpectrumAnalyst_new Alg.Spectrum 0 32 44100%R Sample.ones 32
    = Some (s', v) /\ v <> None.
Proof.
  destruct (@Calculate_fails_iff_invalid R Ideal.Rarith Sample.NumWindowFuncs
              Sample.WindowFunc Sample.PowerSpectrum Sample.RealFFT
              Sample.InverseRealFFT 33 SpectrumAnalyst_new Alg.Spectrum 0 32
              44100%R Sample.ones 32)
    as (s' & v & Hc & Hiff & _).
  - vm_compute; reflexivity.
  - vm_compute; lia.
  - exists s', v. split; [exact Hc|].
    intros Hv. apply Hiff in Hv.
    unfold Sample.NumWindowFuncs in Hv. simpl in Hv.
    destruct Hv as [H|[H|[H|[H|H]]]]; lia.
Defined.

Lemma windows_at_least_one_witness :
  exists windows p out,
    window_loop Sample.PowerSpectrum Sample.RealFFT Sample.InverseRealFFT
      33 Alg.Spectrum 32 Sample.ones Sample.ones 32 0 0 Sample.ones Sample.ones
    = Some (windows, p, out) /\ (1 <= windows)%Z.
Proof.
  destruct (@windows_at_least_one R Ideal.Rarith Sample.NumWindowFuncs
              Sample.PowerSpectrum Sample.RealFFT Sample.InverseRealFFT
              33 Alg.Spectrum 0 32 Sample.ones Sample.ones 32 Sample.ones Sample.ones)
    as (w & p & out & Hl & _ & Hb & _).
  - reflexivity.
  - vm_compute; discriminate.
  - vm_compute; reflexivity.
  - vm_compute; lia.
  - exists w, p, out. split; [exact Hl|lia].
Defined.

Lemma GetProcessedSize_half_window_witness :
  exists s' v,
    Sample.Calculate 33 SpectrumAnalyst_new Alg.Cepstrum 3 32 44100%R Sample.ones 32
    = Some (s', v) /\ (v <> None -> GetProcessedSize s' = 16%Z).
Proof.
  destruct (@GetProcessedSize_half_window R Ideal.Rarith Sample.NumWindowFuncs
              Sample.WindowFunc Sample.PowerSpectrum Sample.RealFFT
              Sample.InverseRealFFT 33 SpectrumAnalyst_new Alg.Cepstrum 3 32
              44100%R Sample.ones 32)
    as (_ & s' & v & Hc & Hok & _).
  - vm_compute; reflexivity.
  - vm_compute; lia.
  - exists s', v. split; [exact Hc|exact Hok].
Defined.

Lemma enhanced_autocorrelation_curve_witness :
  exists s' ymin ymax,
    Sample.Calculate 33 SpectrumAnalyst_new Alg.EnhancedAutocorrelation 0 32
      44100%R Sample.ones 32 = Some (s', Some (ymin, ymax)) /\
    Ideal.Rltb ymin 0 = false.
Proof.
  destruct (@enhanced_autocorrelation_curve R Ideal.Rarith Sample.NumWindowFuncs
              Sample.WindowFunc Sample.PowerSpectrum Sample.RealFFT
              Sample.InverseRealFFT 33 SpectrumAnalyst_new
              Alg.EnhancedAutocorrelation 0 32 44100%R Sample.ones 32)
    as (s' & ymin & ymax & Hc & _ & _ & Hmin).
  - reflexivity.
  - vm_compute; discriminate.
  - vm_compute; reflexivity.
  - vm_compute; lia.
  - exact Rordered.
  - reflexivity.
  - exists s', ymin, ymax. split; [exact Hc|exact Hmin].
Defined.

Lemma cepstrum_curve_witness :
  exists s' ymin ymax,
    Sample.Calculate 33 SpectrumAnalyst_new Alg.Cepstrum 0 32
      44100%R Sample.ones 32 = Some (s', Some (ymin, ymax)) /\
    is_min_max (mProcessed s') 4 12 ymin ymax.
Proof.
  destruct (@cepstrum_curve R Ideal.Rarith Sample.NumWindowFuncs
              Sample.WindowFunc Sample.PowerSpectrum Sample.RealFFT
              Sample.InverseRealFFT 33 SpectrumAnalyst_new
              Alg.Cepstrum 0 32 44100%R Sample.ones 32)
    as (s' & ymin & ymax & Hc & _ & _ & Hmm & _).
  - reflexivity.
  - vm_compute; discriminate.
  - vm_compute; reflexivity.
  - vm_compute; lia.
  - exact Rordered.
  - reflexivity.
  - exists s', ymin, ymax. split; [exact Hc|exact Hmm].
Defined.

(** ** CubicMaximize *)

Section MaximizeFacts.

Import Ideal.
Open Scope R_scope.

Lemma cubic_a_real (y0 y1 y2 y3 : R) :
  cubic_a y0 y1 y2 y3 = (- y0 + 3 * y1 - 3 * y2 + y3) / 6.
Proof. unfold cubic_a, i2d. simpl. field. Qed.

Lemma cubic_b_real (y0 y1 y2 y3 : R) :
  cubic_b y0 y1 y2 y3 = (2 * y0 - 5 * y1 + 4 * y2 - y3) / 2.
Proof. unfold cubic_b, i2d. simpl. field. Qed.

Lemma cubic_c_real (y0 y1 y2 y3 : R) :
  cubic_c y0 y1 y2 y3 = (- 11 * y0 + 18 * y1 - 9 * y2 + 2 * y3) / 6.
Proof. unfold cubic_c, i2d. simpl. field. Qed.

Lemma discriminant_real (y0 y1 y2 y3 : R) :
  discriminant y0 y1 y2 y3 =
  (2 * cubic_b y0 y1 y2 y3) * (2 * cubic_b y0 y1 y2 y3)
  - 4 * (3 * cubic_a y0 y1 y2 y3) * cubic_c y0 y1 y2 y3.
Proof.
  unfold discriminant, deriv_a, deriv_b, deriv_c, subf, mulf, i2f. simpl. ring.
Qed.

(** The code, over the real numbers, in one piece. *)
Lemma CubicMaximize_real (y0 y1 y2 y3 m : R) :
  CubicMaximize y0 y1 y2 y3 m =
  let a := cubic_a y0 y1 y2 y3 in
  let b := cubic_b y0 y1 y2 y3 in
  let disc := discriminant y0 y1 y2 y3 in
  if Rlt_dec disc 0 then (-1, m)
  else
    let x1 := (- (2 * b) + sqrt disc) / (2 * (3 * a)) in
    let x2 := (- (2 * b) - sqrt disc) / (2 * (3 * a)) in
    if Rlt_dec (2 * (3 * a) * x1 + 2 * b) 0
    then (x1, Cubic.poly y0 y1 y2 y3 x1)
    else (x2, Cubic.poly y0 y1 y2 y3 x2).
Proof.
  unfold CubicMaximize, Cubic.poly, cubic_at, cubic_d, deriv_a, deriv_b.
  ideal_arith. unfold Rltb.
  destruct (Rlt_dec (discriminant y0 y1 y2 y3) 0); [reflexivity|].
  destruct (Rlt_dec _ 0); reflexivity.
Qed.

(** With a positive discriminant and a proper cubic the code leaves through
    its last branch, with the smaller-numerator root. *)
Lemma CubicMaximize_root (y0 y1 y2 y3 m : R) :
  0 < discriminant y0 y1 y2 y3 -> cubic_a y0 y1 y2 y3 <> 0 ->
  let x2 := (- (2 * cubic_b y0 y1 y2 y3) - sqrt (discriminant y0 y1 y2 y3))
            / (2 * (3 * cubic_a y0 y1 y2 y3)) in
  CubicMaximize y0 y1 y2 y3 m = (x2, Cubic.poly y0 y1 y2 y3 x2).
Proof.
  intros Hd Ha. cbv zeta. rewrite CubicMaximize_real. cbv zeta.
  destruct (Rlt_dec (discriminant y0 y1 y2 y3) 0) as [Hn|_]; [lra|].
  pose proof (sqrt_lt_R0 _ Hd) as Hs.
  destruct (Rlt_dec _ 0) as [Hlt|_]; [exfalso|reflexivity].
  replace (2 * (3 * cubic_a y0 y1 y2 y3) *
           ((- (2 * cubic_b y0 y1 y2 y3) + sqrt (discriminant y0 y1 y2 y3)) /
            (2 * (3 * cubic_a y0 y1 y2 y3))) + 2 * cubic_b y0 y1 y2 y3)
    with (sqrt (discriminant y0 y1 y2 y3)) in Hlt by (field; exact Ha).
  lra.
Qed.

(** C9, the claim as it stands, fails at the samples -6, 0, 6, 48 of the
    cubic [6 (x - 1)^3]: the discriminant is zero, the code returns the
    double root 1, and the second derivative there is zero, not negative. *)
Lemma maximize_as_specified_fails :
  ~ Cubic.maximize_as_specified (-6) 0 6 48.
Proof.
  unfold Cubic.maximize_as_specified.
  assert (Ha : cubic_a (-6) 0 6 48 = 6) by (rewrite cubic_a_real; lra).
  assert (Hb : cubic_b (-6) 0 6 48 = -18) by (rewrite cubic_b_real; lra).
  assert (Hc : cubic_c (-6) 0 6 48 = 18) by (rewrite cubic_c_real; lra).
  assert (Hd : discriminant (-6) 0 6 48 = 0)
    by (rewrite discriminant_real, Ha, Hb, Hc; lra).
  rewrite CubicMaximize_real. cbv zeta. rewrite Hd, Ha, Hb, sqrt_0.
  destruct (Rlt_dec 0 0) as [H|_]; [lra|].
  destruct (Rlt_dec _ 0) as [H|_].
  - exfalso. revert H. apply Rle_not_lt. right. field.
  - intros [_ H]. destruct (H ltac:(lra)) as [_ [H2 _]].
    unfold Cubic.poly'' in H2. rewrite Ha, Hb in H2. revert H2.
    apply Rle_not_lt. right. field.
Qed.

(** C9, amended.  [CubicMaximize] returns the sentinel [-1], and leaves
    [*max] as it was, when the discriminant is negative.  When the
    discriminant is positive and the leading coefficient is not zero, it
    returns a root of the derivative at which the second derivative is
    negative, and stores the value of the cubic there. *)
Theorem CubicMaximize_sentinel_or_maximum (y0 y1 y2 y3 m : R) :
  (discriminant y0 y1 y2 y3 < 0 -> CubicMaximize y0 y1 y2 y3 m = (-1, m)) /\
  (0 < discriminant y0 y1 y2 y3 -> cubic_a y0 y1 y2 y3 <> 0 ->
   let '(x, v) := CubicMaximize y0 y1 y2 y3 m in
   Cubic.poly' y0 y1 y2 y3 x = 0 /\ Cubic.poly'' y0 y1 y2 y3 x < 0 /\
   v = Cubic.poly y0 y1 y2 y3 x).
Proof.
  split.
  - intros Hd. rewrite CubicMaximize_real. cbv zeta.
    destruct (Rlt_dec (discriminant y0 y1 y2 y3) 0); [reflexivity|lra].
  - intros Hd Ha. rewrite (@CubicMaximize_root y0 y1 y2 y3 m Hd Ha).
    pose proof (sqrt_lt_R0 _ Hd) as Hs.
    pose proof (sqrt_sqrt (discriminant y0 y1 y2 y3) (Rlt_le _ _ Hd)) as Hss.
    rewrite discriminant_real in Hss at 3.
    set (sq := sqrt (discriminant y0 y1 y2 y3)) in *.
    set (a := cubic_a y0 y1 y2 y3) in *.
    set (b := cubic_b y0 y1 y2 y3) in *.
    set (c := cubic_c y0 y1 y2 y3) in *.
    unfold Cubic.poly', Cubic.poly''. fold a b c.
    split; [|split; [|reflexivity]].
    + replace (3 * a * ((- (2 * b) - sq) / (2 * (3 * a))) *
               ((- (2 * b) - sq) / (2 * (3 * a))) +
               2 * b * ((- (2 * b) - sq) / (2 * (3 * a))) + c)
        with ((sq * sq - (2 * b * (2 * b) - 4 * (3 * a) * c)) / (12 * a))
        by (field; exact Ha).
      rewrite Hss. field. exact Ha.
    + replace (6 * a * ((- (2 * b) - sq) / (2 * (3 * a))) + 2 * b)
        with (- sq) by (field; exact Ha).
      lra.
Qed.

(** The cubic [x^3 - 6 x^2 + 9 x] through 0, 4, 2, 0 has its maximum at 1. *)
Lemma CubicMaximize_sentinel_or_maximum_witness :
  0 < discriminant 0 4 2 0 /\ cubic_a 0 4 2 0 <> 0 /\
  let '(x, v) := CubicMaximize 0 4 2 0 0 in Cubic.poly'' 0 4 2 0 x < 0.
Proof.
  assert (Ha : cubic_a 0 4 2 0 = 1) by (rewrite cubic_a_real; lra).
  assert (Hb : cubic_b 0 4 2 0 = -6) by (rewrite cubic_b_real; lra).
  assert (Hc : cubic_c 0 4 2 0 = 9) by (rewrite cubic_c_real; lra).
  assert (Hd : 0 < discriminant 0 4 2 0)
    by (rewrite discriminant_real, Ha, Hb, Hc; lra).
  assert (Hn : cubic_a 0 4 2 0 <> 0) by (rewrite Ha; lra).
  split; [exact Hd|]. split; [exact Hn|].
  pose proof (proj2 (CubicMaximize_sentinel_or_maximum 0 4 2 0 0) Hd Hn) as H.
  destruct (CubicMaximize 0 4 2 0 0) as [x v]. apply H.
Defined.

(** C10.  Over the real numbers with a trapping division: on four equal
    samples the discriminant is zero, hence not negative, the sentinel exit
    is not taken, the divisor [2 * da] is zero, and both results of
    [CubicMaximize] are the outcome of a division by zero. *)
Theorem CubicMaximize_divides_by_zero (y : R) (m : option R) :
  let Y := Some y in
  discriminant Y Y Y Y = Some 0 /\
  flt (discriminant Y Y Y Y) (i2d 0) = false /\
  mulf (i2f 2) (deriv_a Y Y Y Y) = Some 0 /\
  CubicMaximize Y Y Y Y m = (None, None).
Proof.
  cbv zeta.
  assert (H6 : (-6)%R <> 0) by lra. assert (H2 : 2%R <> 0) by lra.
  assert (H6' : 6%R <> 0) by lra. assert (H3 : 3%R <> 0) by lra.
  assert (Ha : cubic_a (Some y) (Some y) (Some y) (Some y) = Some 0).
  { unfold cubic_a, i2d. simpl. unfold Trapping.div.
    destruct (Req_dec_T (-6) 0); [contradiction|].
    destruct (Req_dec_T 2 0); [contradiction|].
    destruct (Req_dec_T 6 0); [contradiction|].
    simpl. f_equal. field. }
  assert (Hb : cubic_b (Some y) (Some y) (Some y) (Some y) = Some 0).
  { unfold cubic_b, i2d. simpl. unfold Trapping.div.
    destruct (Req_dec_T 2 0); [contradiction|].
    simpl. f_equal. field. }
  assert (Hc : cubic_c (Some y) (Some y) (Some y) (Some y) = Some 0).
  { unfold cubic_c, i2d. simpl. unfold Trapping.div.
    destruct (Req_dec_T 6 0); [contradiction|].
    destruct (Req_dec_T 2 0); [contradiction|].
    destruct (Req_dec_T 3 0); [contradiction|].
    simpl. f_equal. field. }
  assert (Hda : deriv_a (Some y) (Some y) (Some y) (Some y) = Some 0).
  { unfold deriv_a, mulf, i2f. rewrite Ha. simpl. f_equal. ring. }
  assert (Hdb : deriv_b (Some y) (Some y) (Some y) (Some y) = Some 0).
  { unfold deriv_b, mulf, i2f. rewrite Hb. simpl. f_equal. ring. }
  assert (Hd : discriminant (Some y) (Some y) (Some y) (Some y) = Some 0).
  { unfold discriminant, deriv_c. rewrite Hda, Hdb, Hc.
    unfold subf, mulf, i2f. simpl. f_equal. ring. }
  assert (Hlt : Rltb 0 0 = false) by (apply Rltb_false; lra).
  repeat split.
  - exact Hd.
  - rewrite Hd. simpl. exact Hlt.
  - rewrite Hda. unfold mulf, i2f. simpl. f_equal. ring.
  - unfold CubicMaximize. rewrite Hd, Hda, Hdb, Ha, Hb, Hc.
    unfold cubic_at, addf, subf, mulf, divf, i2f, i2d. simpl. rewrite Hlt.
    unfold Trapping.div.
    destruct (Req_dec_T (2 * 0) 0) as [_|Hne]; [|exfalso; apply Hne; ring].
    reflexivity.
Qed.

End MaximizeFacts.

(** ** The reported minimum of the Spectrum case, at a concrete call *)

Section SpectrumExample.

Import Ideal.
Open Scope R_scope.

Let win : list R := window_coeffs Sample.WindowFunc 0 32.

Lemma sample_window (i : nat) : (i < 32)%nat -> get win i = 1.
Proof.
  intros Hi. unfold win, window_coeffs, Sample.WindowFunc.
  rewrite get_buffer, get_tabulate by exact Hi. reflexivity.
Qed.

Lemma sample_normalization : normalization 32 win = 1 / 256.
Proof.
  unfold normalization, window_sum, win, window_coeffs, buffer, Sample.WindowFunc.
  cbn [for_loop tabulate map seq get nth]. ideal_arith. unfold Rltb.
  destruct (Rlt_dec _ _); [field|lra].
Qed.

(** With kernels that hand their input back, one window accumulates the
    samples themselves. *)
Lemma sample_accumulated (data : list R) (i : nat) :
  (i < 32)%nat ->
  accumulated Sample.PowerSpectrum Sample.RealFFT Sample.InverseRealFFT
    Alg.Spectrum 32 win data 1 i = get data i.
Proof.
  intros Hi. unfold accumulated, contribution, nth_frame, Sample.PowerSpectrum.
  simpl Z.eqb. cbv iota. simpl for_loop.
  rewrite get_buffer by exact Hi.
  rewrite get_frame by (try exact Hi; simpl; lia).
  rewrite sample_window by exact Hi. ideal_arith. simpl Nat.add. lra.
Qed.

Lemma low_first_tail (i : nat) :
  (1 <= i < 32)%nat -> get Sample.low_first i = 2560.
Proof.
  intros Hi. destruct i as [|i]; [lia|].
  unfold Sample.low_first, get. cbn [nth]. apply nth_repeat_lt. lia.
Qed.

Lemma ln_10_pos : 0 < ln 10.
Proof. rewrite <- ln_1. apply ln_increasing; lra. Qed.

(** Bin 0 has 0 dB, every other bin has 10 dB, and the reported minimum is
    above bin 0. *)
Lemma spectrum_minimum_missed_witness :
  exists s' ymin ymax,
    Sample.Calculate 33 SpectrumAnalyst_new Alg.Spectrum 0 32 44100
      Sample.low_first 32 = Some (s', Some (ymin, ymax)) /\
    get (mProcessed s') 0 = 0 /\ get (mProcessed s') 1 = 10 /\
    get (mProcessed s') 0 < ymin.
Proof.
  assert (Hdb0 : decibels (fdiv (normalization 32 win) (i2d (window_count 32 32)))
                   (get Sample.low_first 0) = 0).
  { rewrite sample_normalization. unfold decibels. ideal_arith.
    change (window_count 32 32) with 1%Z.
    change (@flog10 R Rarith) with (fun x => ln x / ln 10). cbv beta.
    unfold Sample.low_first, get. simpl nth.
    replace (256 * (1 / 256 / 1)) with 1 by field.
    rewrite ln_1. field. pose proof ln_10_pos. lra. }
  assert (Hdbi : forall i, (1 <= i < 32)%nat ->
             decibels (fdiv (normalization 32 win) (i2d (window_count 32 32)))
               (get Sample.low_first i) = 10).
  { intros i Hi. rewrite sample_normalization, low_first_tail by exact Hi.
    unfold decibels. ideal_arith.
    change (window_count 32 32) with 1%Z.
    change (@flog10 R Rarith) with (fun x => ln x / ln 10). cbv beta.
    replace (2560 * (1 / 256 / 1)) with 10 by field.
    field. pose proof ln_10_pos. lra. }
  destruct (@spectrum_minimum_missed R Rarith Sample.NumWindowFuncs
              Sample.WindowFunc Sample.PowerSpectrum Sample.RealFFT
              Sample.InverseRealFFT 33 SpectrumAnalyst_new Alg.Spectrum 0 32
              44100 Sample.low_first 32)
    as (s' & ymin & ymax & Hc & H0 & Hall & Hlt).
  - reflexivity.
  - vm_compute; discriminate.
  - vm_compute; reflexivity.
  - vm_compute; lia.
  - reflexivity.
  - change (N.to_nat 32) with 32%nat. fold win.
    rewrite sample_accumulated by lia. rewrite Hdb0.
    ideal_arith. apply Rltb_true. lra.
  - change (N.to_nat 32) with 32%nat. fold win.
    rewrite sample_accumulated by lia. rewrite Hdb0.
    ideal_arith. apply Rltb_true. lra.
  - intros i Hi. change (N.to_nat 32) with 32%nat in *. fold win.
    change (32 / 2)%nat with 16%nat in Hi.
    rewrite !sample_accumulated by lia. rewrite Hdb0, Hdbi by lia.
    apply Rltb_true. lra.
  - exists s', ymin, ymax. split; [exact Hc|].
    change (N.to_nat 32) with 32%nat in *. fold win in H0, Hall.
    rewrite sample_accumulated in H0 by lia.
    specialize (Hall 1%nat ltac:(simpl; lia)).
    rewrite sample_accumulated in Hall by lia.
    rewrite Hdb0 in H0. rewrite Hdbi in Hall by lia.
    split; [exact H0|]. split; [exact Hall|].
    apply Rltb_true. exact Hlt.
Defined.

End SpectrumExample.

(** ** GetProcessedValue over the real numbers *)

(** Decides the innermost comparisons of [coverage] first. *)
Ltac coverage_cases :=
  unfold Query.coverage, Rmax, Rmin;
  repeat match goal with
         | |- context [Rle_dec ?a ?b] =>
             lazymatch a with
             | context [Rle_dec] => fail
             | _ => lazymatch b with
                    | context [Rle_dec] => fail
                    | _ => destruct (Rle_dec a b)
                    end
             end
         end;
  lra.

Section QueryFacts.

Import Ideal Query.
Open Scope R_scope.

Lemma Rtrunc_nonneg (x : R) : 0 <= x -> Rtrunc x = Zfloor x.
Proof. intros H. unfold Rtrunc. destruct (Rlt_dec x 0); [lra|reflexivity]. Qed.

Lemma Rtrunc_IZR (z : Z) : Rtrunc (IZR z) = z.
Proof.
  unfold Rtrunc. destruct (Rlt_dec (IZR z) 0).
  - unfold Zceil. rewrite ZfloorNZ. lia.
  - apply ZfloorZ.
Qed.

Lemma Rtrunc_eq (x : R) (z : Z) : 0 <= x -> IZR z <= x < IZR z + 1 -> Rtrunc x = z.
Proof. intros H0 H. rewrite Rtrunc_nonneg by exact H0. now apply Zfloor_eq. Qed.

Lemma getz_nonneg (p : list R) (z : Z) : (0 <= z)%Z -> getz p z = get p (Z.to_nat z).
Proof. intros H. unfold getz. destruct (Z.ltb_spec z 0); [lia|reflexivity]. Qed.

Lemma CubicInterpolate_real (y0 y1 y2 y3 x : R) :
  CubicInterpolate y0 y1 y2 y3 x = interpolating_cubic y0 y1 y2 y3 x.
Proof.
  unfold CubicInterpolate, interpolating_cubic, cubic_d.
  rewrite cubic_a_real, cubic_b_real, cubic_c_real. ideal_arith. field.
Qed.

Lemma to_bins_real (s : SpectrumAnalyst R) (freq0 freq1 : R) :
  to_bins s freq0 freq1 = (index_of s freq0, index_of s freq1).
Proof.
  unfold to_bins, index_of. destruct (mAlg s =? Alg.Spectrum)%Z; reflexivity.
Qed.

Lemma interp_base_clamp (size : Z) (binmid : R) :
  (5 <= size)%Z ->
  interp_base size binmid = clampZ 1 (size - 4) (Rtrunc binmid - 1).
Proof.
  intros Hs. unfold interp_base, clampZ. ideal_arith.
  destruct (Z.ltb_spec (Rtrunc binmid - 1) 1);
    destruct (Z.geb_spec 1 (size - 3));
    destruct (Z.geb_spec (Rtrunc binmid - 1) (size - 3)); lia.
Qed.

Lemma sum_from_snoc (p : list R) (a n : nat) :
  sum_from p a (S n) = sum_from p a n + get p (a + n).
Proof.
  revert a. induction n as [|n IH]; intros a.
  - simpl. rewrite Nat.add_0_r. lra.
  - change (sum_from p a (S (S n))) with (get p a + sum_from p (S a) (S n)).
    rewrite IH. simpl sum_from. rewrite Nat.add_succ_r. simpl Nat.add. lra.
Qed.

(** The loop over the full bins adds the bins from [b] up to [ibin1 - 1]. *)
Lemma sum_full_bins_real (p : list R) (ibin1 : Z) :
  forall (n : nat) (b : Z) (v : R) (fuel : nat),
    (0 <= b)%Z -> (n < fuel)%nat -> (Z.of_nat n = Z.max 0 (ibin1 - b))%Z ->
    sum_full_bins fuel p ibin1 (IZR b) v = Some (v + sum_from p (Z.to_nat b) n).
Proof.
  induction n as [|n IH]; intros b v fuel Hb Hfuel Hn;
    (destruct fuel as [|fuel]; [lia|]); simpl sum_full_bins; ideal_arith.
  - replace (Rltb (IZR b) (IZR ibin1)) with false.
    + simpl. f_equal. lra.
    + symmetry. apply Rltb_false. apply IZR_le. lia.
  - replace (Rltb (IZR b) (IZR ibin1)) with true.
    + rewrite Rtrunc_IZR, getz_nonneg by exact Hb.
      replace (IZR b + 1) with (IZR (b + 1)) by (rewrite plus_IZR; lra).
      rewrite IH by lia.
      replace (Z.to_nat (b + 1)) with (S (Z.to_nat b)) by lia.
      simpl sum_from. f_equal. lra.
    + symmetry. apply Rltb_true. apply IZR_lt. lia.
Qed.

Lemma IZR_nat_lt (a b : nat) :
  (a < b)%nat -> IZR (Z.of_nat a) + 1 <= IZR (Z.of_nat b).
Proof. intros H. rewrite <- plus_IZR. apply IZR_le. lia. Qed.

Lemma IZR_nat_nonneg (a : nat) : 0 <= IZR (Z.of_nat a).
Proof. apply IZR_le. lia. Qed.

(** Nothing is covered when the range is empty. *)
Lemma integral_empty (p : list R) (n : nat) (lo hi : R) :
  hi <= lo -> integral p n lo hi = 0.
Proof.
  intros H. induction n as [|n IH]; [reflexivity|].
  simpl. rewrite IH.
  assert (coverage lo hi n = 0) by coverage_cases. nra.
Qed.

(** A range inside one bin. *)
Lemma integral_single (p : list R) (n i : nat) (lo hi : R) :
  IZR (Z.of_nat i) <= lo -> lo <= hi -> hi <= IZR (Z.of_nat i) + 1 ->
  integral p n lo hi = if (i <? n)%nat then get p i * (hi - lo) else 0.
Proof.
  intros H1 H2 H3. induction n as [|n IH]; [reflexivity|].
  simpl integral. rewrite IH.
  destruct (Nat.ltb_spec i n) as [Hin|Hin].
  - pose proof (IZR_nat_lt Hin).
    replace (i <? S n)%nat with true by (symmetry; apply Nat.ltb_lt; lia).
    assert (coverage lo hi n = 0) by coverage_cases. nra.
  - destruct (Nat.eq_dec i n) as [->|Hne].
    + replace (n <? S n)%nat with true by (symmetry; apply Nat.ltb_lt; lia).
      assert (coverage lo hi n = hi - lo) by coverage_cases. nra.
    + assert (Hlt : (n < i)%nat) by lia. pose proof (IZR_nat_lt Hlt).
      replace (i <? S n)%nat with false by (symmetry; apply Nat.ltb_ge; lia).
      assert (coverage lo hi n = 0) by coverage_cases. nra.
Qed.

(** A range from inside bin [i0] to inside a later bin [i1]: the covered
    part of bin [i0], the bins in between, the covered part of bin [i1]. *)
Lemma integral_closed (p : list R) (i0 i1 : nat) (lo hi : R) :
  (i0 < i1)%nat ->
  IZR (Z.of_nat i0) <= lo < IZR (Z.of_nat i0) + 1 ->
  IZR (Z.of_nat i1) <= hi < IZR (Z.of_nat i1) + 1 ->
  forall n,
    integral p n lo hi =
    (if (i0 <? n)%nat then get p i0 * (IZR (Z.of_nat i0) + 1 - lo) else 0)
    + sum_from p (S i0) (Nat.min n i1 - S i0)
    + (if (i1 <? n)%nat then get p i1 * (hi - IZR (Z.of_nat i1)) else 0).
Proof.
  intros H01 Hlo Hhi. pose proof (IZR_nat_lt H01) as H01r.
  induction n as [|n IH]; [simpl; lra|].
  simpl integral. rewrite IH. clear IH.
  destruct (lt_eq_lt_dec n i0) as [[Hn|Hn]|Hn].
  - pose proof (IZR_nat_lt Hn).
    assert (Hc : coverage lo hi n = 0) by coverage_cases. rewrite Hc.
    replace (i0 <? n)%nat with false by (symmetry; apply Nat.ltb_ge; lia).
    replace (i0 <? S n)%nat with false by (symmetry; apply Nat.ltb_ge; lia).
    replace (i1 <? n)%nat with false by (symmetry; apply Nat.ltb_ge; lia).
    replace (i1 <? S n)%nat with false by (symmetry; apply Nat.ltb_ge; lia).
    replace (Nat.min n i1 - S i0)%nat with 0%nat by lia.
    replace (Nat.min (S n) i1 - S i0)%nat with 0%nat by lia.
    lra.
  - subst n.
    assert (Hc : coverage lo hi i0 = IZR (Z.of_nat i0) + 1 - lo) by coverage_cases.
    rewrite Hc.
    replace (i0 <? i0)%nat with false by (symmetry; apply Nat.ltb_ge; lia).
    replace (i0 <? S i0)%nat with true by (symmetry; apply Nat.ltb_lt; lia).
    replace (i1 <? i0)%nat with false by (symmetry; apply Nat.ltb_ge; lia).
    replace (i1 <? S i0)%nat with false by (symmetry; apply Nat.ltb_ge; lia).
    replace (Nat.min i0 i1 - S i0)%nat with 0%nat by lia.
    replace (Nat.min (S i0) i1 - S i0)%nat with 0%nat by lia.
    lra.
  - pose proof (IZR_nat_lt Hn).
    replace (i0 <? n)%nat with true by (symmetry; apply Nat.ltb_lt; lia).
    replace (i0 <? S n)%nat with true by (symmetry; apply Nat.ltb_lt; lia).
    destruct (lt_eq_lt_dec n i1) as [[Hn1|Hn1]|Hn1].
    + pose proof (IZR_nat_lt Hn1).
      assert (Hc : coverage lo hi n = 1) by coverage_cases. rewrite Hc.
      replace (i1 <? n)%nat with false by (symmetry; apply Nat.ltb_ge; lia).
      replace (i1 <? S n)%nat with false by (symmetry; apply Nat.ltb_ge; lia).
      replace (Nat.min (S n) i1 - S i0)%nat with (S (Nat.min n i1 - S i0)) by lia.
      rewrite sum_from_snoc.
      replace (S i0 + (Nat.min n i1 - S i0))%nat with n by lia.
      lra.
    + subst n.
      assert (Hc : coverage lo hi i1 = hi - IZR (Z.of_nat i1)) by coverage_cases.
      rewrite Hc.
      replace (i1 <? i1)%nat with false by (symmetry; apply Nat.ltb_ge; lia).
      replace (i1 <? S i1)%nat with true by (symmetry; apply Nat.ltb_lt; lia).
      replace (Nat.min (S i1) i1 - S i0)%nat with (Nat.min i1 i1 - S i0)%nat by lia.
      lra.
    + pose proof (IZR_nat_lt Hn1).
      assert (Hc : coverage lo hi n = 0) by coverage_cases. rewrite Hc.
      replace (i1 <? n)%nat with true by (symmetry; apply Nat.ltb_lt; lia).
      replace (i1 <? S n)%nat with true by (symmetry; apply Nat.ltb_lt; lia).
      replace (Nat.min (S n) i1 - S i0)%nat with (Nat.min n i1 - S i0)%nat by lia.
      lra.
Qed.

Lemma Zfloor_nat (x : R) :
  0 <= x ->
  (0 <= Zfloor x)%Z /\
  IZR (Z.of_nat (Z.to_nat (Zfloor x))) <= x < IZR (Z.of_nat (Z.to_nat (Zfloor x))) + 1.
Proof.
  intros H. assert (Hz : (0 <= Zfloor x)%Z) by (apply Zfloor_lub; exact H).
  split; [exact Hz|]. rewrite Z2Nat.id by exact Hz. apply Zfloor_bound.
Qed.

(** The integration branch computes the integral over the moved range. *)
Lemma integrate_bins_integral (fuel : nat) (p : list R) (size : Z)
    (bin0 bin1 : R) :
  (1 <= size)%Z -> (Z.to_nat size <= fuel)%nat ->
  0 <= bin1 -> 1 <= bin1 - bin0 ->
  integrate_bins fuel p size bin0 bin1 (bin1 - bin0) =
  Some (integral p (Z.to_nat size) (moved_start bin0) (moved_end size bin1)
        / (bin1 - bin0)).
Proof.
  intros Hsize Hfuel Hb1 Hbw.
  unfold integrate_bins. ideal_arith.
  change (if Rltb bin0 0 then 0 else bin0) with
    (if (if Rlt_dec bin0 0 then true else false) then 0 else bin0).
  change (if Rleb (IZR size) bin1 then IZR (size - 1) else bin1) with
    (if (if Rle_dec (IZR size) bin1 then true else false)
     then IZR (size - 1) else bin1).
  replace (if (if Rlt_dec bin0 0 then true else false) then 0 else bin0)
    with (moved_start bin0) by (unfold moved_start; destruct (Rlt_dec bin0 0); reflexivity).
  replace (if (if Rle_dec (IZR size) bin1 then true else false)
           then IZR (size - 1) else bin1)
    with (moved_end size bin1)
    by (unfold moved_end; destruct (Rle_dec (IZR size) bin1); reflexivity).
  set (lo := moved_start bin0). set (hi := moved_end size bin1).
  assert (Hlo0 : 0 <= lo) by (unfold lo, moved_start; destruct (Rlt_dec bin0 0); lra).
  assert (Hsz : 0 <= IZR (size - 1)) by (apply IZR_le; lia).
  assert (Hhi0 : 0 <= hi) by (unfold hi, moved_end; destruct (Rle_dec (IZR size) bin1); lra).
  assert (Hhis : hi < IZR size).
  { unfold hi, moved_end. destruct (Rle_dec (IZR size) bin1); [|lra].
    apply IZR_lt. lia. }
  rewrite !(Rtrunc_nonneg Hlo0), !(Rtrunc_nonneg Hhi0).
  destruct (Zfloor_nat Hlo0) as [Hi0 Hlob]. destruct (Zfloor_nat Hhi0) as [Hi1 Hhib].
  pose proof (Zfloor_bound hi) as Hhif. pose proof (Zfloor_bound lo) as Hlof.
  assert (Hi1s : (Zfloor hi < size)%Z) by (apply lt_IZR; lra).
  rewrite !getz_nonneg by lia.
  destruct (Z.gtb_spec (Zfloor hi) (Zfloor lo)) as [Hgt|Hle].
  - (* the range reaches a later bin *)
    rewrite (@sum_full_bins_real p (Zfloor hi)
               (Z.to_nat (Zfloor hi - (1 + Zfloor lo))) (1 + Zfloor lo)) by lia.
    rewrite (@integral_closed p (Z.to_nat (Zfloor lo)) (Z.to_nat (Zfloor hi)) lo hi
               ltac:(lia) Hlob Hhib).
    rewrite !(proj2 (Nat.ltb_lt _ _)) by lia.
    replace (Nat.min (Z.to_nat size) (Z.to_nat (Zfloor hi)) - S (Z.to_nat (Zfloor lo)))%nat
      with (Z.to_nat (Zfloor hi - (1 + Zfloor lo))) by lia.
    replace (Z.to_nat (1 + Zfloor lo)) with (S (Z.to_nat (Zfloor lo))) by lia.
    rewrite !Z2Nat.id by lia. rewrite plus_IZR.
    f_equal. lra.
  - (* the range stays within one bin, or is empty *)
    rewrite (@sum_full_bins_real p (Zfloor hi) 0 (1 + Zfloor lo)) by lia.
    simpl sum_from.
    destruct (Rle_dec (IZR size) bin1) as [Hcl|Hncl].
    + (* the end was moved to size - 1 *)
      assert (Hhi : hi = IZR (size - 1))
        by (unfold hi, moved_end; destruct (Rle_dec (IZR size) bin1); [reflexivity|contradiction]).
      assert (Hfl : Zfloor hi = (size - 1)%Z) by (rewrite Hhi; apply ZfloorZ).
      assert (Hlohi : hi <= lo).
      { assert (IZR (Zfloor hi) <= IZR (Zfloor lo)) by (apply IZR_le; lia).
        rewrite Hfl in *. lra. }
      rewrite integral_empty by exact Hlohi.
      f_equal. rewrite Hfl, <- Hhi. lra.
    + (* the end stayed: the start was moved to zero *)
      assert (Hhi : hi = bin1)
        by (unfold hi, moved_end; destruct (Rle_dec (IZR size) bin1); [contradiction|reflexivity]).
      assert (Hlo : lo = 0).
      { unfold lo, moved_start in *. destruct (Rlt_dec bin0 0); [reflexivity|exfalso].
        assert (Hfl : (Zfloor bin0 + 1 <= Zfloor hi)%Z).
        { rewrite <- Zfloor_addz. apply Zfloor_le. rewrite Hhi. lra. }
        lia. }
      assert (Hf0 : Zfloor lo = 0%Z) by (rewrite Hlo; apply (ZfloorZ 0)).
      assert (Hf1 : Zfloor hi = 0%Z) by lia.
      rewrite (@integral_single p (Z.to_nat size) 0 lo hi).
      * rewrite !(proj2 (Nat.ltb_lt _ _)) by lia.
        rewrite Hf1. simpl Z.to_nat. f_equal. rewrite Hlo. lra.
      * simpl. lra.
      * lra.
      * rewrite Hf1 in Hhif. simpl. lra.
Qed.

(** The two branches of [GetProcessedValue] over the real numbers. *)
Lemma GetProcessedValue_branches (fuel : nat) (s : SpectrumAnalyst R)
    (freq0 freq1 : R) :
  let size := GetProcessedSize s in
  let bin0 := index_of s freq0 in
  let bin1 := index_of s freq1 in
  (Z.to_nat size <= fuel)%nat ->
  (bin1 - bin0 < 1 -> (5 <= size)%Z ->
   GetProcessedValue fuel s freq0 freq1 = Some (interpolated s bin0 bin1)) /\
  (1 <= bin1 - bin0 -> (1 <= size)%Z -> 0 <= bin1 ->
   GetProcessedValue fuel s freq0 freq1 =
   Some (integral (mProcessed s) (Z.to_nat size)
           (moved_start bin0) (moved_end size bin1) / (bin1 - bin0))).
Proof.
  intros size bin0 bin1 Hfuel.
  unfold GetProcessedValue. rewrite to_bins_real. fold bin0 bin1. fold size.
  ideal_arith. unfold Rltb.
  split.
  - intros Hw Hs. destruct (Rlt_dec (bin1 - bin0) 1) as [_|Hn]; [|lra].
    rewrite interp_base_clamp by exact Hs.
    rewrite CubicInterpolate_real. reflexivity.
  - intros Hw Hs Hb1. destruct (Rlt_dec (bin1 - bin0) 1) as [Hn|_]; [lra|].
    apply integrate_bins_integral; assumption.
Qed.

(** Off the gap between [size - 1] and [size], moving the ends as the code
    does and clamping them to [0, size - 1] give the same integral. *)
Lemma moved_range_clamped (p : list R) (size : Z) (bin0 bin1 : R) :
  (1 <= size)%Z -> 1 <= bin1 - bin0 -> 0 <= bin1 ->
  ~ (IZR (size - 1) < bin1 < IZR size) ->
  integral p (Z.to_nat size) (moved_start bin0) (moved_end size bin1) =
  integral p (Z.to_nat size)
    (clampR 0 (IZR (size - 1)) bin0) (clampR 0 (IZR (size - 1)) bin1).
Proof.
  intros Hs Hw Hb1 Hgap.
  assert (Hsz : IZR size = IZR (size - 1) + 1) by (rewrite minus_IZR; lra).
  assert (H0 : 0 <= IZR (size - 1)) by (apply IZR_le; lia).
  unfold moved_start, moved_end, clampR.
  destruct (Rle_dec (IZR size) bin1) as [Hc|Hc].
  - rewrite (Rmin_left (IZR (size - 1)) bin1) by lra.
    rewrite (Rmax_right 0 (IZR (size - 1))) by lra.
    destruct (Rle_dec bin0 (IZR (size - 1))) as [Hb0|Hb0].
    + rewrite (Rmin_right (IZR (size - 1)) bin0) by lra.
      destruct (Rlt_dec bin0 0);
        [rewrite Rmax_left by lra|rewrite Rmax_right by lra]; reflexivity.
    + rewrite (Rmin_left (IZR (size - 1)) bin0) by lra.
      rewrite (Rmax_right 0 (IZR (size - 1))) by lra.
      destruct (Rlt_dec bin0 0); [lra|].
      rewrite !integral_empty by lra. reflexivity.
  - rewrite (Rmin_right (IZR (size - 1)) bin1) by lra.
    rewrite (Rmax_right 0 bin1) by lra.
    rewrite (Rmin_right (IZR (size - 1)) bin0) by lra.
    destruct (Rlt_dec bin0 0);
      [rewrite Rmax_left by lra|rewrite Rmax_right by lra]; reflexivity.
Qed.

Lemma flat_curve_get (i : nat) : (i < 32)%nat -> get (mProcessed flat_curve) i = 1.
Proof. intros Hi. unfold flat_curve, get. cbn [mProcessed]. now apply nth_repeat_lt. Qed.

Lemma flat_curve_size : GetProcessedSize flat_curve = 16%Z.
Proof. reflexivity. Qed.

Lemma flat_curve_index (x : R) : index_of flat_curve x = x.
Proof. unfold index_of, flat_curve. simpl. lra. Qed.

(** The integral of the flat curve from 10 to an end inside bin 15. *)
Lemma flat_curve_integral (hi : R) :
  15 <= hi < 16 ->
  integral (mProcessed flat_curve) 16 10 hi = hi - 10.
Proof.
  intros Hhi.
  rewrite (@integral_closed (mProcessed flat_curve) 10 15 10 hi);
    [|lia|simpl; lra|simpl; lra].
  simpl Nat.ltb. cbv iota. simpl Nat.sub. simpl sum_from.
  rewrite !flat_curve_get by lia. simpl. lra.
Qed.

(** C3, the claim as it stands, fails on the flat curve of sixteen bins for
    the range from index 10 to index 15.5: the code does not move an end
    below [size], integrates up to 15.5 and returns 1, where the range
    clamped to [0, 15] gives 5 / 5.5. *)
Lemma query_as_specified_fails : ~ query_as_specified flat_curve 10 (31 / 2).
Proof.
  intros H. specialize (H 16%nat ltac:(rewrite flat_curve_size; simpl; lia)).
  pose proof (@GetProcessedValue_branches 16 flat_curve 10 (31 / 2)) as Hb.
  cbv zeta in Hb. rewrite flat_curve_size, !flat_curve_index in Hb.
  destruct (Hb ltac:(simpl; lia)) as [_ Hint].
  rewrite Hint in H by (try lra; lia). clear Hb Hint.
  unfold value_as_specified in H.
  rewrite flat_curve_size, !flat_curve_index in H.
  destruct (Rlt_dec (31 / 2 - 10) 1) as [Hlt|_]; [lra|].
  unfold moved_start, moved_end, clampR in H.
  destruct (Rlt_dec 10 0) as [Hlt|_]; [lra|].
  destruct (Rle_dec 16 (31 / 2)) as [Hle|_]; [lra|].
  change (IZR (16 - 1)) with 15 in H.
  rewrite (Rmin_right 15 10), (Rmax_right 0 10) in H by lra.
  rewrite (Rmin_left 15 (31 / 2)), (Rmax_right 0 15) in H by lra.
  change (Z.to_nat 16) with 16%nat in H.
  rewrite !flat_curve_integral in H by lra.
  injection H as H. lra.
Qed.

(** C3, amended.  On a curve of at least five bins, with the range mapped to
    index space: if the index span is below 1 the result is the cubic
    through four bins at the midpoint index, the base index clamped into
    [1, size - 4]; otherwise, for an end index that is not negative, it is
    the integral of the curve from the start index, raised to 0 when
    negative, to the end index, replaced by [size - 1] when it is [size] or
    more, divided by the span.  Unless the end index lies strictly between
    [size - 1] and [size], that is the integral over the range clamped to
    [0, size - 1]. *)
Theorem GetProcessedValue_interpolates_or_integrates (fuel : nat)
    (s : SpectrumAnalyst R) (freq0 freq1 : R) :
  let size := GetProcessedSize s in
  let bin0 := index_of s freq0 in
  let bin1 := index_of s freq1 in
  (5 <= size)%Z -> (Z.to_nat size <= fuel)%nat ->
  (bin1 - bin0 < 1 ->
   GetProcessedValue fuel s freq0 freq1 = Some (value_as_specified s freq0 freq1) /\
   value_as_specified s freq0 freq1 = interpolated s bin0 bin1 /\
   (1 <= clampZ 1 (size - 4) (Rtrunc ((bin0 + bin1) / 2) - 1) <= size - 4)%Z) /\
  (1 <= bin1 - bin0 -> 0 <= bin1 ->
   GetProcessedValue fuel s freq0 freq1 =
   Some (integral (mProcessed s) (Z.to_nat size)
           (moved_start bin0) (moved_end size bin1) / (bin1 - bin0)) /\
   (~ (IZR (size - 1) < bin1 < IZR size) ->
    GetProcessedValue fuel s freq0 freq1 = Some (value_as_specified s freq0 freq1))).
Proof.
  intros size bin0 bin1 Hs Hfuel.
  pose proof (@GetProcessedValue_branches fuel s freq0 freq1) as Hb.
  cbv zeta in Hb. fold size bin0 bin1 in Hb.
  destruct (Hb Hfuel) as [Hinterp Hint]. clear Hb.
  split.
  - intros Hw. rewrite Hinterp by assumption.
    unfold value_as_specified. fold size bin0 bin1.
    destruct (Rlt_dec (bin1 - bin0) 1) as [_|Hn]; [|lra].
    split; [reflexivity|]. split; [reflexivity|]. unfold clampZ. lia.
  - intros Hw Hb1. rewrite Hint by (try assumption; lia).
    split; [reflexivity|]. intros Hgap.
    unfold value_as_specified. fold size bin0 bin1.
    destruct (Rlt_dec (bin1 - bin0) 1) as [Hn|_]; [lra|].
    rewrite moved_range_clamped by (try assumption; lia). reflexivity.
Qed.

(** On the flat curve the range from index 10 to index 14 has mean 1. *)
Lemma GetProcessedValue_interpolates_or_integrates_witness :
  GetProcessedValue 16 flat_curve 10 14 = Some (value_as_specified flat_curve 10 14).
Proof.
  pose proof (@GetProcessedValue_interpolates_or_integrates 16 flat_curve 10 14) as H.
  cbv zeta in H. rewrite flat_curve_size, !flat_curve_index in H.
  destruct (H ltac:(lia) ltac:(simpl; lia)) as [_ Hint].
  destruct (Hint ltac:(lra) ltac:(lra)) as [_ Hspec].
  apply Hspec. change (IZR (16 - 1)) with 15. lra.
Defined.

End QueryFacts.

(** ** FindPeak over the real numbers *)

(** Decides the comparisons between numerals. *)
Ltac decide_Rltb :=
  repeat match goal with
         | |- context [Ideal.Rltb ?a ?b] =>
             first [ rewrite (proj2 (Rltb_true a b)) by lra
                   | rewrite (proj2 (Rltb_false a b)) by lra ]
         end.

(** Reads bins at closed indices out of a curve that is written out. *)
Ltac read_bins :=
  unfold getz, get;
  repeat match goal with
         | |- context [Z.to_nat ?z] =>
             let n := eval vm_compute in (Z.to_nat z) in
             change (Z.to_nat z) with n
         end;
  repeat match goal with
         | |- context [Z.ltb ?a ?b] =>
             let v := eval vm_compute in (Z.ltb a b) in
             change (Z.ltb a b) with v
         end;
  cbn [nth app repeat].

Section PeakFacts.

Import Ideal Peak.
Open Scope R_scope.

(** The loop of [FindPeak] selects among the candidates it detects. *)
Lemma FindPeak_loop_select (s : SpectrumAnalyst R) (xPos : R) :
  forall (n : nat) (bin : Z) (up : bool) (b : best R),
    FindPeak_loop n s xPos bin up b =
    select xPos (map (candidate s) (detect (mProcessed s) n bin up)) b.
Proof.
  induction n as [|n IH]; intros bin up b; [reflexivity|].
  simpl FindPeak_loop. simpl detect. ideal_arith.
  fold (rising (mProcessed s) bin).
  destruct (negb (rising (mProcessed s) bin) && up)%bool.
  - simpl map. simpl select. unfold dist.
    destruct (candidate s bin) as [thispeak valueAtMax]. simpl fst. simpl snd.
    unfold Rltb.
    destruct (Rlt_dec (Rabs (thispeak - xPos)) (bestdist b)); [|apply IH].
    destruct (Rlt_dec xPos thispeak); [reflexivity|apply IH].
  - apply IH.
Qed.

(** With the flag [up] telling whether the curve rose into the sample
    before [bin], the loop detects the bins of [maximum_before]. *)
Lemma detect_filter (p : list R) :
  forall (n : nat) (bin : Z) (up : bool),
    up = rising p (bin - 1) ->
    detect p n bin up =
    filter (maximum_before p) (map (fun k => (bin + Z.of_nat k)%Z) (seq 0 n)).
Proof.
  induction n as [|n IH]; intros bin up Hup; [reflexivity|].
  simpl detect. simpl seq. simpl map. simpl filter.
  rewrite Z.add_0_r. unfold maximum_before at 1. rewrite <- Hup.
  rewrite (Bool.andb_comm up).
  rewrite <- seq_shift, map_map.
  rewrite (IH (bin + 1)%Z (rising p bin))
    by (f_equal; lia).
  assert (Hmap : map (fun k => (bin + 1 + Z.of_nat k)%Z) (seq 0 n) =
                 map (fun k => (bin + Z.of_nat (S k))%Z) (seq 0 n)).
  { apply map_ext. intros k. lia. }
  rewrite Hmap. reflexivity.
Qed.

Lemma select_no_update (x : R) (cs : list cand) (b : best R) :
  Forall (fun c => bestdist b <= dist x c) cs -> select x cs b = b.
Proof.
  induction 1 as [|c cs Hc _ IH]; [reflexivity|].
  simpl. destruct (Rlt_dec (dist x c) (bestdist b)); [lra|exact IH].
Qed.

(** On candidates in increasing order of position the loop ends with the
    nearest candidate up to the first one beyond [x], if that is nearer than
    the best it started from. *)
Lemma select_nearest (x : R) (cs : list cand) :
  StronglySorted (fun c c' => fst c <= fst c') cs ->
  forall b, select x cs b = improve x b (nearest x (upto_overshoot x cs)).
Proof.
  induction 1 as [|c cs Hs IH Hall]; intros b; [reflexivity|].
  simpl select. simpl upto_overshoot.
  destruct (Rlt_dec x (fst c)) as [Hover|Hunder].
  - simpl nearest. simpl improve.
    destruct (Rlt_dec (dist x c) (bestdist b)) as [Hb|Hb]; [reflexivity|].
    apply select_no_update. apply Forall_forall. intros c' Hin.
    rewrite Forall_forall in Hall. specialize (Hall c' Hin). simpl in Hall.
    unfold dist in *.
    rewrite (Rabs_right (fst c' - x)) by lra.
    rewrite (Rabs_right (fst c - x)) in Hb by lra. lra.
  - simpl nearest.
    destruct (Rlt_dec (dist x c) (bestdist b)) as [Hb|Hb]; rewrite IH;
      destruct (nearest x (upto_overshoot x cs)) as [c'|];
      unfold improve; cbn [bestdist];
      repeat match goal with
             | |- context [Rlt_dec ?u ?v] => destruct (Rlt_dec u v)
             end;
      try reflexivity; lra.
Qed.

(** [FindPeak] as a selection among the detected candidates. *)
Lemma FindPeak_select (s : SpectrumAnalyst R) (xPos : R) :
  FindPeak s xPos =
  let p := mProcessed s in
  let b := select xPos
             (map (candidate s)
                (detect p (Z.to_nat (GetProcessedSize s - 1 - 3)) 3
                   (Rltb (getz p 0) (getz p 1))))
             (mkBest 0 1000000 0) in
  (bestpeak b, bestValue b).
Proof.
  unfold FindPeak. cbv zeta. ideal_arith.
  destruct (Z.gtb_spec (GetProcessedSize s) 1) as [Hs|Hs].
  - rewrite FindPeak_loop_select. reflexivity.
  - replace (Z.to_nat (GetProcessedSize s - 1 - 3)) with 0%nat by lia.
    reflexivity.
Qed.

Lemma sqrt_4 : sqrt 4 = 2.
Proof. replace 4 with (2 * 2) by lra. apply sqrt_square. lra. Qed.

(** The candidate the code refines at the end of the first plateau: the
    cubic [x^3 - 5 x^2 + 8 x] through 0, 4, 4, 6 has its maximum at 4/3. *)
Lemma plateau_candidate : candidate plateau_curve 6 = (16 / 3, 112 / 27).
Proof.
  unfold candidate, plateau_curve. cbn [mProcessed mAlg mRate mWindowSize].
  read_bins. change (Alg.Autocorrelation =? Alg.Spectrum)%Z with false. cbv iota.
  assert (Ha : cubic_a 0 4 4 6 = 1) by (rewrite cubic_a_real; lra).
  assert (Hb : cubic_b 0 4 4 6 = -5) by (rewrite cubic_b_real; lra).
  assert (Hc : cubic_c 0 4 4 6 = 8) by (rewrite cubic_c_real; lra).
  assert (Hd : discriminant 0 4 4 6 = 4)
    by (rewrite discriminant_real, Ha, Hb, Hc; lra).
  rewrite CubicMaximize_root by (rewrite ?Hd, ?Ha; lra).
  unfold Cubic.poly, cubic_d. rewrite Hd, Ha, Hb, Hc, sqrt_4.
  ideal_arith. change (IZR (6 - 2)) with 4. f_equal; field.
Qed.

Lemma plateau_detect :
  detect (mProcessed plateau_curve) 12 3
    (Rltb (getz (mProcessed plateau_curve) 0) (getz (mProcessed plateau_curve) 1))
  = [6%Z; 8%Z].
Proof.
  unfold plateau_curve. cbn [mProcessed detect].
  unfold rising. read_bins. decide_Rltb. reflexivity.
Qed.

Lemma plateau_no_strict_maximum :
  filter (strict_maximum_before (mProcessed plateau_curve)) (bins plateau_curve) = [].
Proof.
  unfold bins. change (GetProcessedSize plateau_curve) with 16%Z.
  change (Z.to_nat (16 - 1 - 3)) with 12%nat.
  unfold plateau_curve. cbn [mProcessed map seq filter].
  unfold strict_maximum_before, rising. read_bins. decide_Rltb. reflexivity.
Qed.

(** C4, the claim as it stands, fails on a curve that rises to a plateau:
    no sample is strictly greater than both its neighbours, so that the
    result should be the pair of zeros, but the code takes the end of the
    plateau for a maximum and returns the position 16/3. *)
Lemma search_as_specified_fails : ~ search_as_specified plateau_curve 5.
Proof.
  unfold search_as_specified, peak_as_specified.
  rewrite plateau_no_strict_maximum. simpl.
  rewrite FindPeak_select. cbv zeta.
  change (GetProcessedSize plateau_curve) with 16%Z.
  change (Z.to_nat (16 - 1 - 3)) with 12%nat.
  rewrite plateau_detect. cbn [map]. rewrite plateau_candidate.
  cbn [select fst snd bestdist]. unfold dist. cbn [fst snd].
  destruct (Rlt_dec (Rabs (16 / 3 - 5)) 1000000) as [_|Hn].
  - destruct (Rlt_dec 5 (16 / 3)) as [_|Hn]; [|lra].
    cbn [bestpeak bestValue]. intros H. injection H as H _. lra.
  - exfalso. apply Hn. rewrite Rabs_right by lra. lra.
Qed.

(** With a rise before and no rise after, and a leading coefficient other
    than zero, the discriminant is positive and the maximum that
    [CubicMaximize] returns lies between the first and the third sample. *)
Lemma CubicMaximize_between (y0 y1 y2 y3 m : R) :
  y0 < y1 -> y2 <= y1 -> cubic_a y0 y1 y2 y3 <> 0 ->
  0 < discriminant y0 y1 y2 y3 /\
  0 < fst (CubicMaximize y0 y1 y2 y3 m) < 2.
Proof.
  intros Hup Hdown Ha.
  assert (HA : cubic_a y0 y1 y2 y3 + cubic_b y0 y1 y2 y3 + cubic_c y0 y1 y2 y3
               = y1 - y0)
    by (rewrite cubic_a_real, cubic_b_real, cubic_c_real; field).
  assert (HB : 7 * cubic_a y0 y1 y2 y3 + 3 * cubic_b y0 y1 y2 y3
               + cubic_c y0 y1 y2 y3 = y2 - y1)
    by (rewrite cubic_a_real, cubic_b_real, cubic_c_real; field).
  pose proof (discriminant_real y0 y1 y2 y3) as Hdisc.
  set (a := cubic_a y0 y1 y2 y3) in *.
  set (b := cubic_b y0 y1 y2 y3) in *.
  set (c := cubic_c y0 y1 y2 y3) in *.
  set (disc := discriminant y0 y1 y2 y3) in *.
  assert (Hd : 0 < disc).
  { destruct (Rlt_le_dec 0 disc) as [H|H]; [exact H|exfalso].
    destruct (Rtotal_order a 0) as [Hneg|[H0|Hpos]]; [|contradiction|].
    - (* a < 0: the derivative is nowhere positive *)
      pose proof (Rle_0_sqr (2 * b + 3 * a)) as Hsq. unfold Rsqr in Hsq.
      assert (Haa : 0 < a * a) by nra.
      assert (HaA : a * (a + b + c) < 0) by (apply Ropp_lt_cancel; nra).
      nra.
    - pose proof (Rle_0_sqr (2 * b + 9 * a)) as Hsq. unfold Rsqr in Hsq.
      assert (Haa : 0 < a * a) by nra.
      assert (HaB : a * (7 * a + 3 * b + c) <= 0) by nra.
      nra. }
  split; [exact Hd|].
  rewrite (@CubicMaximize_root y0 y1 y2 y3 m Hd Ha). cbn [fst].
  fold a b disc.
  pose proof (sqrt_lt_R0 _ Hd) as Hs.
  pose proof (sqrt_sqrt disc (Rlt_le _ _ Hd)) as Hss.
  set (sq := sqrt disc) in *.
  set (r := (- (2 * b) - sq) / (2 * (3 * a))).
  assert (Hr : 6 * a * r = - (2 * b) - sq) by (unfold r; field; exact Ha).
  destruct (Rtotal_order a 0) as [Hneg|[H0|Hpos]]; [|contradiction|].
  - (* a < 0 *)
    assert (HP : 12 * a + 4 * b + c < 0) by lra.
    assert (Hb6 : b < - 6 * a) by (destruct (Rle_lt_dec b 0); lra).
    assert (Hlo : - (2 * b) < sq).
    { destruct (Rle_lt_dec 0 b) as [Hb|Hb]; [lra|].
      assert (0 < c) by lra.
      assert (0 < sq * sq - (2 * b) * (2 * b)) by nra.
      nra. }
    assert (Hhi : sq < - (2 * b) - 12 * a).
    { assert (0 < (2 * b + 12 * a) * (2 * b + 12 * a) - sq * sq) by nra.
      nra. }
    split; nra.
  - (* 0 < a *)
    assert (Hb3 : b < - 3 * a) by lra.
    assert (Hc : 0 < c) by lra.
    assert (Hlo : sq < - (2 * b)).
    { assert (0 < (2 * b) * (2 * b) - sq * sq) by nra.
      nra. }
    assert (Hhi : - (2 * b) - 12 * a < sq).
    { destruct (Rle_lt_dec (- (2 * b) - 12 * a) 0) as [Hn|Hp]; [lra|].
      assert (HP : 12 * a + 4 * b + c < 0) by lra.
      assert (0 < sq * sq - (2 * b + 12 * a) * (2 * b + 12 * a)) by nra.
      nra. }
    split; nra.
Qed.

Lemma position_of_increasing (s : SpectrumAnalyst R) (i j : R) :
  positive_scale s -> i < j -> position_of s i < position_of s j.
Proof.
  intros [Hrate HW] Hij. unfold position_of.
  assert (Hinv : 0 < / mRate s) by (apply Rinv_0_lt_compat; exact Hrate).
  destruct (mAlg s =? Alg.Spectrum)%Z.
  - assert (HWr : 0 < IZR (Z.of_N (mWindowSize s)))
      by (apply IZR_lt; specialize (HW eq_refl); lia).
    assert (HWi : 0 < / IZR (Z.of_N (mWindowSize s)))
      by (apply Rinv_0_lt_compat; exact HWr).
    unfold Rdiv. apply Rmult_lt_compat_r; [exact HWi|].
    apply Rmult_lt_compat_r; assumption.
  - unfold Rdiv. apply Rmult_lt_compat_r; assumption.
Qed.

(** A candidate is the value of the refined maximum, at the position of
    its refined index. *)
Lemma candidate_refined (s : SpectrumAnalyst R) (bin : Z) :
  let p := mProcessed s in
  candidate s bin =
  (position_of s
     (IZR (bin - 2)
      + fst (CubicMaximize (getz p (bin - 2)) (getz p (bin - 1))
               (getz p bin) (getz p (bin + 1)) 0)),
   snd (CubicMaximize (getz p (bin - 2)) (getz p (bin - 1))
          (getz p bin) (getz p (bin + 1)) 0)).
Proof.
  cbv zeta. unfold candidate, position_of. cbv zeta.
  change (narrow (i2d 0)) with 0.
  replace (bin - 2 + 1)%Z with (bin - 1)%Z by lia.
  replace (bin - 2 + 2)%Z with bin by lia.
  replace (bin - 2 + 3)%Z with (bin + 1)%Z by lia.
  destruct (CubicMaximize _ _ _ _ 0) as [x v]. cbn [fst snd].
  destruct (mAlg s =? Alg.Spectrum)%Z; ideal_arith; reflexivity.
Qed.

(** The refined maximum found at [bin] lies between the indices [bin - 2]
    and [bin]. *)
Lemma candidate_between (s : SpectrumAnalyst R) (bin : Z) :
  positive_scale s ->
  maximum_before (mProcessed s) bin = true ->
  proper_cubic (mProcessed s) bin ->
  position_of s (IZR (bin - 2)) < fst (candidate s bin)
  < position_of s (IZR bin).
Proof.
  intros Hscale Hmax Hproper.
  unfold maximum_before, rising in Hmax.
  apply Bool.andb_true_iff in Hmax. destruct Hmax as [Hup Hdown].
  apply Rltb_true in Hup. apply Bool.negb_true_iff in Hdown.
  apply Rltb_false in Hdown.
  unfold proper_cubic in Hproper.
  rewrite candidate_refined. cbv zeta. cbn [fst].
  replace (bin - 1 - 1)%Z with (bin - 2)%Z in Hup by lia.
  set (y0 := getz (mProcessed s) (bin - 2)) in *.
  set (y1 := getz (mProcessed s) (bin - 1)) in *.
  set (y2 := getz (mProcessed s) bin) in *.
  set (y3 := getz (mProcessed s) (bin + 1)) in *.
  assert (Ha : cubic_a y0 y1 y2 y3 <> 0) by (rewrite cubic_a_real; lra).
  destruct (@CubicMaximize_between y0 y1 y2 y3 0 Hup Hdown Ha) as [_ [Hlo Hhi]].
  split; apply position_of_increasing; try exact Hscale; try lra.
  rewrite minus_IZR. lra.
Qed.

Lemma maximum_before_apart (p : list R) (bin : Z) :
  maximum_before p bin = true -> maximum_before p (bin + 1) = false.
Proof.
  unfold maximum_before. intros H.
  apply Bool.andb_true_iff in H. destruct H as [_ H].
  apply Bool.negb_true_iff in H.
  replace (bin + 1 - 1)%Z with bin by lia. rewrite H. reflexivity.
Qed.

(** Candidates found at later bins lie at later positions. *)
Lemma candidates_in_order (s : SpectrumAnalyst R) (bin bin' : Z) :
  positive_scale s ->
  maximum_before (mProcessed s) bin = true ->
  maximum_before (mProcessed s) bin' = true ->
  proper_cubic (mProcessed s) bin -> proper_cubic (mProcessed s) bin' ->
  (bin < bin')%Z ->
  fst (candidate s bin) <= fst (candidate s bin').
Proof.
  intros Hscale Hm Hm' Hp Hp' Hlt.
  assert (Hapart : (bin + 2 <= bin')%Z).
  { destruct (Z.eq_dec bin' (bin + 1)) as [->|]; [|lia].
    rewrite (@maximum_before_apart _ _ Hm) in Hm'. discriminate. }
  pose proof (@candidate_between s bin Hscale Hm Hp) as [_ Hhi].
  pose proof (@candidate_between s bin' Hscale Hm' Hp') as [Hlo _].
  assert (Hle : IZR bin <= IZR (bin' - 2)) by (apply IZR_le; lia).
  destruct Hle as [Hl|He].
  - pose proof (@position_of_increasing s _ _ Hscale Hl). lra.
  - rewrite He in Hhi. lra.
Qed.

Lemma sorted_map_filter (f : Z -> cand) (P : Z -> bool) (Q : Z -> Prop) :
  (forall b b', P b = true -> P b' = true -> Q b -> Q b' -> (b < b')%Z ->
                fst (f b) <= fst (f b')) ->
  forall l,
    StronglySorted Z.lt l ->
    Forall Q (filter P l) ->
    StronglySorted (fun c c' => fst c <= fst c') (map f (filter P l)).
Proof.
  intros Hord l Hl. induction Hl as [|b l Hl IH Hall]; intros HQ.
  - constructor.
  - simpl in *. destruct (P b) eqn:HP.
    + simpl. inversion HQ as [|? ? HQb HQl]; subst.
      constructor; [apply IH; exact HQl|].
      apply Forall_forall. intros c Hc.
      apply in_map_iff in Hc. destruct Hc as (b' & <- & Hin).
      apply filter_In in Hin. destruct Hin as [Hin HP'].
      rewrite Forall_forall in Hall, HQl.
      apply Hord; try assumption.
      * apply HQl. apply filter_In. split; assumption.
      * apply Hall. exact Hin.
    + apply IH. exact HQ.
Qed.

Lemma bins_sorted (s : SpectrumAnalyst R) : StronglySorted Z.lt (bins s).
Proof.
  unfold bins. generalize (Z.to_nat (GetProcessedSize s - 1 - 3)). intros n.
  generalize 0%nat. induction n as [|n IH]; intros a; cbn [seq map];
    constructor.
  - apply IH.
  - apply Forall_forall. intros b Hb. apply in_map_iff in Hb.
    destruct Hb as (k & <- & Hk). apply in_seq in Hk. lia.
Qed.

Lemma candidates_sorted (s : SpectrumAnalyst R) :
  positive_scale s ->
  Forall (proper_cubic (mProcessed s))
    (filter (maximum_before (mProcessed s)) (bins s)) ->
  StronglySorted (fun c c' => fst c <= fst c') (candidates s).
Proof.
  intros Hscale Hproper. unfold candidates.
  apply (@sorted_map_filter (candidate s) (maximum_before (mProcessed s))
           (proper_cubic (mProcessed s))).
  - intros b b' Hb Hb' HQ HQ' Hlt. apply candidates_in_order; assumption.
  - apply bins_sorted.
  - exact Hproper.
Qed.

(** Beyond the first candidate that lies beyond [x] no candidate is nearer:
    the early exit does not change the nearest candidate. *)
Lemma nearest_upto_overshoot (x : R) (cs : list cand) :
  StronglySorted (fun c c' => fst c <= fst c') cs ->
  nearest x (upto_overshoot x cs) = nearest x cs.
Proof.
  induction 1 as [|c cs Hs IH Hall]; [reflexivity|].
  simpl upto_overshoot. destruct (Rlt_dec x (fst c)) as [Hover|Hunder].
  - simpl nearest.
    destruct (nearest x cs) as [c'|] eqn:Hn; [|reflexivity].
    assert (Hin : In c' cs).
    { clear - Hn. revert c' Hn. induction cs as [|d cs IH]; intros c' Hn.
      - discriminate.
      - simpl in Hn. destruct (nearest x cs) as [e|].
        + destruct (Rlt_dec (dist x e) (dist x d)).
          * injection Hn as <-. right. apply IH. reflexivity.
          * injection Hn as <-. left. reflexivity.
        + injection Hn as <-. left. reflexivity. }
    rewrite Forall_forall in Hall. specialize (Hall c' Hin). simpl in Hall.
    destruct (Rlt_dec (dist x c') (dist x c)) as [Hnear|]; [|reflexivity].
    exfalso. unfold dist in Hnear.
    rewrite (Rabs_right (fst c' - x)) in Hnear by lra.
    rewrite (Rabs_right (fst c - x)) in Hnear by lra. lra.
  - simpl nearest. rewrite IH. reflexivity.
Qed.

(** C4, amended.  On a curve whose sample 1 lies above sample 0 exactly if
    sample 2 lies above sample 1, with a rate above zero (and, for a
    [Spectrum], a window size above zero), and on which the cubic of every
    maximum found has a leading coefficient other than zero, so that no
    division is by zero: [FindPeak] scans the indices 3 to [size - 2] for
    maxima, a sample strictly greater than its left neighbour and not
    smaller than its right neighbour, refines each by the cubic maximization
    over the four samples around it, converts it to a frequency or a lag,
    and returns the candidate nearest to the query position among the
    candidates up to and including the first one beyond it, provided that
    candidate is less than 1000000 away; otherwise, and when there is no
    candidate, it returns the pair of zeros.  That candidate is the nearest
    of all candidates: the refined position of the maximum found at [bin]
    lies between the positions of the indices [bin - 2] and [bin], the
    positions grow along the scan, and the early exit does not change the
    result. *)
Theorem FindPeak_nearest_candidate (s : SpectrumAnalyst R) (xPos : R) :
  rising (mProcessed s) 1 = rising (mProcessed s) 2 ->
  positive_scale s ->
  Forall (proper_cubic (mProcessed s))
    (filter (maximum_before (mProcessed s)) (bins s)) ->
  FindPeak s xPos = peak_within_reach s xPos /\
  peak_within_reach s xPos = nearest_peak s xPos /\
  Forall (fun bin =>
            position_of s (IZR (bin - 2)) < fst (candidate s bin)
            < position_of s (IZR bin))
    (filter (maximum_before (mProcessed s)) (bins s)) /\
  (forall bin,
     let p := mProcessed s in
     let refined := CubicMaximize (getz p (bin - 2)) (getz p (bin - 1))
                      (getz p bin) (getz p (bin + 1)) 0 in
     candidate s bin =
     (position_of s (IZR (bin - 2) + fst refined), snd refined)).
Proof.
  intros Hup Hscale Hproper.
  pose proof (@candidates_sorted s Hscale Hproper) as Hsorted.
  split; [|split; [|split; [|intros bin; apply candidate_refined]]].
  - rewrite FindPeak_select. cbv zeta.
    rewrite detect_filter by exact Hup.
    fold (bins s). fold (candidates s).
    rewrite select_nearest by exact Hsorted.
    unfold peak_within_reach.
    destruct (nearest xPos (upto_overshoot xPos (candidates s))) as [[pos v]|];
      [|reflexivity].
    unfold improve. cbn [bestdist].
    destruct (Rlt_dec (dist xPos (pos, v)) 1000000); reflexivity.
  - unfold peak_within_reach, nearest_peak.
    rewrite nearest_upto_overshoot by exact Hsorted. reflexivity.
  - apply Forall_forall. intros bin Hin.
    rewrite Forall_forall in Hproper.
    apply candidate_between; [exact Hscale| |apply Hproper; exact Hin].
    apply filter_In in Hin. apply Hin.
Qed.

Lemma two_hills_maxima :
  filter (maximum_before (mProcessed two_hills)) (bins two_hills) = [7%Z; 12%Z].
Proof.
  unfold bins. change (GetProcessedSize two_hills) with 16%Z.
  change (Z.to_nat (16 - 1 - 3)) with 12%nat.
  unfold two_hills. cbn [mProcessed map seq filter].
  unfold maximum_before, rising. read_bins. decide_Rltb. reflexivity.
Qed.

(** Of the two hills the second one is nearer to 10. *)
Lemma FindPeak_nearest_candidate_witness :
  FindPeak two_hills 10 = candidate two_hills 12.
Proof.
  destruct (@FindPeak_nearest_candidate two_hills 10)
    as (Hfind & Hnear & Hpos & _).
  - unfold two_hills, rising. cbn [mProcessed]. read_bins. decide_Rltb.
    reflexivity.
  - split; [simpl; lra|intros H; discriminate H].
  - rewrite two_hills_maxima.
    repeat constructor; unfold proper_cubic, two_hills; cbn [mProcessed];
      read_bins; lra.
  - rewrite Hfind, Hnear. unfold nearest_peak, candidates.
    rewrite two_hills_maxima in *.
    inversion Hpos as [|? ? H7 Hrest]; subst.
    inversion Hrest as [|? ? H12 _]; subst.
    unfold position_of in H7, H12. simpl in H7, H12.
    cbn [map nearest]. unfold dist.
    destruct (candidate two_hills 7) as [p7 v7].
    destruct (candidate two_hills 12) as [p12 v12]. cbn [fst] in *.
    rewrite (Rabs_right (p12 - 10)) by lra.
    rewrite (Rabs_left (p7 - 10)) by lra.
    destruct (Rlt_dec (p12 - 10) (- (p7 - 10))) as [_|Hn]; [|lra].
    cbn [fst]. rewrite (Rabs_right (p12 - 10)) by lra.
    destruct (Rlt_dec (p12 - 10) 1000000) as [_|Hn]; [reflexivity|lra].
Defined.

End PeakFacts.

(** ** Bounds and monotone curves, in every arithmetic *)

Section QueryBounds.

Context {F : Type} {FA : FloatArith F}.

(** X6.  On a curve of at least four bins the four bins read by the
    interpolation branch of [GetProcessedValue], from the base index on, lie
    within the curve, whatever the midpoint; from five bins on the base
    index is at least 1. *)
Theorem interp_base_in_bounds (size : Z) (binmid : F) :
  (4 <= size)%Z ->
  (0 <= interp_base size binmid)%Z /\
  (interp_base size binmid + 3 <= size - 1)%Z /\
  ((5 <= size)%Z -> (1 <= interp_base size binmid)%Z).
Proof.
  intros Hs. unfold interp_base.
  destruct (Z.ltb_spec (ftrunc binmid - 1) 1);
    destruct (Z.geb_spec 1 (size - 3));
    destruct (Z.geb_spec (ftrunc binmid - 1) (size - 3)); lia.
Qed.

(** While the curve does not rise the loop of [FindPeak], entered with the
    flag [up] down, keeps its running best. *)
Lemma FindPeak_loop_no_rise (s : SpectrumAnalyst F) (xPos : F) :
  forall (n : nat) (bin : Z) (b : best F),
    (forall j, (bin <= j < bin + Z.of_nat n)%Z ->
               flt (getz (mProcessed s) (j - 1)) (getz (mProcessed s) j) = false) ->
    FindPeak_loop n s xPos bin false b = b.
Proof.
  induction n as [|n IH]; intros bin b H; [reflexivity|].
  simpl FindPeak_loop. rewrite (H bin) by lia. simpl.
  apply IH. intros j Hj. apply H. lia.
Qed.

(** While the curve rises the loop keeps its running best too. *)
Lemma FindPeak_loop_all_rise (s : SpectrumAnalyst F) (xPos : F) :
  forall (n : nat) (bin : Z) (up : bool) (b : best F),
    (forall j, (bin <= j < bin + Z.of_nat n)%Z ->
               flt (getz (mProcessed s) (j - 1)) (getz (mProcessed s) j) = true) ->
    FindPeak_loop n s xPos bin up b = b.
Proof.
  induction n as [|n IH]; intros bin up b H; [reflexivity|].
  simpl FindPeak_loop. rewrite (H bin) by lia. simpl.
  apply IH. intros j Hj. apply H. lia.
Qed.

(** X7.  [FindPeak] returns the pair of zeros on a curve without a turn from
    rising to not rising: when sample 1 is not above sample 0 and no sample
    from 3 to [size - 2] is above the one before it, and also when every
    sample from 3 to [size - 2] is above the one before it. *)
Theorem FindPeak_monotone (s : SpectrumAnalyst F) (xPos : F) :
  let p := mProcessed s in
  let size := GetProcessedSize s in
  (flt (getz p 0) (getz p 1) = false /\
   forall j, (3 <= j <= size - 2)%Z -> flt (getz p (j - 1)) (getz p j) = false) \/
  (forall j, (3 <= j <= size - 2)%Z -> flt (getz p (j - 1)) (getz p j) = true) ->
  FindPeak s xPos = (narrow (i2d 0), narrow (i2d 0)).
Proof.
  intros p size H. unfold FindPeak. cbv zeta. fold p. fold size.
  destruct (Z.gtb_spec size 1) as [Hs|Hs]; [|reflexivity].
  destruct H as [[H0 H]|H].
  - fold p in H0. rewrite H0. rewrite FindPeak_loop_no_rise; [reflexivity|].
    intros j Hj. apply H. lia.
  - rewrite FindPeak_loop_all_rise; [reflexivity|].
    intros j Hj. apply H. lia.
Qed.

End QueryBounds.

Lemma interp_base_in_bounds_witness :
  (0 <= interp_base 16 (f_of_Z (FloatArith := Ideal.Rarith) 40))%Z /\
  (interp_base 16 (f_of_Z (FloatArith := Ideal.Rarith) 40) + 3 <= 16 - 1)%Z.
Proof.
  destruct (@interp_base_in_bounds R Ideal.Rarith 16 (IZR 40) ltac:(lia))
    as [H1 [H2 _]].
  split; assumption.
Defined.


(** ** More on the cubic and on the queries, over the real numbers *)

Section IdealExtras.

Import Ideal Query Peak.
Open Scope R_scope.

(** X8.  [CubicInterpolate] returns the four samples at 0, 1, 2 and 3, and
    reproduces every polynomial of degree at most three from its values at
    0, 1, 2 and 3; in particular four equal samples give that value
    everywhere. *)
Theorem CubicInterpolate_exact (y0 y1 y2 y3 q0 q1 q2 q3 x : R) :
  let q t := q0 + q1 * t + q2 * t * t + q3 * t * t * t in
  CubicInterpolate y0 y1 y2 y3 0 = y0 /\
  CubicInterpolate y0 y1 y2 y3 1 = y1 /\
  CubicInterpolate y0 y1 y2 y3 2 = y2 /\
  CubicInterpolate y0 y1 y2 y3 3 = y3 /\
  CubicInterpolate (q 0) (q 1) (q 2) (q 3) x = q x /\
  CubicInterpolate y0 y0 y0 y0 x = y0.
Proof.
  cbv zeta. rewrite !CubicInterpolate_real. unfold interpolating_cubic.
  repeat split; field.
Qed.

(** X9.  Unless it leaves with the sentinel, [CubicMaximize] stores the value
    that [CubicInterpolate] gives at the position it returns. *)
Theorem CubicMaximize_value_interpolated (y0 y1 y2 y3 m : R) :
  ~ discriminant y0 y1 y2 y3 < 0 ->
  snd (CubicMaximize y0 y1 y2 y3 m) =
  CubicInterpolate y0 y1 y2 y3 (fst (CubicMaximize y0 y1 y2 y3 m)).
Proof.
  intros Hd. rewrite CubicMaximize_real. cbv zeta.
  destruct (Rlt_dec (discriminant y0 y1 y2 y3) 0) as [H|_]; [contradiction|].
  assert (Hp : forall x, Cubic.poly y0 y1 y2 y3 x = CubicInterpolate y0 y1 y2 y3 x).
  { intros x. rewrite CubicInterpolate_real.
    unfold Cubic.poly, interpolating_cubic, cubic_d.
    rewrite cubic_a_real, cubic_b_real, cubic_c_real. field. }
  destruct (Rlt_dec _ 0); cbn [fst snd]; apply Hp.
Qed.

(** The integral of a flat curve is its value times the length of the part
    of the range that lies on the curve. *)
Lemma integral_flat (p : list R) (c : R) (lo hi : R) :
  0 <= lo ->
  forall n,
    (forall i, (i < n)%nat -> get p i = c) ->
    integral p n lo hi = c * Rmax 0 (Rmin hi (IZR (Z.of_nat n)) - lo).
Proof.
  intros Hlo. induction n as [|n IH]; intros Hflat.
  - simpl. assert (Rmax 0 (Rmin hi 0 - lo) = 0) by coverage_cases. nra.
  - simpl integral. rewrite IH by (intros; apply Hflat; lia).
    rewrite Hflat by lia.
    pose proof (IZR_nat_nonneg n) as Hn.
    replace (IZR (Z.of_nat (S n))) with (IZR (Z.of_nat n) + 1)
      by (rewrite Nat2Z.inj_succ, succ_IZR; reflexivity).
    assert (Rmax 0 (Rmin hi (IZR (Z.of_nat n) + 1) - lo) =
            Rmax 0 (Rmin hi (IZR (Z.of_nat n)) - lo) + coverage lo hi n)
      by coverage_cases.
    nra.
Qed.

(** X10.  On a curve of at least five bins, all of the same value, every
    query narrower than one bin, and every wider query whose range lies on
    the curve, returns that value. *)
Theorem GetProcessedValue_flat (fuel : nat) (s : SpectrumAnalyst R)
    (freq0 freq1 c : R) :
  let size := GetProcessedSize s in
  let bin0 := index_of s freq0 in
  let bin1 := index_of s freq1 in
  (5 <= size)%Z -> (Z.to_nat size <= fuel)%nat ->
  (forall i, (i < Z.to_nat size)%nat -> get (mProcessed s) i = c) ->
  bin1 - bin0 < 1 \/ (0 <= bin0 /\ bin1 < IZR size) ->
  GetProcessedValue fuel s freq0 freq1 = Some c.
Proof.
  intros size bin0 bin1 Hs Hfuel Hflat Hrange.
  pose proof (@GetProcessedValue_branches fuel s freq0 freq1) as Hb.
  cbv zeta in Hb. fold size bin0 bin1 in Hb.
  destruct (Hb Hfuel) as [Hinterp Hint]. clear Hb.
  destruct (Rlt_dec (bin1 - bin0) 1) as [Hw|Hw].
  - rewrite Hinterp by assumption. f_equal.
    unfold interpolated. fold size.
    set (base := clampZ 1 (size - 4) (Rtrunc ((bin0 + bin1) / 2) - 1)).
    assert (Hbase : (1 <= base <= size - 4)%Z) by (unfold base, clampZ; lia).
    rewrite !getz_nonneg by lia. rewrite !Hflat by lia.
    unfold interpolating_cubic. field.
  - destruct Hrange as [Hn|[H0 H1]]; [contradiction|].
    rewrite Hint by (try lra; lia). f_equal.
    unfold moved_start, moved_end.
    destruct (Rlt_dec bin0 0); [lra|]. destruct (Rle_dec (IZR size) bin1); [lra|].
    rewrite (@integral_flat (mProcessed s) c bin0 bin1 H0 (Z.to_nat size) Hflat).
    rewrite Z2Nat.id by lia.
    rewrite Rmin_left by lra. rewrite Rmax_right by lra. field. lra.
Qed.

(** X11.  A query that covers the whole curve, from an index at or below 0
    to an index at or beyond [size], returns the sum of all bins but the
    last, divided by the span of the query: the last bin does not count. *)
Theorem GetProcessedValue_whole_curve (fuel : nat) (s : SpectrumAnalyst R)
    (freq0 freq1 : R) :
  let size := GetProcessedSize s in
  let bin0 := index_of s freq0 in
  let bin1 := index_of s freq1 in
  (2 <= size)%Z -> (Z.to_nat size <= fuel)%nat ->
  bin0 <= 0 -> IZR size <= bin1 ->
  GetProcessedValue fuel s freq0 freq1 =
  Some (sum_from (mProcessed s) 0 (Z.to_nat size - 1) / (bin1 - bin0)).
Proof.
  intros size bin0 bin1 Hs Hfuel H0 H1.
  pose proof (@GetProcessedValue_branches fuel s freq0 freq1) as Hb.
  cbv zeta in Hb. fold size bin0 bin1 in Hb.
  destruct (Hb Hfuel) as [_ Hint]. clear Hb.
  assert (Hsz : 2 <= IZR size) by (apply IZR_le; exact Hs).
  rewrite Hint by (try lra; lia). do 2 f_equal.
  assert (Hlo : moved_start bin0 = 0)
    by (unfold moved_start; destruct (Rlt_dec bin0 0); lra).
  assert (Hhi : moved_end size bin1 = IZR (size - 1))
    by (unfold moved_end; destruct (Rle_dec (IZR size) bin1); [reflexivity|lra]).
  rewrite Hlo, Hhi.
  assert (Hn : Z.of_nat (Z.to_nat size - 1) = (size - 1)%Z) by lia.
  rewrite (@integral_closed (mProcessed s) 0 (Z.to_nat size - 1) 0 (IZR (size - 1)));
    [|lia|simpl; lra|rewrite Hn; lra].
  rewrite !(proj2 (Nat.ltb_lt _ _)) by lia. rewrite Hn.
  replace (Nat.min (Z.to_nat size) (Z.to_nat size - 1) - 1)%nat
    with (Z.to_nat size - 2)%nat by lia.
  replace (sum_from (mProcessed s) 0 (Z.to_nat size - 1))
    with (get (mProcessed s) 0 + sum_from (mProcessed s) 1 (Z.to_nat size - 2)).
  - simpl Z.of_nat. lra.
  - replace (Z.to_nat size - 1)%nat with (S (Z.to_nat size - 2)) by lia.
    reflexivity.
Qed.

End IdealExtras.

(** ** What the peak search can return *)

Section PeakBounds.

Context {F : Type} {FA : FloatArith F} {OA : OrderedArith F}.

Lemma flt_trans (x y z : F) :
  flt x y = true -> flt y z = true -> flt x z = true.
Proof.
  intros Hxy Hyz. destruct (flt x z) eqn:Hxz; [reflexivity|].
  pose proof (flt_asym _ _ Hyz) as Hzy.
  pose proof (flt_negtrans _ _ _ Hxz Hzy) as H. congruence.
Qed.

Lemma FindPeak_loop_result (s : SpectrumAnalyst F) (xPos : F) (lo : Z) (b0 : best F) :
  bestdist b0 = i2f 1000000 ->
  forall (n : nat) (bin : Z) (up : bool) (b : best F),
    (lo <= bin)%Z ->
    b = b0 \/ from_candidate s xPos lo (bin - 1) b ->
    let b' := FindPeak_loop n s xPos bin up b in
    b' = b0 \/ from_candidate s xPos lo (bin + Z.of_nat n - 1) b'.
Proof.
  intros Hb0. induction n as [|n IH]; intros bin up b Hlo Hb; cbv zeta.
  - simpl FindPeak_loop. rewrite Z.add_0_r. exact Hb.
  - assert (Hwiden : b = b0 \/ from_candidate s xPos lo (bin + 1 - 1) b).
    { destruct Hb as [Hb|(j & Hj & Hrest)]; [left; exact Hb|].
      right. exists j. split; [lia|exact Hrest]. }
    replace (bin + Z.of_nat (S n) - 1)%Z with (bin + 1 + Z.of_nat n - 1)%Z by lia.
    simpl FindPeak_loop.
    destruct (flt (getz (mProcessed s) (bin - 1)) (getz (mProcessed s) bin))
      eqn:Hrise; simpl negb; simpl andb.
    + apply IH; [lia|exact Hwiden].
    + destruct up; simpl; [|apply IH; [lia|exact Hwiden]].
      destruct (candidate s bin) as [thispeak valueAtMax] eqn:Hc.
      destruct (flt (ffabs (subf thispeak xPos)) (bestdist b)) eqn:Hnear;
        [|apply IH; [lia|exact Hwiden]].
      assert (Hnew : from_candidate s xPos lo (bin + 1 - 1)
                       (mkBest thispeak (ffabs (subf thispeak xPos)) valueAtMax)).
      { exists bin. rewrite Hc. cbn [bestpeak bestValue bestdist fst].
        repeat split; try lia; try assumption.
        destruct Hb as [Hb|(j & _ & _ & _ & _ & Hd)].
        - rewrite Hb, Hb0 in Hnear. exact Hnear.
        - exact (flt_trans _ _ _ Hnear Hd). }
      destruct (flt xPos thispeak).
      * right. destruct Hnew as (j & Hj & Hrest). exists j.
        split; [lia|exact Hrest].
      * apply IH; [lia|right; exact Hnew].
Qed.

(** X12.  [FindPeak] returns the pair of zeros, or the position and the
    value of the candidate refined at some bin between 3 and [size - 2] at
    which the curve does not rise; that candidate is less than 1000000 away
    from the query position. *)
Theorem FindPeak_zero_or_candidate (s : SpectrumAnalyst F) (xPos : F) :
  let p := mProcessed s in
  let size := GetProcessedSize s in
  FindPeak s xPos = (narrow (i2d 0), narrow (i2d 0)) \/
  exists bin,
    (3 <= bin <= size - 2)%Z /\
    flt (getz p (bin - 1)) (getz p bin) = false /\
    FindPeak s xPos = candidate s bin /\
    flt (ffabs (subf (fst (candidate s bin)) xPos)) (i2f 1000000) = true.
Proof.
  cbv zeta. unfold FindPeak. cbv zeta.
  set (b0 := mkBest (narrow (i2d 0)) (i2f 1000000) (narrow (i2d 0))).
  destruct (Z.gtb_spec (GetProcessedSize s) 1) as [Hs|Hs]; [|left; reflexivity].
  set (n := Z.to_nat (GetProcessedSize s - 1 - 3)).
  set (up := flt (getz (mProcessed s) 0) (getz (mProcessed s) 1)).
  pose proof (@FindPeak_loop_result s xPos 3 b0 eq_refl n 3 up b0
                ltac:(lia) (or_introl eq_refl)) as H.
  cbv zeta in H.
  destruct H as [H|(bin & Hbin & Hrise & Hc & Hd & Hlt)].
  - left. rewrite H. reflexivity.
  - right. exists bin. rewrite <- Hd.
    repeat split; try assumption; unfold n in Hbin; lia.
Qed.

End PeakBounds.

(** ** The power floor of the cepstrum *)

Section CepstrumFloor.

Import Ideal.
Open Scope R_scope.

Lemma minpower_pos (ws : nat) : (0 < ws)%nat -> 0 < minpower ws.
Proof.
  intros H. unfold minpower. ideal_arith.
  assert (Hw : 1 <= IZR (Z.of_nat ws)) by (apply IZR_le; lia).
  assert (Hp : 0 < powerRZ 10 (-20)) by (apply powerRZ_lt; lra).
  change (f_dec 1 (-20)) with (1 * powerRZ 10 (-20)). rewrite Rmult_1_l.
  apply Rmult_lt_0_compat; [apply Rmult_lt_0_compat|]; lra.
Qed.

(** X13.  [Cepstrum] never takes the logarithm of a power below
    [1e-20 * windowSize * windowSize]: each logarithm is that of the greater
    of the power and this floor, a positive number, so that it is not below
    the logarithm of the floor. *)
Theorem log_power_floor (ws : nat) (out out2 : list R) (i : nat) :
  (0 < ws)%nat ->
  log_power ws out out2 i = ln (Rmax (power_at out out2 i) (minpower ws)) /\
  0 < Rmax (power_at out out2 i) (minpower ws) /\
  ln (minpower ws) <= log_power ws out out2 i.
Proof.
  intros Hws. pose proof (minpower_pos Hws) as Hm.
  assert (Hlog : log_power ws out out2 i =
                 ln (Rmax (power_at out out2 i) (minpower ws))).
  { unfold log_power. cbv zeta.
    change (flt (power_at out out2 i) (minpower ws))
      with (Rltb (power_at out out2 i) (minpower ws)).
    change (narrow (flog (minpower ws))) with (ln (minpower ws)).
    change (narrow (flog (power_at out out2 i))) with (ln (power_at out out2 i)).
    unfold Rltb, Rmax.
    destruct (Rlt_dec (power_at out out2 i) (minpower ws));
      destruct (Rle_dec (power_at out out2 i) (minpower ws));
      try reflexivity; [lra|f_equal; lra]. }
  split; [exact Hlog|]. split.
  - unfold Rmax. destruct (Rle_dec (power_at out out2 i) (minpower ws)); lra.
  - rewrite Hlog. unfold Rmax.
    destruct (Rle_dec (power_at out out2 i) (minpower ws)) as [Hle|Hgt]; [lra|].
    left. apply ln_increasing; lra.
Qed.

End CepstrumFloor.

(** ** The progress gauge *)

Section GaugeFacts.

Import Gauge.
Open Scope Z_scope.

Lemma same_layout_refl (g : FreqGauge) : same_layout g g.
Proof. repeat split. Qed.

Lemma same_layout_trans (g1 g2 g3 : FreqGauge) :
  same_layout g1 g2 -> same_layout g2 g3 -> same_layout g1 g3.
Proof. unfold same_layout. intuition congruence. Qed.

Lemma bars_from_layout (g g' : FreqGauge) (first : Z) (n : nat) :
  same_layout g g' -> bars_from g' first n = bars_from g first n.
Proof.
  intros (_ & Hb & Hg & _ & Hm). unfold bars_from, bar_x.
  rewrite Hb, Hg, Hm. reflexivity.
Qed.

Lemma bars_from_cons (g : FreqGauge) (first : Z) (n : nat) :
  bars_from g first (S n) = bar_x g first :: bars_from g (first + 1) n.
Proof.
  unfold bars_from. simpl seq. simpl map. rewrite Z.add_0_r. f_equal.
  rewrite <- seq_shift, map_map. apply map_ext. intros k. f_equal. lia.
Qed.

Lemma bars_from_app (g : FreqGauge) (n m : nat) :
  forall first,
    bars_from g first (n + m) =
    bars_from g first n ++ bars_from g (first + Z.of_nat n) m.
Proof.
  induction n as [|n IH]; intros first.
  - simpl. rewrite Z.add_0_r. reflexivity.
  - change (S n + m)%nat with (S (n + m)). rewrite !bars_from_cons, IH.
    simpl. do 3 f_equal. lia.
Qed.

(** The loop of [SetValue] draws the bars from [mLast + 1] to [mCur], each
    once, and leaves [mLast] at [mCur]. *)
Lemma draw_bars_spec :
  forall (n : nat) (g : FreqGauge) (drawn : list Z),
    Z.of_nat n = mCur g - mLast g ->
    same_layout g (fst (draw_bars n g drawn)) /\
    mLast (fst (draw_bars n g drawn)) = mCur g /\
    mCur (fst (draw_bars n g drawn)) = mCur g /\
    snd (draw_bars n g drawn) = drawn ++ bars_from g (mLast g + 1) n.
Proof.
  induction n as [|n IH]; intros g drawn Hn.
  - simpl. rewrite app_nil_r. repeat split. lia.
  - simpl draw_bars.
    destruct (Z.ltb_spec (mLast g) (mCur g)) as [_|Hge]; [|lia].
    set (g1 := mkGauge _ _ _ _ _ _ _ _ _).
    assert (Hl : same_layout g g1) by (repeat split).
    destruct (IH g1 (drawn ++ [mMargin g + (mLast g + 1) * (mBar g + mGap g)]))
      as (Hs & Hlast & Hcur & Hdrawn).
    { unfold g1. simpl. lia. }
    repeat split; try apply (same_layout_trans Hl Hs); try assumption.
    rewrite Hdrawn, bars_from_cons, (bars_from_layout _ _ Hl), <- app_assoc.
    reflexivity.
Qed.

(** With a step other than zero, [SetValue] draws the bars from the one
    after the last drawn to the bar of the value, in this order, and nothing
    when the value lies at or before the last bar drawn. *)
Lemma SetValue_draws_new_bars (value : Z) (g : FreqGauge) :
  mInterval g <> 0 ->
  let cur := Z.quot value (mInterval g) in
  exists g',
    SetValue value g =
    Some (g', bars_from g (mLast g + 1) (Z.to_nat (cur - mLast g))) /\
    same_layout g g' /\
    mLast g' = Z.max (mLast g) cur /\
    mCur g' = cur.
Proof.
  intros Hi cur. unfold SetValue, int_div.
  destruct (Z.eqb_spec (mInterval g) 0) as [H0|_]; [contradiction|].
  fold cur.
  destruct (Z.eqb_spec cur (mLast g)) as [Heq|Hne].
  - eexists. rewrite Heq, Z.sub_diag. simpl.
    repeat split. simpl. lia.
  - set (g1 := mkGauge _ _ _ _ _ _ _ _ cur).
    assert (Hl : same_layout g g1) by (repeat split).
    destruct (Z.lt_ge_cases (mLast g) cur) as [Hlt|Hge].
    + destruct (@draw_bars_spec (Z.to_nat (cur - mLast g)) g1 [])
        as (Hs & Hlast & Hcur & Hdrawn).
      { unfold g1. simpl. lia. }
      exists (fst (draw_bars (Z.to_nat (cur - mLast g)) g1 [])).
      repeat split; try apply (same_layout_trans Hl Hs).
      * rewrite (surjective_pairing (draw_bars _ g1 [])) at 1.
        rewrite Hdrawn, (bars_from_layout _ _ Hl). reflexivity.
      * rewrite Hlast. unfold g1. simpl. lia.
      * rewrite Hcur. reflexivity.
    + replace (Z.to_nat (cur - mLast g)) with 0%nat by lia.
      exists g1. simpl. repeat split. simpl. lia.
Qed.

Lemma furthest_above (interval : Z) (values : list Z) :
  forall m, m <= furthest interval values m.
Proof.
  unfold furthest. induction values as [|v vs IH]; intros m; simpl; [lia|].
  specialize (IH (Z.max m (Z.quot v interval))). lia.
Qed.

(** X14.  With a step other than zero, a series of calls of [SetValue]
    draws the bars from the one after the last bar drawn before to the
    furthest bar that any of the values reaches, each of them once and in
    this order, whatever the order of the values; no call fails, the last
    bar drawn ends at that furthest bar, and the positions are distinct. *)
Theorem SetValues_draws_each_bar_once (values : list Z) (g : FreqGauge) :
  mInterval g <> 0 ->
  let reach := furthest (mInterval g) values (mLast g) in
  exists g',
    SetValues values g =
    Some (g', bars_from g (mLast g + 1) (Z.to_nat (reach - mLast g))) /\
    same_layout g g' /\
    mLast g' = reach /\
    (mBar g + mGap g <> 0 ->
     NoDup (bars_from g (mLast g + 1) (Z.to_nat (reach - mLast g)))).
Proof.
  intros Hi reach.
  assert (Hrun : exists g',
    SetValues values g =
    Some (g', bars_from g (mLast g + 1) (Z.to_nat (reach - mLast g))) /\
    same_layout g g' /\ mLast g' = reach).
  { unfold reach. clear reach. revert g Hi.
    induction values as [|v vs IH]; intros g Hi.
    - exists g. simpl. rewrite Z.sub_diag. repeat split.
    - simpl SetValues.
      destruct (@SetValue_draws_new_bars v g Hi) as (g1 & Hv & Hl & Hlast & _).
      cbv zeta in Hv. rewrite Hv.
      assert (Hi1 : mInterval g1 <> 0)
        by (destruct Hl as (_ & _ & _ & Hint & _); rewrite Hint; exact Hi).
      destruct (IH g1 Hi1) as (g2 & Hvs & Hl2 & Hlast2).
      rewrite Hvs. exists g2.
      assert (Hint : mInterval g1 = mInterval g) by apply Hl.
      assert (Hf : furthest (mInterval g) (v :: vs) (mLast g) =
                   furthest (mInterval g1) vs (mLast g1)).
      { unfold furthest. simpl. rewrite Hint, Hlast. reflexivity. }
      rewrite Hf. split; [|split].
      + do 2 f_equal. rewrite (bars_from_layout _ _ Hl).
        pose proof (furthest_above (mInterval g1) vs (mLast g1)) as Hup.
        set (r := furthest (mInterval g1) vs (mLast g1)) in *.
        set (c := Z.quot v (mInterval g)) in *.
        replace (Z.to_nat (r - mLast g))
          with (Z.to_nat (c - mLast g) + Z.to_nat (r - mLast g1))%nat by lia.
        rewrite bars_from_app. do 2 f_equal. lia.
      + apply (same_layout_trans Hl Hl2).
      + exact Hlast2. }
  destruct Hrun as (g' & Hrun & Hl & Hlast).
  exists g'. split; [exact Hrun|]. split; [exact Hl|]. split; [exact Hlast|].
  intros Hstep. unfold bars_from.
  apply Injective_map_NoDup; [|apply seq_NoDup].
  intros a b Hab. unfold bar_x in Hab. nia.
Qed.

(** X15.  A gauge set up by [SetRange] divides by zero in every later
    [SetValue] exactly when the range is smaller in magnitude than the
    number of bars that fit into the field. *)
Theorem SetValue_after_SetRange_fails_iff
    (field_x field_width range bar gap value : Z) (g0 g : FreqGauge) :
  SetRange field_x field_width range bar gap g0 = Some g ->
  SetValue value g = None <->
  Z.abs range < Z.abs (Z.quot field_width (bar + gap)).
Proof.
  unfold SetRange, int_div.
  destruct (Z.eqb_spec (bar + gap) 0) as [|Hstep]; [discriminate|].
  destruct (Z.eqb_spec (Z.quot field_width (bar + gap)) 0) as [|Hbars];
    [discriminate|].
  intros Hg. injection Hg as <-. unfold SetValue, int_div. simpl.
  rewrite <- (Z.quot_small_iff range _ Hbars).
  destruct (Z.eqb_spec (Z.quot range (Z.quot field_width (bar + gap))) 0)
    as [H0|H0].
  - split; [intros _; exact H0|reflexivity].
  - split; [|contradiction].
    destruct (_ =? _); discriminate.
Qed.

End GaugeFacts.

(** ** The audio handed to the engine *)

Section AudioFacts.

Import Dialog.
Context {F : Type} {FA : FloatArith F}.

Lemma get_mix (len : nat) (buffer2 data : list F) (i : nat) :
  (i < len)%nat -> (len <= length data)%nat ->
  get (mix len buffer2 data) i = addf (get data i) (get buffer2 i).
Proof.
  intros Hi Hlen. change (mix len buffer2 data) with (accumulate len buffer2 data).
  rewrite get_accumulate.
  rewrite (proj2 (Nat.ltb_lt i len) Hi), (proj2 (Nat.ltb_lt i (length data))) by lia.
  reflexivity.
Qed.

Lemma length_mix (len : nat) (buffer2 data : list F) :
  length (mix len buffer2 data) = length data.
Proof. apply length_accumulate. Qed.

(** From the second track on: a track of another rate makes the loop drop
    the audio and return; otherwise every track is added to the data. *)
Lemma GetAudio_loop_rest (r : F) (len : N) (w : bool) :
  forall (rest : list (WaveTrack (F := F))) (k : nat) (d : list F),
    length d = N.to_nat len ->
    exists a n ret,
      GetAudio_loop rest (S k) w (mkAudio (Some d) len r) = (a, n, w, ret) /\
      n <> 0%nat /\
      if existsb (fun t => fne (GetRate t) r) rest
      then a = mkAudio None 0%N r /\ ret = true
      else ret = false /\
           exists d', a = mkAudio (Some d') len r /\
                      length d' = N.to_nat len /\
                      forall i, (i < N.to_nat len)%nat ->
                                get d' i = mixed rest (N.to_nat len) i (get d i).
Proof.
  induction rest as [|t rest IH]; intros k d Hd.
  - simpl. exists (mkAudio (Some d) len r), (S k), false.
    repeat split; try lia. exists d. repeat split. exact Hd.
  - simpl GetAudio_loop. simpl existsb. cbn [rate mData mDataLen].
    destruct (fne (GetRate t) r) eqn:Hne.
    + simpl. exists (mkAudio None 0%N r), (S k), true. repeat split. lia.
    + set (b2 := buffer (N.to_nat len) (Get t (selection_start t) (N.to_nat len))).
      destruct (IH (S k) (mix (N.to_nat len) b2 d)) as (a & n & ret & Hrun & Hn & Hcase).
      { rewrite length_mix. exact Hd. }
      exists a, n, ret. split; [exact Hrun|]. split; [exact Hn|].
      simpl orb.
      destruct (existsb (fun t0 => fne (GetRate t0) r) rest); [exact Hcase|].
      destruct Hcase as (Hret & d' & Ha & Hlen & Hget).
      split; [exact Hret|]. exists d'. repeat split; try assumption.
      intros i Hi. rewrite (Hget i Hi). unfold mixed at 2. simpl fold_left.
      fold (mixed rest (N.to_nat len) i).
      rewrite get_mix by lia. unfold b2. rewrite get_buffer by exact Hi.
      reflexivity.
Qed.

(** The audio of tracks of one rate. *)
Lemma GetAudio_mixes_or_drops_aux (track : WaveTrack (F := F))
    (rest : list WaveTrack) (rate0 : F) :
  (0 <= selection_end track - selection_start track)%Z ->
  existsb (fun t => fne (GetRate t) (GetRate track)) rest = false ->
  let len := Z.to_N (Z.min (selection_end track - selection_start track) 10485760) in
  exists data,
    fst (GetAudio (track :: rest) rate0) =
    mkAudio (Some data) len (GetRate track) /\
    (len <= 10485760)%N /\ length data = N.to_nat len.
Proof.
  intros Hpos Hrates len.
  unfold GetAudio. simpl GetAudio_loop.
  set (dataLen := (selection_end track - selection_start track)%Z) in *.
  assert (Hlen : (if (dataLen >? 10485760)%Z then (true, 10485760%N)
                  else (false, as_size_t dataLen)) =
                 ((10485760 <? dataLen)%Z, len)).
  { unfold len, as_size_t. rewrite Z.gtb_ltb.
    destruct (Z.ltb_spec 10485760 dataLen) as [Hbig|Hsmall].
    - rewrite Z.min_r by lia. reflexivity.
    - rewrite Z.min_l by lia. rewrite Z.mod_small by lia. reflexivity. }
  rewrite Hlen.
  set (d := buffer (N.to_nat len) (Get track (selection_start track) (N.to_nat len))).
  destruct (@GetAudio_loop_rest (GetRate track) len (10485760 <? dataLen)%Z
              rest 0%nat d) as (a & n & ret & Hrun & Hn & Hcase).
  { unfold d. apply length_buffer. }
  rewrite Hrun, Hrates in *.
  destruct Hcase as (-> & d' & -> & Hl & _).
  exists d'. cbn [fst]. repeat split; [unfold len; lia|exact Hl].
Qed.

(** X16.  [GetAudio] on a selection that is not reversed takes the length
    and the rate from the first selected track, the length cut at 10485760
    samples.  When a later track has another rate it leaves no data and
    length 0, and does not warn; otherwise sample [i] of the data is sample
    [i] of the first track with that of each later track added in turn, and
    the warning is given exactly when the selection was cut. *)
Theorem GetAudio_mixes_or_drops (track : WaveTrack (F := F))
    (rest : list WaveTrack) (rate0 : F) :
  let start := selection_start track in
  let dataLen := (selection_end track - start)%Z in
  let len := Z.to_N (Z.min dataLen 10485760) in
  (0 <= dataLen)%Z ->
  (len <= 10485760)%N /\
  if existsb (fun t => fne (GetRate t) (GetRate track)) rest
  then GetAudio (track :: rest) rate0 = (mkAudio None 0%N (GetRate track), false)
  else exists data,
      GetAudio (track :: rest) rate0 =
      (mkAudio (Some data) len (GetRate track), (10485760 <? dataLen)%Z) /\
      length data = N.to_nat len /\
      forall i, (i < N.to_nat len)%nat ->
        get data i =
        mixed rest (N.to_nat len) i (get (Get track start (N.to_nat len)) i).
Proof.
  intros start dataLen len Hpos. split; [unfold len; lia|].
  unfold GetAudio. simpl GetAudio_loop. fold start. fold dataLen.
  assert (Hlen : (if (dataLen >? 10485760)%Z then (true, 10485760%N)
                  else (false, as_size_t dataLen)) =
                 ((10485760 <? dataLen)%Z, len)).
  { unfold len, as_size_t. rewrite Z.gtb_ltb.
    destruct (Z.ltb_spec 10485760 dataLen) as [Hbig|Hsmall].
    - rewrite Z.min_r by lia. reflexivity.
    - rewrite Z.min_l by lia. rewrite Z.mod_small by lia. reflexivity. }
  rewrite Hlen.
  set (d := buffer (N.to_nat len) (Get track start (N.to_nat len))).
  destruct (@GetAudio_loop_rest (GetRate track) len (10485760 <? dataLen)%Z
              rest 0%nat d) as (a & n & ret & Hrun & Hn & Hcase).
  { unfold d. apply length_buffer. }
  rewrite Hrun.
  destruct (existsb (fun t => fne (GetRate t) (GetRate track)) rest).
  - destruct Hcase as [-> ->]. reflexivity.
  - destruct Hcase as (-> & d' & -> & Hl & Hget).
    exists d'. split.
    + f_equal. destruct n; [contradiction|]. reflexivity.
    + split; [exact Hl|]. intros i Hi. rewrite (Hget i Hi).
      unfold d. rewrite get_buffer by exact Hi. reflexivity.
Qed.

End AudioFacts.

(** ** Recalculation *)

Section RecalcFacts.

Import Dialog.
Context {F : Type} {FA : FloatArith F}.
Variable NumWindowFuncs : Z.
Variable WindowFunc : Z -> nat -> list F -> list F.
Variable PowerSpectrum : nat -> list F -> list F.
Variable RealFFT : nat -> list F -> list F * list F.
Variable InverseRealFFT : nat -> list F -> list F.

Local Abbreviation Recalc' :=
  (Recalc NumWindowFuncs WindowFunc PowerSpectrum RealFFT InverseRealFFT).
Local Abbreviation Calculate' :=
  (Calculate NumWindowFuncs WindowFunc PowerSpectrum RealFFT InverseRealFFT).
Local Abbreviation window_loop' :=
  (window_loop PowerSpectrum RealFFT InverseRealFFT).
Local Abbreviation window_loop_progress' :=
  (window_loop_progress PowerSpectrum RealFFT InverseRealFFT).

Lemma to_int_small (n : N) : (Z.of_N n < 2 ^ 31)%Z -> to_int n = Z.of_N n.
Proof.
  intros H. unfold to_int. cbv zeta.
  rewrite Z.mod_small by lia.
  destruct (Z.ltb_spec (Z.of_N n) (2 ^ 31)); [reflexivity|lia].
Qed.

(** With a step other than zero the gauge does not disturb the window loop:
    the loop with the gauge returns what the loop without it returns. *)
Lemma window_loop_progress_runs (alg : Z) (W : N) (win data : list F) (D : N) :
  forall (fuel : nat) (start : N) (windows : Z) (p out : list F)
         (g : Gauge.FreqGauge) (drawn : list Z),
    Gauge.mInterval g <> 0%Z ->
    match window_loop' fuel alg W win data D start windows p out with
    | None =>
        window_loop_progress' fuel alg W win data D start windows p out g drawn
        = OutOfFuel
    | Some result =>
        exists g' drawn',
          window_loop_progress' fuel alg W win data D start windows p out
            g drawn = Returns (result, g', drawn') /\
          Gauge.same_layout g g'
    end.
Proof.
  induction fuel as [|fuel IH]; intros start windows p out g drawn Hi;
    [reflexivity|].
  simpl window_loop. simpl window_loop_progress.
  destruct (wrap64 (start + W) <=? D)%N.
  - destruct (window_body PowerSpectrum RealFFT InverseRealFFT alg
                (N.to_nat W) (frame (N.to_nat W) win data start) p out)
      as [p' out'].
    destruct (@SetValue_draws_new_bars (to_int start) g Hi)
      as (g1 & Hv & Hl & _).
    cbv zeta in Hv. rewrite Hv.
    assert (Hi1 : Gauge.mInterval g1 <> 0%Z).
    { destruct Hl as (_ & _ & _ & Hint & _). rewrite Hint. exact Hi. }
    specialize (IH (wrap64 (start + W / 2)) (windows + 1)%Z p' out' g1
                  (drawn ++ Gauge.bars_from g (Gauge.mLast g + 1)
                     (Z.to_nat (Z.quot (to_int start) (Gauge.mInterval g)
                                - Gauge.mLast g))) Hi1).
    destruct (window_loop' fuel alg W win data D (wrap64 (start + W / 2))
                (windows + 1)%Z p' out') as [result|].
    + destruct IH as (g' & drawn' & Hrun & Hl').
      exists g', drawn'. split; [exact Hrun|].
      exact (same_layout_trans Hl Hl').
    + exact IH.
  - exists g, drawn. split; [reflexivity|apply same_layout_refl].
Qed.

(** With a step of zero the first [SetValue] divides by zero. *)
Lemma window_loop_progress_traps (alg : Z) (W : N) (win data : list F) (D : N)
    (fuel : nat) (windows : Z) (p out : list F)
    (g : Gauge.FreqGauge) (drawn : list Z) :
  Gauge.mInterval g = 0%Z -> (W <= D)%N -> (W < 2 ^ 64)%N ->
  window_loop_progress' (S fuel) alg W win data D 0 windows p out g drawn
  = DividesByZero.
Proof.
  intros Hi HW Hfit. cbn [window_loop_progress].
  rewrite N.add_0_l, wrap64_small by exact Hfit.
  rewrite (proj2 (N.leb_le W D) HW).
  destruct (window_body _ _ _ _ _ _ _ _) as [p' out'].
  unfold Gauge.SetValue, Gauge.int_div. rewrite Hi. reflexivity.
Qed.

(** X17.  [Recalc] on the audio that [GetAudio] leaves, with the progress
    gauge that it hands to [Calculate]: the selected tracks have one rate,
    the selection holds at least a window, and the window size, the
    algorithm and the window function are valid.  When at least one bar
    fits into the status field and the audio is not shorter than the number
    of bars, [Recalc] returns; the analyst is the one that [Calculate]
    yields without a gauge and holds a curve of half the window size, at
    the rate of the first track, and the gauge has been reset.  Otherwise,
    that is when no bar fits, or when the audio is shorter than the number
    of bars, so that the step of the gauge is zero, the call divides by
    zero. *)
Theorem Recalc_after_GetAudio (fuel : nat) (analyst : SpectrumAnalyst F)
    (alg windowFunc : Z) (windowSize : N) (dBRange yMin yMax rate0 : F)
    (track : WaveTrack (F := F)) (rest : list WaveTrack)
    (field_x field_width bar gap : Z) (mProgress : Gauge.FreqGauge) :
  let a := fst (GetAudio (track :: rest) rate0) in
  let len := Z.min (selection_end track - selection_start track) 10485760 in
  let bars := Z.quot field_width (bar + gap) in
  valid_params NumWindowFuncs alg windowFunc windowSize = true ->
  existsb (fun t => fne (GetRate t) (GetRate track)) rest = false ->
  (Z.of_N windowSize <= selection_end track - selection_start track)%Z ->
  (len < Z.of_nat fuel)%Z ->
  ((bar + gap <> 0)%Z -> bars <> 0%Z -> (Z.abs bars <= len)%Z ->
   exists analyst' range progress' drawn,
     Recalc' fuel analyst alg windowFunc windowSize a dBRange yMin yMax
       field_x field_width bar gap mProgress
     = Returns (analyst', range, progress', drawn) /\
     (forall data, mData a = Some data ->
        exists v, Calculate' fuel analyst alg windowFunc windowSize (rate a)
                    data (mDataLen a) = Some (analyst', v)) /\
     mAlg analyst' = alg /\
     mRate analyst' = GetRate track /\
     mWindowSize analyst' = windowSize /\
     GetProcessedSize analyst' = Z.of_N (windowSize / 2) /\
     Gauge.mRange progress' = 0%Z) /\
  ((bar + gap = 0)%Z \/ bars = 0%Z \/ (len < Z.abs bars)%Z ->
   Recalc' fuel analyst alg windowFunc windowSize a dBRange yMin yMax
     field_x field_width bar gap mProgress
   = DividesByZero).
Proof.
  intros a len bars Hvalid Hrates Hlong Hfuel.
  pose proof (proj1 (valid_params_spec _ _ _ _) Hvalid) as [HW _].
  destruct (@GetAudio_mixes_or_drops_aux F FA track rest rate0 ltac:(lia))
    as (data & Ha & Hcap & Hfits).
  { exact Hrates. }
  unfold a. rewrite Ha. unfold Recalc. cbn [mData mDataLen rate].
  fold len in Hcap, Hfits |- *.
  set (D := Z.to_N len) in *.
  assert (HD : Z.of_N D = len) by (unfold D, len; lia).
  assert (HWD : (windowSize <= D)%N) by (unfold D, len; lia).
  destruct (N.ltb_spec D windowSize) as [Hshort|_]; [lia|].
  unfold Calculate_progress. rewrite Hvalid. simpl negb. cbv iota.
  destruct (N.ltb_spec D windowSize) as [Hshort|_]; [lia|].
  cbv zeta.
  rewrite to_int_small by lia. rewrite HD.
  unfold Gauge.SetRange, Gauge.int_div. fold bars.
  set (ws := N.to_nat windowSize).
  set (win := window_coeffs WindowFunc windowFunc ws).
  set (p0 := tabulate ws (fun _ => narrow (i2d 0))).
  set (o0 := tabulate ws (fun _ : nat => fzero)).
  split.
  - intros Hstep Hbars Hroom.
    destruct (Z.eqb_spec (bar + gap) 0) as [|_]; [contradiction|].
    destruct (Z.eqb_spec bars 0) as [|_]; [contradiction|].
    set (g1 := Gauge.mkGauge _ _ _ _ _ _ _ _ _).
    assert (Hi : Gauge.mInterval g1 <> 0%Z).
    { unfold g1. simpl. intros H0.
      apply Z.quot_small_iff in H0; [lia|exact Hbars]. }
    pose proof (@window_loop_progress_runs alg windowSize win data D fuel 0%N
                  0%Z p0 o0 g1 [] Hi) as Hrun.
    assert (Hcalc : Calculate' fuel analyst alg windowFunc windowSize
                      (GetRate track) data D =
                    match window_loop' fuel alg windowSize win data D 0 0 p0 o0
                    with
                    | None => None
                    | Some (windows, p, out) =>
                        let '(p', (ymin, ymax)) :=
                          post_process alg (ws / 2) (normalization ws win)
                            windows p out in
                        Some (mkAnalyst alg (GetRate track) windowSize p',
                              Some (ymin, ymax))
                    end).
    { unfold Calculate. rewrite Hvalid. simpl negb. cbv iota.
      destruct (N.ltb_spec D windowSize) as [Hshort|_]; [lia|]. reflexivity. }
    rewrite (@window_loop_count F FA PowerSpectrum RealFFT InverseRealFFT
               alg windowSize win data D fuel p0 o0) in Hrun, Hcalc
      by (try assumption; lia).
    pose proof (length_run_windows PowerSpectrum RealFFT InverseRealFFT
                  (Z.to_nat (window_count windowSize D)) alg ws win data 0
                  p0 o0) as Hlen.
    destruct (run_windows _ _ _ _ _ _ _ _ _ _ _) as [p out].
    simpl fst in Hlen.
    destruct Hrun as (g' & drawn' & Hrun & _). rewrite Hrun.
    pose proof (length_post_process alg (ws / 2) (normalization ws win)
                  (window_count windowSize D) p out) as Hlen'.
    destruct (post_process _ _ _ _ _ _) as [p' [ymin ymax]].
    simpl fst in Hlen'.
    do 4 eexists. split; [reflexivity|].
    split.
    { intros data' Hdata. injection Hdata as <-.
      exists (Some (ymin, ymax)). exact Hcalc. }
    split; [reflexivity|]. split; [reflexivity|]. split; [reflexivity|].
    split; [|reflexivity].
    unfold GetProcessedSize. simpl mProcessed.
    rewrite Hlen', Hlen. unfold p0. rewrite length_tabulate. unfold ws.
    rewrite N2Z.inj_div. rewrite N_nat_Z. reflexivity.
  - intros Htrap.
    destruct (Z.eqb_spec (bar + gap) 0) as [|Hstep]; [reflexivity|].
    destruct (Z.eqb_spec bars 0) as [|Hbars]; [reflexivity|].
    destruct Htrap as [H|[H|Hsmall]]; try contradiction.
    destruct fuel as [|fuel]; [lia|].
    rewrite window_loop_progress_traps; [reflexivity| |exact HWD|lia].
    simpl. apply Z.quot_small_iff; [exact Hbars|lia].
Qed.

End RecalcFacts.

(** ** The plot, over the real numbers *)

Section PlotFacts.

Import Ideal Query Dialog.
Open Scope R_scope.

(** X18.  The range that [Recalc] leaves for a [Spectrum] plot does not
    reach below [-dBRange], and it holds every value of the curve that is
    not below [-dBRange], with room above; it is not empty when the minimum
    handed over is not above the maximum. *)
Theorem adjust_range_spectrum (dBRange yMin yMax : R) :
  let '(lo, hi) := adjust_range Alg.Spectrum dBRange yMin yMax in
  - dBRange <= lo /\
  (forall v, yMin <= v <= yMax -> - dBRange <= v -> lo <= v < hi) /\
  (yMin <= yMax -> lo < hi).
Proof.
  unfold adjust_range. simpl Z.eqb. ideal_arith.
  change (f_dec 10 0) with (10 * powerRZ 10 0).
  change (f_dec 5 (-1)) with (5 * powerRZ 10 (-1)).
  replace (powerRZ 10 0) with 1 by reflexivity.
  replace (powerRZ 10 (-1)) with (/ 10) by (simpl; field).
  unfold Rltb, Rleb.
  destruct (Rlt_dec yMin (- dBRange)); destruct (Rle_dec yMax (- dBRange));
    (split; [lra|split; [intros v Hv Hd; lra|intros Hle; lra]]).
Qed.

(** A line that [DrawPlot] draws in a plot rectangle at least two pixels
    high is between 0 and [height - 2] pixels long. *)
Lemma line_height_bounds (y yMin yTotal : R) (height h : Z) :
  (2 <= height)%Z ->
  line_height y yMin yTotal height = Some h ->
  (0 <= h <= height - 2)%Z.
Proof.
  intros Hh. unfold line_height. cbv zeta. ideal_arith. unfold Rltb.
  destruct (Rlt_dec 0 ((y - yMin) / yTotal)) as [Hpos|]; [|discriminate].
  intros Heq. injection Heq as <-.
  assert (Hprod : 0 <= (y - yMin) / yTotal * IZR (height - 1)).
  { apply Rmult_le_pos; [lra|]. apply IZR_le. lia. }
  rewrite (Rtrunc_nonneg Hprod).
  assert (H0 : (0 <= Zfloor ((y - yMin) / yTotal * IZR (height - 1)))%Z)
    by (apply Zfloor_lub; exact Hprod).
  destruct (Z.gtb_spec (Zfloor ((y - yMin) / yTotal * IZR (height - 1)))
              (height - 2)); lia.
Qed.

Lemma column_start_linear (xMin xStep : R) (i : nat) :
  column_start false xMin xStep i = xMin + IZR (Z.of_nat i) * xStep.
Proof.
  unfold column_start. induction i as [|i IH].
  - simpl. lra.
  - cbn [for_loop]. rewrite IH. unfold column_end. ideal_arith.
    rewrite Nat2Z.inj_succ, succ_IZR. lra.
Qed.

(** X19.  On a linear axis the column under the cursor is read out over the
    range that [DrawPlot] plotted in that column, and for a peak at the
    position of the cursor the number that [PlotPaint] casts to the column
    of the marker is the number of that column. *)
Theorem cursor_reads_plotted_column (alg : Z) (mRate : R) (mWindowSize : N)
    (size width : Z) (i : nat) :
  let axis := x_axis alg false mRate mWindowSize size width in
  let xMin := fst (fst axis) in
  let xMax := snd (fst axis) in
  let xStep := snd axis in
  let xPos := cursor_position false xMin xStep (Z.of_nat i) in
  xMax <> xMin -> (0 < width)%Z ->
  xPos = column_start false xMin xStep i /\
  xPos + xStep = column_end false xStep (column_start false xMin xStep i) /\
  peak_abscissa false xMin xMax xStep width xPos = IZR (Z.of_nat i).
Proof.
  assert (Hgen : forall xMin xMax : R,
    let xStep := (xMax - xMin) / IZR width in
    let xPos := cursor_position false xMin xStep (Z.of_nat i) in
    xMax <> xMin -> (0 < width)%Z ->
    xPos = column_start false xMin xStep i /\
    xPos + xStep = column_end false xStep (column_start false xMin xStep i) /\
    peak_abscissa false xMin xMax xStep width xPos = IZR (Z.of_nat i)).
  { intros xMin xMax xStep xPos Hne Hw.
    assert (Hwr : 0 < IZR width) by (apply IZR_lt; exact Hw).
    assert (Hpos : xPos = xMin + IZR (Z.of_nat i) * xStep).
    { unfold xPos, cursor_position. ideal_arith. lra. }
    rewrite column_start_linear. split; [exact Hpos|]. split.
    - unfold column_end. ideal_arith. lra.
    - unfold peak_abscissa. ideal_arith. rewrite Hpos. unfold xStep.
      field. split; lra. }
  intros axis xMin xMax xStep xPos.
  unfold xPos, xStep, xMax, xMin, axis, x_axis.
  destruct (alg =? Alg.Spectrum)%Z; cbn [fst snd]; ideal_arith; apply Hgen.
Qed.

(** X20.  In a dialog whose algorithm, rate and window size are those of
    the analyst, on a linear axis, the columns of [DrawPlot] cut the bins
    from the first plotted one to [windowSize / 2] (a [Spectrum] plot) or to
    [size] (any other plot) into [width] equal parts; the first plotted bin
    of a [Spectrum] plot is bin 1, that of any other plot is bin 0. *)
Theorem columns_tile_bins (s : SpectrumAnalyst R) (size width : Z) (i : nat) :
  let axis := x_axis (mAlg s) false (mRate s) (mWindowSize s) size width in
  let xMin := fst (fst axis) in
  let xStep := snd axis in
  let first := if (mAlg s =? Alg.Spectrum)%Z then 1 else 0 in
  let last := if (mAlg s =? Alg.Spectrum)%Z
              then IZR (Z.of_N (mWindowSize s)) / 2 else IZR size in
  mRate s <> 0 -> (0 < mWindowSize s)%N -> (0 < width)%Z ->
  to_bins s (column_start false xMin xStep i)
    (column_end false xStep (column_start false xMin xStep i)) =
  (first + IZR (Z.of_nat i) * (last - first) / IZR width,
   first + IZR (Z.of_nat (S i)) * (last - first) / IZR width).
Proof.
  unfold x_axis.
  destruct (mAlg s =? Alg.Spectrum)%Z eqn:Halg; cbv zeta; cbn [fst snd];
    ideal_arith; intros Hrate HW Hwidth;
    assert (Hwr : 0 < IZR width) by (apply IZR_lt; exact Hwidth);
    assert (HWr : 0 < IZR (Z.of_N (mWindowSize s))) by (apply IZR_lt; lia);
    rewrite to_bins_real; unfold index_of; rewrite Halg;
    unfold column_end; ideal_arith; rewrite column_start_linear;
    rewrite Nat2Z.inj_succ, succ_IZR; f_equal; field; lra.
Qed.

Lemma index_of_nonneg (s : SpectrumAnalyst R) (x : R) :
  0 < mRate s -> 0 <= x -> 0 <= index_of s x.
Proof.
  intros Hrate Hx. unfold index_of.
  assert (HW : 0 <= IZR (Z.of_N (mWindowSize s))) by (apply IZR_le; lia).
  destruct (mAlg s =? Alg.Spectrum)%Z.
  - apply Rmult_le_pos; [apply Rmult_le_pos; assumption|].
    left. apply Rinv_0_lt_compat. exact Hrate.
  - apply Rmult_le_pos; lra.
Qed.

(** From a position that is not negative on, with a step that is not
    negative, every query of the loop of [DrawPlot] returns. *)
Lemma DrawPlot_columns_total (fuel : nat) (s : SpectrumAnalyst R)
    (xStep yMin yTotal : R) (height : Z) :
  0 < mRate s -> 0 <= xStep ->
  (5 <= GetProcessedSize s)%Z -> (Z.to_nat (GetProcessedSize s) <= fuel)%nat ->
  (2 <= height)%Z ->
  forall (width : nat) (xPos : R),
    0 <= xPos ->
    exists columns,
      DrawPlot_columns fuel s false xStep yMin yTotal height width xPos =
      Some columns /\
      length columns = width /\
      Forall (fun c => forall h, c = Some h -> (0 <= h <= height - 2)%Z) columns.
Proof.
  intros Hrate Hstep Hsize Hfuel Hheight.
  induction width as [|width IH]; intros xPos Hpos.
  - exists []. simpl. repeat split. constructor.
  - cbn [DrawPlot_columns].
    assert (Hend : column_end false xStep xPos = xPos + xStep)
      by (unfold column_end; ideal_arith; reflexivity).
    rewrite Hend.
    pose proof (@GetProcessedValue_branches fuel s xPos (xPos + xStep)) as Hb.
    cbv zeta in Hb. destruct (Hb Hfuel) as [Hinterp Hint]. clear Hb.
    assert (Hb1 : 0 <= index_of s (xPos + xStep))
      by (apply index_of_nonneg; lra).
    assert (Hy : exists y, GetProcessedValue fuel s xPos (xPos + xStep) = Some y).
    { destruct (Rlt_dec (index_of s (xPos + xStep) - index_of s xPos) 1) as [Hw|Hw].
      - eexists. apply Hinterp; assumption.
      - eexists. apply Hint; [lra|lia|exact Hb1]. }
    destruct Hy as [y Hy]. rewrite Hy.
    destruct (IH (xPos + xStep) ltac:(lra)) as (cols & Hcols & Hlen & Hall).
    rewrite Hcols. eexists. split; [reflexivity|]. split.
    + simpl. rewrite Hlen. reflexivity.
    + constructor; [|exact Hall].
      intros h Hh. exact (@line_height_bounds y yMin yTotal height h Hheight Hh).
Qed.

(** X21.  In a dialog whose algorithm, rate and window size are those of
    the analyst, on a linear axis, [DrawPlot] gets a value for each of its
    [width] columns from a curve of at least five bins, and every line that
    it draws is between 0 and [height - 2] pixels long, so that it stays
    inside the outline of the plot rectangle. *)
Theorem DrawPlot_draws_every_column (fuel : nat) (s : SpectrumAnalyst R)
    (yMin yTotal : R) (height : Z) (width : nat) :
  let size := GetProcessedSize s in
  let axis := x_axis (mAlg s) false (mRate s) (mWindowSize s) size
                (Z.of_nat width) in
  let xMin := fst (fst axis) in
  let xStep := snd axis in
  0 < mRate s -> (2 <= mWindowSize s)%N -> (0 < width)%nat ->
  (5 <= size)%Z -> (Z.to_nat size <= fuel)%nat -> (2 <= height)%Z ->
  exists columns,
    DrawPlot_columns fuel s false xStep yMin yTotal height width xMin =
    Some columns /\
    length columns = width /\
    Forall (fun c => forall h, c = Some h -> (0 <= h <= height - 2)%Z) columns.
Proof.
  intros size axis xMin xStep Hrate HW Hwidth Hsize Hfuel Hheight.
  assert (Hwr : 0 < IZR (Z.of_nat width)) by (apply IZR_lt; lia).
  assert (HWr : 2 <= IZR (Z.of_N (mWindowSize s))) by (apply IZR_le; lia).
  assert (Hsr : 5 <= IZR size) by (apply IZR_le; exact Hsize).
  assert (Hinv : 0 < / mRate s) by (apply Rinv_0_lt_compat; exact Hrate).
  assert (Hax : 0 <= xMin /\ 0 <= xStep).
  { unfold xMin, xStep, axis, x_axis.
    destruct (mAlg s =? Alg.Spectrum)%Z; cbn [fst snd]; ideal_arith.
    - assert (Hw2 : / IZR (Z.of_N (mWindowSize s)) <= / 2)
        by (apply Rinv_le_contravar; lra).
      assert (Hwi : 0 < / IZR (Z.of_N (mWindowSize s)))
        by (apply Rinv_0_lt_compat; lra).
      split.
      + unfold Rdiv. apply Rmult_le_pos; lra.
      + unfold Rdiv. apply Rmult_le_pos; [|left; apply Rinv_0_lt_compat; exact Hwr].
        nra.
    - split; [lra|].
      unfold Rdiv. apply Rmult_le_pos; [|left; apply Rinv_0_lt_compat; exact Hwr].
      nra. }
  destruct Hax as [Hmin Hstep].
  apply DrawPlot_columns_total; assumption.
Qed.

End PlotFacts.

(** ** The exported table, over the real numbers *)

Section ExportFacts.

Import Ideal Query Dialog.
Open Scope R_scope.

(** X22.  In a dialog whose algorithm choice, rate and window size are those
    of the analyst, with a rate other than zero and a positive window size,
    [OnExport] writes one line for each of the bins 1 to [size - 1] and none
    for bin 0: the line of bin [i] starts with the position whose bin index
    is [i] and ends with the level of bin [i], and in a table of lags the
    frequency in between is the reciprocal of the lag. *)
Theorem export_rows_are_bins (s : SpectrumAnalyst R) (k : nat) :
  let rows := export_rows (mAlg s) (mRate s) (mWindowSize s) s in
  let i := (1 + Z.of_nat k)%Z in
  mRate s <> 0 -> (0 < mWindowSize s)%N ->
  (i < GetProcessedSize s)%Z ->
  length rows = Z.to_nat (GetProcessedSize s - 1) /\
  exists position middle,
    nth k rows [] = position :: middle ++ [get (mProcessed s) (Z.to_nat i)] /\
    index_of s position = IZR i /\
    (if (mAlg s =? Alg.Spectrum)%Z then middle = []
     else middle = [/ position]).
Proof.
  intros rows i Hrate HW Hi.
  assert (HWr : 0 < IZR (Z.of_N (mWindowSize s))) by (apply IZR_lt; lia).
  assert (Hir : 1 <= IZR i) by (apply IZR_le; unfold i; lia).
  split; [unfold rows, export_rows; rewrite length_map, length_seq; reflexivity|].
  unfold rows, export_rows. cbv zeta.
  set (row := fun k0 : nat => _).
  assert (Hnth : nth k (map row (seq 0 (Z.to_nat (GetProcessedSize s - 1)))) []
                 = row k).
  { rewrite (nth_indep _ [] (row 0%nat))
      by (rewrite length_map, length_seq; unfold i in Hi; lia).
    rewrite map_nth. rewrite seq_nth by (unfold i in Hi; lia). reflexivity. }
  rewrite Hnth. unfold row. fold i. unfold index_of.
  change Alg.Spectrum with 0%Z.
  rewrite getz_nonneg by (unfold i; lia).
  destruct (mAlg s =? 0)%Z; ideal_arith.
  - exists (IZR i * mRate s / IZR (Z.of_N (mWindowSize s))), [].
    repeat split. field. split; lra.
  - exists (IZR i / mRate s), [mRate s / IZR i].
    repeat split.
    + field. exact Hrate.
    + f_equal. field. split; lra.
Qed.

End ExportFacts.

(** ** The further properties at concrete calls *)

(** A [Spectrum] of 32 samples of value one with a window of 32. *)
Lemma spectrum_bins_witness :
  exists s' ymin ymax,
    Sample.Calculate 33 SpectrumAnalyst_new Alg.Spectrum 0 32 44100%R
      Sample.ones 32 = Some (s', Some (ymin, ymax)).
Proof.
  destruct (@spectrum_bins R Ideal.Rarith Sample.NumWindowFuncs
              Sample.WindowFunc Sample.PowerSpectrum Sample.RealFFT
              Sample.InverseRealFFT 33 SpectrumAnalyst_new Alg.Spectrum 0 32
              44100%R Sample.ones 32)
    as (s' & ymin & ymax & Hc & _).
  - reflexivity.
  - vm_compute; discriminate.
  - vm_compute; reflexivity.
  - vm_compute; lia.
  - reflexivity.
  - exists s', ymin, ymax. exact Hc.
Defined.

Lemma spectrum_maximum_witness :
  exists s' ymin ymax,
    Sample.Calculate 33 SpectrumAnalyst_new Alg.Spectrum 0 32 44100%R
      Sample.ones 32 = Some (s', Some (ymin, ymax)) /\
    forall i, (i < 16)%nat -> Ideal.Rltb ymax (get (mProcessed s') i) = false.
Proof.
  destruct (@spectrum_maximum R Ideal.Rarith Sample.NumWindowFuncs
              Sample.WindowFunc Sample.PowerSpectrum Sample.RealFFT
              Sample.InverseRealFFT 33 SpectrumAnalyst_new Alg.Spectrum 0 32
              44100%R Sample.ones 32)
    as (s' & ymin & ymax & Hc & Hmax & _).
  - reflexivity.
  - vm_compute; discriminate.
  - vm_compute; reflexivity.
  - vm_compute; lia.
  - exact Rordered.
  - reflexivity.
  - exists s', ymin, ymax. split; [exact Hc|exact Hmax].
Defined.

Lemma autocorrelation_curve_witness :
  exists s' ymin ymax,
    Sample.Calculate 33 SpectrumAnalyst_new Alg.Autocorrelation 0 32 44100%R
      Sample.ones 32 = Some (s', Some (ymin, ymax)) /\
    is_min_max (mProcessed s') 0 16 ymin ymax.
Proof.
  destruct (@autocorrelation_curve R Ideal.Rarith Sample.NumWindowFuncs
              Sample.WindowFunc Sample.PowerSpectrum Sample.RealFFT
              Sample.InverseRealFFT 33 SpectrumAnalyst_new Alg.Autocorrelation
              0 32 44100%R Sample.ones 32)
    as (s' & ymin & ymax & Hc & _ & _ & Hmm).
  - reflexivity.
  - vm_compute; discriminate.
  - vm_compute; reflexivity.
  - vm_compute; lia.
  - exact Rordered.
  - left; reflexivity.
  - exists s', ymin, ymax. split; [exact Hc|exact Hmm].
Defined.

Lemma upper_half_zero_witness :
  exists s' v,
    Sample.Calculate 33 SpectrumAnalyst_new Alg.Cepstrum 0 32 44100%R
      Sample.ones 32 = Some (s', Some v) /\
    length (mProcessed s') = 32%nat.
Proof.
  destruct (@upper_half_zero R Ideal.Rarith Sample.NumWindowFuncs
              Sample.WindowFunc Sample.PowerSpectrum Sample.RealFFT
              Sample.InverseRealFFT 33 SpectrumAnalyst_new Alg.Cepstrum
              0 32 44100%R Sample.ones 32)
    as (s' & v & Hc & Hlen & _).
  - reflexivity.
  - vm_compute; discriminate.
  - vm_compute; reflexivity.
  - vm_compute; lia.
  - exists s', v. split; [exact Hc|exact Hlen].
Defined.

(** The second of the three windows of 32 samples in 64 samples starts at
    sample 16. *)
Lemma frames_within_data_witness :
  (1 * (N.to_nat 32 / 2) + 3 < N.to_nat 64)%nat.
Proof.
  destruct (@frames_within_data R Ideal.Rarith Sample.NumWindowFuncs
              Sample.WindowFunc Alg.Spectrum 0 32 (Sample.ones ++ Sample.ones) 64)
    with (k := 1%nat) (i := 3%nat) as [H _].
  - reflexivity.
  - vm_compute; discriminate.
  - vm_compute; reflexivity.
  - vm_compute; reflexivity.
  - vm_compute; lia.
  - exact H.
Defined.

(** The flat curve has no peak. *)
Lemma FindPeak_monotone_witness :
  FindPeak Query.flat_curve 5%R = (0%R, 0%R).
Proof.
  apply (@FindPeak_monotone R Ideal.Rarith Query.flat_curve 5%R).
  left. rewrite flat_curve_size.
  assert (Hflat : forall j, (1 <= j <= 14)%Z ->
            flt (getz (mProcessed Query.flat_curve) (j - 1))
                (getz (mProcessed Query.flat_curve) j) = false).
  { intros j Hj. rewrite !getz_nonneg by lia. rewrite !flat_curve_get by lia.
    apply Rltb_false. lra. }
  split.
  - apply (Hflat 1%Z). lia.
  - intros j Hj. apply Hflat. lia.
Defined.

(** The single hill: the peak is the candidate of one of the bins. *)
Lemma FindPeak_zero_or_candidate_witness :
  FindPeak Peak.hill_curve 5%R = (0%R, 0%R) \/
  exists bin, (3 <= bin <= 14)%Z /\
              FindPeak Peak.hill_curve 5%R = candidate Peak.hill_curve bin.
Proof.
  destruct (@FindPeak_zero_or_candidate R Ideal.Rarith Rordered
              Peak.hill_curve 5%R) as [H|(bin & Hbin & _ & Hc & _)].
  - left. exact H.
  - right. exists bin. split; [exact Hbin|exact Hc].
Defined.

(** The samples 0, 4, 2, 0 have a positive discriminant. *)
Lemma CubicMaximize_value_interpolated_witness :
  snd (CubicMaximize 0%R 4%R 2%R 0%R 0%R) =
  CubicInterpolate 0%R 4%R 2%R 0%R (fst (CubicMaximize 0%R 4%R 2%R 0%R 0%R)).
Proof.
  apply CubicMaximize_value_interpolated.
  rewrite discriminant_real, cubic_a_real, cubic_b_real, cubic_c_real. lra.
Defined.

(** On the flat curve the range from index 10 to index 14 has mean 1. *)
Lemma GetProcessedValue_flat_witness :
  GetProcessedValue 16 Query.flat_curve 10%R 14%R = Some 1%R.
Proof.
  pose proof (@GetProcessedValue_flat 16 Query.flat_curve 10%R 14%R 1%R) as H.
  cbv zeta in H. rewrite flat_curve_size, !flat_curve_index in H.
  apply H.
  - lia.
  - simpl; lia.
  - intros i Hi. apply flat_curve_get. simpl in Hi. lia.
  - right. change (IZR 16) with 16%R. lra.
Defined.

(** The whole flat curve, and more: fifteen of the sixteen bins count. *)
Lemma GetProcessedValue_whole_curve_witness :
  GetProcessedValue 16 Query.flat_curve (-1)%R 17%R =
  Some (Query.sum_from (mProcessed Query.flat_curve) 0 15 / (17 - -1))%R.
Proof.
  pose proof (@GetProcessedValue_whole_curve 16 Query.flat_curve (-1)%R 17%R) as H.
  cbv zeta in H. rewrite flat_curve_size, !flat_curve_index in H.
  apply H.
  - lia.
  - simpl; lia.
  - lra.
  - change (IZR 16) with 16%R. lra.
Defined.

Lemma log_power_floor_witness :
  (ln (minpower 32) <= log_power 32 [] [] 0)%R.
Proof.
  destruct (@log_power_floor 32 [] [] 0%nat) as (_ & _ & H); [lia|exact H].
Defined.

(** Values that go back and forth draw each bar once. *)
Lemma SetValues_draws_each_bar_once_witness :
  exists g',
    Gauge.SetValues [0; 35; 10; 48]%Z Session.gauge =
    Some (g', [1; 13; 25; 37; 49]%Z).
Proof.
  destruct (@SetValues_draws_each_bar_once [0; 35; 10; 48]%Z Session.gauge)
    as (g' & Hv & _).
  - discriminate.
  - exists g'. exact Hv.
Defined.

(** A range of 100 over ten bars gives a step of ten: no division by zero. *)
Lemma SetValue_after_SetRange_fails_iff_witness :
  Gauge.SetValue 35 Session.gauge <> None.
Proof.
  intros Hnone.
  apply (@SetValue_after_SetRange_fails_iff 1 122 100 10 2 35
           Session.fresh_gauge Session.gauge) in Hnone.
  - vm_compute in Hnone. discriminate.
  - reflexivity.
Defined.

Lemma fne_same_rate :
  existsb (fun t => Dialog.fne (Dialog.GetRate t) (Dialog.GetRate Session.track))
    [Session.track] = false.
Proof.
  simpl. unfold Dialog.fne. ideal_arith. decide_Rltb. reflexivity.
Qed.

(** Two tracks of one rate are added. *)
Lemma GetAudio_mixes_or_drops_witness :
  exists data,
    Dialog.GetAudio [Session.track; Session.track] 0%R =
    (Dialog.mkAudio (Some data) 32 44100%R, false) /\
    length data = 32%nat.
Proof.
  destruct (@GetAudio_mixes_or_drops R Ideal.Rarith Session.track
              [Session.track] 0%R) as [_ H].
  - simpl; lia.
  - rewrite fne_same_rate in H. destruct H as (data & Ha & Hl & _).
    exists data. split; [exact Ha|exact Hl].
Defined.

(** Two tracks of 32 samples, and a status field with room for ten bars. *)
Lemma Recalc_after_GetAudio_witness :
  exists analyst' range progress' drawn,
    Dialog.Recalc Sample.NumWindowFuncs Sample.WindowFunc Sample.PowerSpectrum
      Sample.RealFFT Sample.InverseRealFFT 33 SpectrumAnalyst_new
      Alg.Spectrum 0 32
      (fst (Dialog.GetAudio [Session.track; Session.track] 0%R))
      90%R 0%R 0%R 1 122 10 2 Session.fresh_gauge
    = Dialog.Returns (analyst', range, progress', drawn) /\
    GetProcessedSize analyst' = 16%Z.
Proof.
  destruct (@Recalc_after_GetAudio R Ideal.Rarith Sample.NumWindowFuncs
              Sample.WindowFunc Sample.PowerSpectrum Sample.RealFFT
              Sample.InverseRealFFT 33 SpectrumAnalyst_new Alg.Spectrum 0 32
              90%R 0%R 0%R 0%R Session.track [Session.track]
              1 122 10 2 Session.fresh_gauge)
    as [Hruns _].
  - reflexivity.
  - exact fne_same_rate.
  - simpl; lia.
  - simpl; lia.
  - destruct Hruns as (analyst' & range & progress' & drawn & Hr & _ & _ & _ & _ & Hs & _).
    + simpl; lia.
    + vm_compute; discriminate.
    + vm_compute; discriminate.
    + exists analyst', range, progress', drawn. split; [exact Hr|exact Hs].
Defined.

(** A lag plot of 16 bins at rate one, four columns wide. *)
Lemma cursor_reads_plotted_column_witness :
  let axis := Dialog.x_axis Alg.Autocorrelation false 1%R 32 16 4 in
  Dialog.peak_abscissa false (fst (fst axis)) (snd (fst axis)) (snd axis) 4
    (Dialog.cursor_position false (fst (fst axis)) (snd axis) 2) = 2%R.
Proof.
  pose proof (@cursor_reads_plotted_column Alg.Autocorrelation 1%R 32 16 4 2) as H.
  cbv zeta in H. destruct H as (_ & _ & H).
  - unfold Dialog.x_axis. simpl Z.eqb. cbn [fst snd]. ideal_arith. lra.
  - lia.
  - exact H.
Defined.

Lemma columns_tile_bins_witness :
  let axis := Dialog.x_axis Alg.Autocorrelation false 1%R 32 16 4 in
  to_bins Query.flat_curve
    (Dialog.column_start false (fst (fst axis)) (snd axis) 1)
    (Dialog.column_end false (snd axis)
       (Dialog.column_start false (fst (fst axis)) (snd axis) 1)) =
  (0 + 1 * (16 - 0) / 4, 0 + 2 * (16 - 0) / 4)%R.
Proof.
  apply (@columns_tile_bins Query.flat_curve 16 4 1).
  - simpl; lra.
  - reflexivity.
  - lia.
Defined.

Lemma DrawPlot_draws_every_column_witness :
  let axis := Dialog.x_axis Alg.Autocorrelation false 1%R 32 16 4 in
  exists columns,
    Dialog.DrawPlot_columns 16 Query.flat_curve false (snd axis) 0%R 2%R 10 4
      (fst (fst axis)) = Some columns /\
    length columns = 4%nat.
Proof.
  destruct (@DrawPlot_draws_every_column 16 Query.flat_curve 0%R 2%R 10 4)
    as (columns & Hc & Hl & _).
  - simpl; lra.
  - vm_compute; discriminate.
  - lia.
  - rewrite flat_curve_size; lia.
  - rewrite flat_curve_size; simpl; lia.
  - lia.
  - exists columns. split; [exact Hc|exact Hl].
Defined.

(** The flat curve is exported in fifteen lines. *)
Lemma export_rows_are_bins_witness :
  length (Dialog.export_rows Alg.Autocorrelation 1%R 32 Query.flat_curve)
  = 15%nat.
Proof.
  destruct (@export_rows_are_bins Query.flat_curve 3) as [H _].
  - simpl; lra.
  - reflexivity.
  - rewrite flat_curve_size; lia.
  - exact H.
Defined.
